(** * cmenu: a shallow embedding of [cmenu.c] and its verified properties

    The development follows the C file top to bottom: the arena allocator,
    the matcher, entry parsing, the match table, the terminal and the
    keystroke loop of [main].  The loops of [fullread] and [fullwrite] are
    also given call by call, over what each [read] and [write] returns, and
    the write of the result on standard output goes through the latter.

    Conventions of the embedding.
    - A [char] is a [Z] in [-128, 127] (plain [char] is signed on the
      target); an [int] or [ptrdiff_t] is a [Z].  Every length of the program
      is bounded by [MEMORY_MAX = 2^28], so no signed arithmetic wraps; the
      two conversions the code relies on ([(unsigned)c] in [xtolower], the
      [int] to [char] conversions in [main]) are written out.
    - A NUL-terminated string is the list of its characters; the terminator is
      the end of the list.  A [char*] into the input buffer is an address
      ([Z]) and is dereferenced through [cstr_at], which fails on a bad
      address.
    - Typed arrays ([char**], [int*], the pattern buffer) are lists indexed
      through [arr_get] and [arr_set], which fail out of range.
    - Effects live in [M]: the outside world (terminal attributes, the bytes
      written to each descriptor, pending keystrokes) is threaded, and a
      computation may return, call [exit], block on the terminal, or fault
      (an access outside an object). *)

From Stdlib Require Import ZArith Lia String Ascii Sorted.
From stdpp Require Import base list.

Local Open Scope Z_scope.

(** ** Constants of the C file *)

Definition MEMORY_MAX : Z := Z.shiftl 1 28.
Definition PATTERN_MAX : Z := Z.shiftl 1 12.

Definition KEY_ESCAPE0 : Z := 0x1B.
Definition KEY_ESCAPE1 : Z := 0x5B.
Definition KEY_DOWN : Z := 0x42.
Definition KEY_UP : Z := 0x41.
Definition KEY_ENTER : Z := 0x0D.
Definition KEY_CTRLC : Z := 0x03.
Definition KEY_BACKSPACE : Z := 0x7F.

Definition EXIT_SUCCESS : Z := 0.
Definition EXIT_FAILURE : Z := 1.

(** [sizeof] on the LP64 target (Linux, glibc): [Entries] is two pointers and
    three ints padded to 32 bytes, [Terminal] two ints and a 60-byte
    [struct termios]. *)
Definition sizeof_char : Z := 1.
Definition sizeof_int : Z := 4.
Definition sizeof_ptr : Z := 8.
Definition sizeof_Entries : Z := 32.
Definition sizeof_Terminal : Z := 68.

(** ** Characters and strings *)

Definition char_of_int (z : Z) : Z :=
  let m := z mod 256 in if m <? 128 then m else m - 256.

Definition to_unsigned (z : Z) : Z := z mod 2 ^ 32.

Definition chars (s : string) : list Z :=
  List.map (fun a => Z.of_N (N_of_ascii a)) (list_ascii_of_string s).

Definition NL : Z := 10.

(** [*s] for a string held as a list: past the last character sits the
    terminator. *)
Definition deref (s : list Z) : Z := List.hd 0 s.

(** The characters of the string that starts a region of memory, up to its
    terminator; [None] when the region holds no terminator. *)
Fixpoint cstr (mem : list Z) : option (list Z) :=
  match mem with
  | [] => None
  | c :: rest => if c =? 0 then Some [] else option_map (cons c) (cstr rest)
  end.

(** A [char*] [p] into a buffer that starts at address [base]. *)
Definition cstr_at (base : Z) (buf : list Z) (p : Z) : option (list Z) :=
  if p <? base then None else cstr (drop (Z.to_nat (p - base)) buf).

Definition arr_get {A} (a : list A) (i : Z) : option A :=
  if i <? 0 then None else a !! Z.to_nat i.

Definition arr_set {A} (a : list A) (i : Z) (x : A) : option (list A) :=
  if (0 <=? i) && (i <? Z.of_nat (length a)) then Some (<[Z.to_nat i := x]> a)
  else None.

(** ** Matcher *)

(** [char xtolower(char c)] *)
Definition xtolower (c : Z) : Z :=
  if to_unsigned (to_unsigned c - 65) <? 26 then char_of_int (c + 97 - 65) else c.

(** The [while] loop of [is_match]; it is entered with [*pattern != 0] and
    keeps that at every iteration, so the empty case is never evaluated. *)
Fixpoint is_match_while (pattern str : list Z) : bool :=
  match pattern with
  | [] => false
  | pc :: pattern' =>
      if pc =? xtolower (deref str) then
        let str' := List.tl str in
        if deref pattern' =? 0 then true
        else if deref str' =? 0 then false
        else is_match_while pattern' str'
      else false
  end.

(** [bool is_match(char* pattern, char* str)] *)
Definition is_match (pattern str : list Z) : bool :=
  if deref pattern =? 0 then true else is_match_while pattern str.

(** ** The read and write loops, call by call *)

(** What one [read] on a descriptor finds: bytes ready to be taken, the end
    of the file, or an error. *)
Inductive sys_read :=
| Data (bytes : list Z)
| Eof
| Err.

(** [read(fd, buf, n)] on a descriptor whose coming reads are [src]: its
    result, the bytes it stores at [buf] and the reads still to come.  A
    call takes at most [n] of the bytes that are ready and leaves the others
    for the next call. *)
Definition read_call (src : list sys_read) (n : Z)
    : Z * list Z * list sys_read :=
  match src with
  | [] => (0, [], [])
  | Eof :: rest => (0, [], rest)
  | Err :: rest => (-1, [], rest)
  | Data bytes :: rest =>
      let k := Z.to_nat (Z.min n (Z.of_nat (length bytes))) in
      (Z.of_nat k, take k bytes,
       if (k <? length bytes)%nat then Data (drop k bytes) :: rest else rest)
  end.

(** The conversion of a [ptrdiff_t] to [int] (the [return off] of
    [fullread]): the value modulo [2^32], as a signed number. *)
Definition int_of_ptrdiff (z : Z) : Z :=
  let m := z mod 2 ^ 32 in if m <? 2 ^ 31 then m else m - 2 ^ 32.

(** The [for] loop of [fullread], one [read] per iteration: [off] as the
    loop leaves it, the first [off] bytes of [buf] and the reads left.
    Every iteration that goes on adds at least one byte, so [len] iterations
    suffice ([None]: the bound was too small). *)
Fixpoint fullread_for (fuel : nat) (src : list sys_read) (off len : Z)
    (buf : list Z) : option (Z * list Z * list sys_read) :=
  if off <? len then
    match fuel with
    | O => None
    | S fuel' =>
        let '(r, bytes, src') := read_call src (len - off) in
        if r <? 1 then Some (off, buf, src')
        else fullread_for fuel' src' (off + r) len (buf ++ bytes)
    end
  else Some (off, buf, src).

(** [int fullread(int fd, void* buf, ptrdiff_t len)], call by call, on an
    empty [buf]. *)
Definition fullread_calls (src : list sys_read) (len : Z)
    : option (Z * list Z * list sys_read) :=
  r ← fullread_for (Z.to_nat len) src 0 len [];
  Some (int_of_ptrdiff r.1.1, r.1.2, r.2).

(** The bytes a descriptor delivers before its first end of file or error. *)
Fixpoint delivered (src : list sys_read) : list Z :=
  match src with
  | Data (b :: bytes) :: rest => b :: bytes ++ delivered rest
  | _ => []
  end.

(** [write(fd, buf, n)] on a descriptor that takes [dev] at its coming
    calls: a capacity below 1 is the result of a call that writes nothing (0,
    or -1 for an error), another one bounds the bytes the call takes.  Past
    the end of [dev] every call takes all it is given.  The result, the
    bytes written and the calls left. *)
Definition write_call (dev : list Z) (bytes : list Z) : Z * list Z * list Z :=
  match dev with
  | [] => (Z.of_nat (length bytes), bytes, [])
  | c :: rest =>
      if c <? 1 then (c, [], rest)
      else
        let k := Z.to_nat (Z.min c (Z.of_nat (length bytes))) in
        (Z.of_nat k, take k bytes, rest)
  end.

(** [int fullwrite(int fd, void* buf, ptrdiff_t len)], one [write] per
    iteration: the result, the bytes the descriptor holds ([out] before the
    call) and the calls left ([None]: the bound [fuel] was too small). *)
Fixpoint fullwrite_for (fuel : nat) (dev : list Z) (off len : Z)
    (buf out : list Z) : option (Z * list Z * list Z) :=
  if off <? len then
    match fuel with
    | O => None
    | S fuel' =>
        let '(r, written, dev') :=
          write_call dev (take (Z.to_nat (len - off)) (drop (Z.to_nat off) buf)) in
        if r <? 1 then Some (-1, out, dev')
        else fullwrite_for fuel' dev' (off + r) len buf (out ++ written)
    end
  else Some (0, out, dev).

(** [int writestr(int fd, char* str)], call by call; [strlen(str)]
    iterations suffice. *)
Definition writestr_calls (dev : list Z) (str out : list Z)
    : option (Z * list Z * list Z) :=
  fullwrite_for (length str) dev 0 (Z.of_nat (length str)) str out.

(** ** The outside world and the effect monad *)

(** [struct termios], reduced to the fields [cfmakeraw] touches. *)
Record termios := Termios {
  c_iflag : Z;
  c_oflag : Z;
  c_cflag : Z;
  c_lflag : Z;
  c_vmin : Z;
  c_vtime : Z
}.

(** The flag masks of [cfmakeraw(3)], with the Linux values:
    [IGNBRK|BRKINT|PARMRK|ISTRIP|INLCR|IGNCR|ICRNL|IXON], [OPOST],
    [ECHO|ECHONL|ICANON|ISIG|IEXTEN], [CSIZE|PARENB] and [CS8]. *)
Definition RAW_IFLAG_CLEAR : Z := 1515.
Definition RAW_OFLAG_CLEAR : Z := 1.
Definition RAW_LFLAG_CLEAR : Z := 32843.
Definition RAW_CFLAG_CLEAR : Z := 304.
Definition CS8 : Z := 48.

Definition cfmakeraw (t : termios) : termios :=
  {| c_iflag := Z.ldiff (c_iflag t) RAW_IFLAG_CLEAR;
     c_oflag := Z.ldiff (c_oflag t) RAW_OFLAG_CLEAR;
     c_cflag := Z.lor (Z.ldiff (c_cflag t) RAW_CFLAG_CLEAR) CS8;
     c_lflag := Z.ldiff (c_lflag t) RAW_LFLAG_CLEAR;
     c_vmin := 1;
     c_vtime := 0 |}.

Definition termios_zero : termios := Termios 0 0 0 0 0 0.

(** What one [read(tty, &r, 1)] does: it stores a character and returns 1,
    returns 0 at end of file and leaves [r] as it was (an indeterminate
    value, supplied here), or returns -1. *)
Inductive tty_read :=
| ReadChar (c : Z)
| ReadEOF (r : Z)
| ReadError.

Record World := {
  tty_attr : termios;       (* the terminal's current attributes *)
  tty_in : list tty_read;   (* the reads of the terminal still to come *)
  tty_out : list Z;         (* bytes written to the terminal *)
  std_in : list Z;          (* bytes standard input will deliver *)
  std_out : list Z;         (* bytes written to descriptor 1 *)
  std_err : list Z;         (* bytes written to descriptor 2 *)
  out_dev : list Z          (* what the writes of the result to come take *)
}.

Definition set_attr (t : termios) (w : World) : World :=
  {| tty_attr := t; tty_in := tty_in w; tty_out := tty_out w;
     std_in := std_in w; std_out := std_out w; std_err := std_err w;
     out_dev := out_dev w |}.

Definition set_tty_in (w : World) (reads : list tty_read) : World :=
  {| tty_attr := tty_attr w; tty_in := reads; tty_out := tty_out w;
     std_in := std_in w; std_out := std_out w; std_err := std_err w;
     out_dev := out_dev w |}.

(** What the environment decides at run time. *)
Record Env := {
  malloc_result : Z;        (* [malloc(MEMORY_MAX)]; 0 is NULL *)
  open_result : Z;          (* [open("/dev/tty", O_RDWR)] *)
  ws_row : Z;               (* [w.ws_row] after the ioctl, an [unsigned short] *)
  uninit : Z -> Z           (* the item fresh storage holds at an address *)
}.

Inductive outcome (A : Type) :=
| Ret (a : A) (w : World)         (* the computation returns [a] *)
| Exit (status : Z) (w : World)   (* [exit(status)] was called *)
| Blocked (w : World)             (* a terminal read with no read left: it never returns *)
| Fault                           (* an access outside the object it is meant for *)
| OutOfFuel.                      (* the loop bound of the embedding was too small *)
Arguments Ret {A} a w.
Arguments Exit {A} status w.
Arguments Blocked {A} w.
Arguments Fault {A}.
Arguments OutOfFuel {A}.

Definition M (A : Type) : Type := World -> outcome A.

Definition M_ret {A} (a : A) : M A := fun w => Ret a w.

Definition M_bind {A B} (c : M A) (k : A -> M B) : M B :=
  fun w =>
    match c w with
    | Ret a w' => k a w'
    | Exit s w' => Exit s w'
    | Blocked w' => Blocked w'
    | Fault => Fault
    | OutOfFuel => OutOfFuel
    end.

Notation "'let*' x ':=' c 'in' k" := (M_bind c (fun x => k))
  (at level 10, x pattern, c at level 100, k at level 200).

(** An [option] from an array or pointer access, inside [M]. *)
Definition access {A} (o : option A) : M A :=
  fun w => match o with Some a => Ret a w | None => Fault end.

(** What [writestr] hands to a descriptor: 1 and 2 are the standard streams;
    every other descriptor this program writes to is the terminal it opened.
    The screens and the diagnostics are recorded whole, as handed over: the
    code drops the result of [fullwrite], and what it does next is the same
    whatever the descriptor took.  The one write whose bytes are the result
    of the program, line 353, is followed call by call ([writestr_out]). *)
Definition write_fd (fd : Z) (bytes : list Z) (w : World) : World :=
  if fd =? 1 then
    {| tty_attr := tty_attr w; tty_in := tty_in w; tty_out := tty_out w;
       std_in := std_in w; std_out := std_out w ++ bytes; std_err := std_err w;
       out_dev := out_dev w |}
  else if fd =? 2 then
    {| tty_attr := tty_attr w; tty_in := tty_in w; tty_out := tty_out w;
       std_in := std_in w; std_out := std_out w; std_err := std_err w ++ bytes;
       out_dev := out_dev w |}
  else
    {| tty_attr := tty_attr w; tty_in := tty_in w; tty_out := tty_out w ++ bytes;
       std_in := std_in w; std_out := std_out w; std_err := std_err w;
       out_dev := out_dev w |}.

(** [int writestr(int fd, char* str)] for a screen or a diagnostic; every
    caller drops the result. *)
Definition writestr (fd : Z) (str : list Z) : M unit :=
  fun w => Ret tt (write_fd fd str w).

(** [int writestr(1, str)] for the result of the program, call by call over
    what the [write] calls on descriptor 1 take: the world holds the bytes
    that landed, the result is the one of [fullwrite]. *)
Definition writestr_out (str : list Z) : M Z :=
  fun w =>
    match writestr_calls (out_dev w) str (std_out w) with
    | Some (r, out, dev) =>
        Ret r {| tty_attr := tty_attr w; tty_in := tty_in w; tty_out := tty_out w;
                 std_in := std_in w; std_out := out; std_err := std_err w;
                 out_dev := dev |}
    | None => OutOfFuel
    end.

(** [ERROR_EXIT(msg)] *)
Definition ERROR_EXIT {A} (msg : string) : M A :=
  fun w => Exit EXIT_FAILURE (write_fd 2 (chars msg ++ [NL]) w).

(** [int fullread(0, buf, len)]: the bytes it stores; its result is their
    number.  Standard input delivers [std_in] and then ends, so the loop
    stops at [len] bytes or at the end of the input, whichever comes first. *)
Definition fullread (len : Z) : M (list Z) :=
  fun w =>
    let n := Z.to_nat (Z.min len (Z.of_nat (length (std_in w)))) in
    Ret (take n (std_in w))
        {| tty_attr := tty_attr w; tty_in := tty_in w; tty_out := tty_out w;
           std_in := drop n (std_in w); std_out := std_out w; std_err := std_err w;
           out_dev := out_dev w |}.

(** ** Arena *)

Record Arena := { beg : Z; end_ : Z }.

(** Raw memory, byte by address, and [memset]. *)
Definition heap : Type := Z -> Z.

Definition memset (h : heap) (ptr c n : Z) : heap :=
  fun a => if (ptr <=? a) && (a <? ptr + n) then c else h a.

(** [void* alloc(Arena*, ptrdiff_t size, ptrdiff_t count)] on the raw memory
    [h]: the pointer, the arena and the memory as the call leaves them. *)
Definition alloc_raw (h : heap) (arena : Arena) (size count : Z)
    : M (Z * Arena * heap) :=
  let available := end_ arena - beg arena in
  if count >? Z.quot available size then ERROR_EXIT "out of memory"
  else
    let ptr := end_ arena - size * count in
    M_ret (ptr, {| beg := beg arena; end_ := ptr |},
           if count =? 0 then h else memset h ptr 0 size).

(** [alloc] as the rest of the program uses it.  The objects it makes are
    kept as values of their types ([fresh] below gives their first
    contents), so what remains of the call is lines 89 to 93: the capacity
    check and the cursor (see [alloc_raw_alloc]). *)
Definition alloc (arena : Arena) (size count : Z) : M (Z * Arena) :=
  let available := end_ arena - beg arena in
  if count >? Z.quot available size then ERROR_EXIT "out of memory"
  else
    let ptr := end_ arena - size * count in
    M_ret (ptr, {| beg := beg arena; end_ := ptr |}).

(** The typed view of [NEW(arena, type, count)] for an array of scalars of
    [size] bytes at [ptr]: [count] items, the first one zeroed by line 94,
    the others holding whatever the storage held at their addresses. *)
Definition fresh (env : Env) (ptr size count : Z) : list Z :=
  match Z.to_nat count with
  | O => []
  | S n => 0 :: List.map (fun i => uninit env (ptr + size * Z.of_nat i)) (seq 1 n)
  end.

(** ** Entries *)

Record Entries := {
  entries : list Z;         (* [char**]: addresses into the input buffer *)
  matches : list Z;         (* [int*]: indices into [entries] *)
  entries_len : Z;
  matches_len : Z;
  selected : Z
}.

(** The input buffer: where it starts ([input] in [read_entries]) and the
    characters it holds once the lines are chopped. *)
Record Input := { input_base : Z; input_bytes : list Z }.

Definition entry_str (inp : Input) (p : Z) : option (list Z) :=
  cstr_at (input_base inp) (input_bytes inp) p.

(** The [case] labels shared by the two loops of [read_entries]. *)
Definition is_delim (c : Z) : bool := (c =? 0) || (c =? 10) || (c =? 13).

(** First loop of [read_entries]: over the characters from [input_off] on,
    with the running [e->entries_len] and [entry_len]; the result is the final
    [e->entries_len]. *)
Fixpoint count_lines (input : list Z) (n entry_len : Z) : Z :=
  match input with
  | [] => n
  | c :: rest =>
      if is_delim c then count_lines rest (n + (if entry_len >? 0 then 1 else 0)) 0
      else count_lines rest n (entry_len + 1)
  end.

(** Second loop of [read_entries]: over the characters from [input_off] on.
    [input] is the address of the buffer, [ents] the [e->entries] array.  The
    result is the characters as the loop leaves them and the array. *)
Fixpoint chop_lines (rest : list Z) (input input_off entry_len i : Z)
    (ents : list Z) : option (list Z * list Z) :=
  match rest with
  | [] => Some ([], ents)
  | c :: rest' =>
      if is_delim c then
        ents1 ← (if entry_len >? 0
                 then arr_set ents i (input + input_off - entry_len)
                 else Some ents);
        let i1 := if entry_len >? 0 then i + 1 else i in
        r ← chop_lines rest' input (input_off + 1) 0 i1 ents1;
        Some (0 :: r.1, r.2)
      else
        r ← chop_lines rest' input (input_off + 1) (entry_len + 1) i ents;
        Some (c :: r.1, r.2)
  end.

(** [Entries* read_entries(Arena* arena)].  The result also carries the input
    buffer the entries point into, and the arena as the call leaves it.  On
    an arena of exactly [sizeof(Entries)] bytes nothing is left below the
    struct: [fullread] is asked for -1 bytes and the line feed of line 149
    goes to the first byte of the struct, a byte of [e->entries] that lines
    167 and 178 write again and that, with no entry, is never followed. *)
Definition read_entries (env : Env) (arena : Arena) : M (Entries * Input * Arena) :=
  let* (_, arena) := alloc arena sizeof_Entries 1 in
  let input := beg arena in
  let input_len := end_ arena - beg arena in
  let* data := fullread (input_len - 1) in
  let input_len := Z.of_nat (length data) in
  let buf := data ++ [NL] in
  let input_len := input_len + 1 in
  let arena := {| beg := beg arena + input_len; end_ := end_ arena |} in
  let n := count_lines buf 0 0 in
  let* (p_entries, arena) := alloc arena sizeof_ptr n in
  let ents := fresh env p_entries sizeof_ptr n in
  let* (p_matches, arena) := alloc arena sizeof_int n in
  let mats := fresh env p_matches sizeof_int n in
  let* (buf', ents') := access (chop_lines buf input 0 0 0 ents) in
  M_ret ({| entries := ents'; matches := mats; entries_len := n;
            matches_len := 0; selected := 0 |},
         {| input_base := input; input_bytes := buf' |},
         arena).

(** [void set_selected_clamped(Entries* e, int n)] *)
Definition set_selected_clamped (e : Entries) (n : Z) : Entries :=
  {| entries := entries e; matches := matches e;
     entries_len := entries_len e; matches_len := matches_len e;
     selected := if n <? 0 then 0
                 else if n >=? matches_len e then matches_len e - 1 else n |}.

(** Second loop of [update_matches], from index [i] for [n] iterations. *)
Fixpoint match_loop (n : nat) (i : Z) (inp : Input) (pattern : list Z)
    (e : Entries) : option Entries :=
  match n with
  | O => Some e
  | S n' =>
      p ← arr_get (entries e) i;
      str ← entry_str inp p;
      if is_match pattern str then
        m ← arr_set (matches e) (matches_len e) i;
        match_loop n' (i + 1) inp pattern
          {| entries := entries e; matches := m;
             entries_len := entries_len e; matches_len := matches_len e + 1;
             selected := selected e |}
      else match_loop n' (i + 1) inp pattern e
  end.

(** [void update_matches(Entries* e, char* pattern, Arena scratch)].  The
    lowered [copy] is built and, as in the C code, not used: [is_match]
    receives [pattern]. *)
Definition update_matches (inp : Input) (e : Entries) (pattern : list Z)
    (scratch : Arena) : M Entries :=
  let len := Z.of_nat (length pattern) + 1 in
  let* (_, _) := alloc scratch sizeof_char len in
  let copy := List.map xtolower (pattern ++ [0]) in
  let e0 := {| entries := entries e; matches := matches e;
               entries_len := entries_len e; matches_len := 0;
               selected := selected e |} in
  access (match_loop (Z.to_nat (entries_len e)) 0 inp pattern e0).

(** ** Terminal *)

Record Terminal := { tty : Z; height : Z; original : termios }.

(** The escape sequences of [clear_screen]: cursor home, clear the screen,
    clear the scrollback. *)
Definition clear_seq : list Z :=
  [27] ++ chars "[H" ++ [27] ++ chars "[2J" ++ [27] ++ chars "[3J".

(** [void clear_screen(Terminal* term)] *)
Definition clear_screen (term : Terminal) : M unit :=
  writestr (tty term) clear_seq.

(** [void restore_terminal_mode(Terminal* term)].  Here and below
    [tcsetattr] and [tcgetattr] are taken to succeed; the code drops their
    results. *)
Definition restore_terminal_mode (term : Terminal) : M unit :=
  fun w => Ret tt (set_attr (original term) w).

(** [void set_terminal_mode(Terminal* term)]: the terminal as the call leaves
    it, with [original] captured. *)
Definition set_terminal_mode (term : Terminal) : M Terminal :=
  fun w =>
    let term' := {| tty := tty term; height := height term; original := tty_attr w |} in
    let termios_new := cfmakeraw (original term') in
    Ret term' (set_attr termios_new w).

(** [int getch(Terminal* term)] *)
Definition getch (term : Terminal) : M Z :=
  fun w =>
    match tty_in w with
    | [] => Blocked w
    | rd :: rest =>
        let w' := set_tty_in w rest in
        match rd with
        | ReadError => ERROR_EXIT "tty input error" w'
        | ReadChar r => Ret (Z.land r 255) w'
        | ReadEOF r => Ret (Z.land r 255) w'
        end
    end.

(** ** Drawing *)

(** The output loop of [draw]: [n] is the number of iterations the test
    [i < e->matches_len] still allows. *)
Fixpoint draw_lines (n : nat) (i j : Z) (term : Terminal) (inp : Input)
    (e : Entries) : M unit :=
  match n with
  | O => M_ret tt
  | S n' =>
      let j := j + 1 in
      if j =? height term - 1 then M_ret tt
      else
        let* m := access (arr_get (matches e) i) in
        let* p := access (arr_get (entries e) m) in
        let* str := access (entry_str inp p) in
        let* _ := writestr (tty term) str in
        let* _ := writestr (tty term) (if i =? selected e then chars " (*)" else []) in
        let* _ := writestr (tty term) [NL] in
        draw_lines n' (i + 1) j term inp e
  end.

(** [void draw(Terminal* term, Entries* e, char* pattern, Arena scratch)] *)
Definition draw (term : Terminal) (inp : Input) (e : Entries) (pattern : list Z)
    (scratch : Arena) : M Entries :=
  let* e := update_matches inp e pattern scratch in
  let e := set_selected_clamped e (selected e) in
  let* _ := clear_screen term in
  let* _ := writestr (tty term) (chars ">") in
  let* _ := writestr (tty term) pattern in
  let* _ := writestr (tty term) [NL] in
  let i := if selected e >? height term - 3
           then selected e - (height term - 3) else 0 in
  let* _ := draw_lines (Z.to_nat (matches_len e - i)) i 0 term inp e in
  M_ret e.

(** [bool ch_isvalid(char ch)], with the conversion of its [int] argument. *)
Definition ch_isvalid (ch : Z) : bool :=
  let ch := char_of_int ch in (ch >=? 32) && (ch <=? 126).

Definition with_selected (e : Entries) (n : Z) : Entries :=
  {| entries := entries e; matches := matches e;
     entries_len := entries_len e; matches_len := matches_len e;
     selected := n |}.

(** [void select_next(Entries* e)] *)
Definition select_next (e : Entries) : Entries :=
  let e := with_selected e (selected e - 1) in
  set_selected_clamped e (selected e).

(** [void select_prev(Entries* e)] *)
Definition select_prev (e : Entries) : Entries :=
  let e := with_selected e (selected e + 1) in
  set_selected_clamped e (selected e).

(** [Terminal* get_terminal(Arena* arena)].  [term->height] receives an
    [unsigned short], whatever the ioctl did. *)
Definition get_terminal (env : Env) (arena : Arena) : M (Terminal * Arena) :=
  let* (_, arena) := alloc arena sizeof_Terminal 1 in
  let fd := open_result env in
  if fd =? -1 then ERROR_EXIT "could not open /dev/tty"
  else M_ret ({| tty := fd; height := ws_row env mod 2 ^ 16;
                 original := termios_zero |}, arena).

(** ** [main] *)

(** The locals of [main] while the loop runs.  [selected_entry] is [None]
    for [NULL]. *)
Record Loop := {
  l_arena : Arena;
  l_entries : Entries;
  l_input : Input;
  l_term : Terminal;
  l_pattern : list Z;
  l_pattern_len : Z;
  l_selected_entry : option Z
}.

Inductive ctl :=
| Continue (st : Loop)    (* back to the head of [while (1)] *)
| GotoEnd (st : Loop).    (* [goto end] *)

(** Lines 344 to 346, reached by every branch that neither leaves the loop
    nor executes [continue]. *)
Definition redraw (st : Loop) : M ctl :=
  let* _ := restore_terminal_mode (l_term st) in
  let* pattern :=
    (if l_pattern_len st =? 0 then M_ret [] else access (cstr (l_pattern st))) in
  let* e := draw (l_term st) (l_input st) (l_entries st) pattern (l_arena st) in
  let* term := set_terminal_mode (l_term st) in
  M_ret (Continue
    {| l_arena := l_arena st; l_entries := e; l_input := l_input st;
       l_term := term; l_pattern := l_pattern st;
       l_pattern_len := l_pattern_len st;
       l_selected_entry := l_selected_entry st |}).

Definition with_entries (st : Loop) (e : Entries) : Loop :=
  {| l_arena := l_arena st; l_entries := e; l_input := l_input st;
     l_term := l_term st; l_pattern := l_pattern st;
     l_pattern_len := l_pattern_len st;
     l_selected_entry := l_selected_entry st |}.

Definition with_pattern (st : Loop) (pattern : list Z) (pattern_len : Z) : Loop :=
  {| l_arena := l_arena st; l_entries := l_entries st; l_input := l_input st;
     l_term := l_term st; l_pattern := pattern;
     l_pattern_len := pattern_len;
     l_selected_entry := l_selected_entry st |}.

Definition with_selected_entry (st : Loop) (p : option Z) : Loop :=
  {| l_arena := l_arena st; l_entries := l_entries st; l_input := l_input st;
     l_term := l_term st; l_pattern := l_pattern st;
     l_pattern_len := l_pattern_len st;
     l_selected_entry := p |}.

(** One iteration of [while (1)], lines 312 to 346. *)
Definition loop_body (st : Loop) : M ctl :=
  let* ch := getch (l_term st) in
  if KEY_ENTER =? ch then
    if matches_len (l_entries st) >? 0 then
      let* i := access (arr_get (matches (l_entries st)) (selected (l_entries st))) in
      let* p := access (arr_get (entries (l_entries st)) i) in
      M_ret (GotoEnd (with_selected_entry st (Some p)))
    else M_ret (GotoEnd st)
  else if KEY_CTRLC =? ch then M_ret (GotoEnd st)
  else if KEY_BACKSPACE =? ch then
    let pattern_len :=
      if l_pattern_len st - 1 >? -1 then l_pattern_len st - 1 else l_pattern_len st in
    let* pattern := access (arr_set (l_pattern st) pattern_len 0) in
    redraw (with_pattern st pattern pattern_len)
  else if KEY_ESCAPE0 =? ch then
    let* ch := getch (l_term st) in
    if KEY_ESCAPE1 =? ch then
      let* k := getch (l_term st) in
      if k =? KEY_UP then redraw (with_entries st (select_next (l_entries st)))
      else if k =? KEY_DOWN then redraw (with_entries st (select_prev (l_entries st)))
      else redraw st
    else redraw st
  else
    if ch_isvalid ch then
      let* pattern := access (arr_set (l_pattern st) (l_pattern_len st) (char_of_int ch)) in
      let pattern_len := l_pattern_len st + 1 in
      if pattern_len >=? PATTERN_MAX - 1 then ERROR_EXIT "pattern too long"
      else
        let* pattern := access (arr_set pattern pattern_len 0) in
        redraw (with_pattern st pattern pattern_len)
    else M_ret (Continue st).

(** [while (1)]: the state at the label [end].  Every iteration consumes a
    terminal read, so [fuel] beyond the number of pending reads is never
    used up (see [main_loop_outcome]). *)
Fixpoint main_loop (fuel : nat) (st : Loop) : M Loop :=
  match fuel with
  | O => fun _ => OutOfFuel
  | S fuel' =>
      let* c := loop_body st in
      match c with
      | Continue st' => main_loop fuel' st'
      | GotoEnd st' => M_ret st'
      end
  end.

(** Lines 295 to 300: the arena, of [MEMORY_MAX] bytes where [malloc] put
    it, or empty at address 16 when [malloc] failed. *)
Definition main_arena (env : Env) : Arena :=
  if malloc_result env =? 0 then {| beg := 16; end_ := 16 |}
  else {| beg := malloc_result env; end_ := malloc_result env + MEMORY_MAX |}.

(** Lines 302 to 310: everything else before the loop. *)
Definition main_init (env : Env) : M Loop :=
  let arena := main_arena env in
  let* (e, inp, arena) := read_entries env arena in
  let* (term, arena) := get_terminal env arena in
  let* e := draw term inp e [] arena in
  let* term := set_terminal_mode term in
  let* (p_pattern, arena) := alloc arena sizeof_char PATTERN_MAX in
  let pattern := fresh env p_pattern sizeof_char PATTERN_MAX in
  M_ret {| l_arena := arena; l_entries := e; l_input := inp; l_term := term;
           l_pattern := pattern; l_pattern_len := 0; l_selected_entry := None |}.

(** Lines 349 to 356: from the label [end] to [return EXIT_SUCCESS]. *)
Definition main_end (st : Loop) : M Z :=
  let* _ := restore_terminal_mode (l_term st) in
  let* _ :=
    match l_selected_entry st with
    | Some p =>
        let* str := access (entry_str (l_input st) p) in
        let* _ := writestr_out str in
        M_ret tt
    | None => M_ret tt
    end in
  M_ret EXIT_SUCCESS.

(** [int main(void)]: its return value is the exit status. *)
Definition main (env : Env) : M Z :=
  fun w =>
    (let* st := main_init env in
     let* st := main_loop (S (length (tty_in w))) st in
     main_end st) w.

(** [n] iterations of the loop: the state at the head of the loop after
    them, or at [end] when one of them left the loop. *)
Fixpoint loop_n (n : nat) (st : Loop) : M ctl :=
  match n with
  | O => M_ret (Continue st)
  | S n' =>
      let* c := loop_body st in
      match c with
      | Continue st' => loop_n n' st'
      | GotoEnd st' => M_ret (GotoEnd st')
      end
  end.

(** The program from its start through [n] iterations of the loop. *)
Definition run (env : Env) (n : nat) : M ctl :=
  let* st := main_init env in loop_n n st.

(** ** The specification's vocabulary *)

(** Case folding as the specification words it: the ASCII letters ['A'] to
    ['Z'] go to lowercase, every other byte stays. *)
Definition fold_case (c : Z) : Z :=
  if (65 <=? c) && (c <=? 90) then c + 32 else c.

(** The matcher as the specification words it: both strings in lockstep from
    index 0; an exhausted pattern succeeds, a candidate exhausted first
    fails, characters that differ after folding fail. *)
Fixpoint spec_match (pattern candidate : list Z) : bool :=
  match pattern, candidate with
  | [], _ => true
  | _ :: _, [] => false
  | p :: pattern', c :: candidate' =>
      (fold_case p =? fold_case c) && spec_match pattern' candidate'
  end.

(** What [is_match] computes: the same lockstep walk, with the candidate
    folded and the pattern taken as it is. *)
Fixpoint lockstep_match (pattern candidate : list Z) : bool :=
  match pattern, candidate with
  | [], _ => true
  | _ :: _, [] => false
  | p :: pattern', c :: candidate' =>
      (p =? fold_case c) && lockstep_match pattern' candidate'
  end.

(** A character of a string: not the terminator, and a [char]. *)
Definition is_char (c : Z) : Prop := c <> 0 /\ -128 <= c < 128.

(** The delimiter bytes of the specification: NUL, ['\n'], ['\r']. *)
Definition delimiter (c : Z) : bool := existsb (Z.eqb c) [0; 10; 13].

(** The input split at every delimiter byte: [k] delimiters give [k + 1]
    fields, empty ones included. *)
Fixpoint fields (input : list Z) : list (list Z) :=
  match input with
  | [] => [[]]
  | c :: rest =>
      if delimiter c then [] :: fields rest
      else match fields rest with
           | f :: fs => (c :: f) :: fs
           | [] => [[c]]
           end
  end.

Definition nonempty (f : list Z) : bool :=
  match f with [] => false | _ :: _ => true end.

(** The maximal non-empty runs between delimiter bytes, in input order. *)
Definition runs (input : list Z) : list (list Z) :=
  List.filter nonempty (fields input).

(** The runs that a delimiter closes, given the run [cur] in progress: the
    shape both loops of [read_entries] follow. *)
Fixpoint closed_runs (cur input : list Z) : list (list Z) :=
  match input with
  | [] => []
  | c :: rest =>
      if is_delim c then
        (if nonempty cur then [cur] else []) ++ closed_runs [] rest
      else closed_runs (cur ++ [c]) rest
  end.

(** The fields of an input that continues the run [cur]. *)
Definition prepend (cur : list Z) (fs : list (list Z)) : list (list Z) :=
  match fs with
  | f :: fs' => (cur ++ f) :: fs'
  | [] => [cur]
  end.

(** The indices from [i] on, [n] of them, whose entry [pattern] matches. *)
Fixpoint match_indices (n : nat) (i : Z) (inp : Input) (pattern : list Z)
    (ents : list Z) : list Z :=
  match n with
  | O => []
  | S n' =>
      let rest := match_indices n' (i + 1) inp pattern ents in
      match arr_get ents i ≫= entry_str inp with
      | Some str => if is_match pattern str then i :: rest else rest
      | None => rest
      end
  end.

(** ** Invariants *)

(** Strictly increasing, with every element in [0, bound). *)
Definition increasing_below (bound : Z) (l : list Z) : Prop :=
  StronglySorted Z.lt l /\ Forall (fun i => 0 <= i < bound) l.

(** The part of the [matches] array in use. *)
Definition live_matches (e : Entries) : list Z :=
  take (Z.to_nat (matches_len e)) (matches e).

(** The two arrays have [entries_len] items and every entry points at a
    string of the input buffer. *)
Definition entries_wf (inp : Input) (e : Entries) : Prop :=
  Z.of_nat (length (entries e)) = entries_len e /\
  Z.of_nat (length (matches e)) = entries_len e /\
  Forall (fun p => is_Some (entry_str inp p)) (entries e).

Definition matches_ok (e : Entries) : Prop :=
  0 <= matches_len e <= entries_len e /\
  increasing_below (entries_len e) (live_matches e).

Definition selected_ok (e : Entries) : Prop :=
  matches_len e > 0 -> 0 <= selected e <= matches_len e - 1.

(** [e->matches] as [update_matches] leaves it for [pattern]. *)
Definition rematched (inp : Input) (pattern : list Z) (e : Entries) : Entries :=
  let found := match_indices (Z.to_nat (entries_len e)) 0 inp pattern (entries e) in
  {| entries := entries e;
     matches := found ++ drop (length found) (matches e);
     entries_len := entries_len e;
     matches_len := Z.of_nat (length found);
     selected := selected e |}.

(** The world after the diagnostic of a failed [alloc]. *)
Definition out_of_memory (w : World) : World :=
  write_fd 2 (chars "out of memory" ++ [NL]) w.

(** The pattern as the loop holds it: the first [pattern_len] characters of
    the buffer. *)
Definition pattern_str (st : Loop) : list Z :=
  take (Z.to_nat (l_pattern_len st)) (l_pattern st).

(** What holds of the locals of [main] from the first [set_terminal_mode]
    on; [w0] is the world the program started in. *)
Definition state_ok (w0 : World) (st : Loop) : Prop :=
  entries_wf (l_input st) (l_entries st) /\
  Z.of_nat (length (l_pattern st)) = PATTERN_MAX /\
  0 <= l_pattern_len st <= PATTERN_MAX - 2 /\
  l_pattern st !! Z.to_nat (l_pattern_len st) = Some 0 /\
  Forall (fun c => c <> 0) (pattern_str st) /\
  l_selected_entry st = None /\
  original (l_term st) = tty_attr w0.

(** The world while the loop waits for a key: the terminal is in raw mode
    and the standard streams are as they were, unless the terminal's
    descriptor is one of them. *)
Definition world_ok (w0 : World) (st : Loop) (w : World) : Prop :=
  tty_attr w = cfmakeraw (tty_attr w0) /\
  (tty (l_term st) <> 1 -> std_out w = std_out w0) /\
  (tty (l_term st) <> 2 -> std_err w = std_err w0).

(** The match table is the one of the current pattern and the selection is
    clamped. *)
Definition table_ok (st : Loop) : Prop :=
  rematched (l_input st) (pattern_str st) (l_entries st) = l_entries st /\
  selected_ok (l_entries st).

(** The invariant at the head of [while (1)]. *)
Definition loop_inv (w0 : World) (st : Loop) (w : World) : Prop :=
  state_ok w0 st /\ world_ok w0 st w /\ table_ok st.

(** The state a redraw leaves. *)
Definition redrawn (st : Loop) : Loop :=
  let e := rematched (l_input st) (pattern_str st) (l_entries st) in
  with_entries st (set_selected_clamped e (selected e)).

(** The world a redraw leaves, [lines] being the entry lines it wrote. *)
Definition after_redraw (st : Loop) (lines : list Z) (w : World) : World :=
  set_attr (cfmakeraw (original (l_term st)))
    (write_fd (tty (l_term st))
       (clear_seq ++ chars ">" ++ pattern_str st ++ [NL] ++ lines)
       (set_attr (original (l_term st)) w)).

(** No access outside an object, and the loop bound sufficed. *)
Definition safe {A} (o : outcome A) : Prop :=
  match o with
  | Fault | OutOfFuel => False
  | _ => True
  end.

(** The state at the label [end], reached from [st] at the head of the loop:
    either nothing is selected, or [selected_entry] is the string of
    [entries[matches[selected]]], both lookups in range. *)
Definition end_ok (st st' : Loop) : Prop :=
  st' = st \/
  exists i p str,
    matches_len (l_entries st) > 0 /\
    0 <= selected (l_entries st) < matches_len (l_entries st) /\
    arr_get (matches (l_entries st)) (selected (l_entries st)) = Some i /\
    0 <= i < entries_len (l_entries st) /\
    arr_get (entries (l_entries st)) i = Some p /\
    entry_str (l_input st) p = Some str /\
    st' = with_selected_entry st (Some p).

(** The world after the diagnostic of a pattern that grew too long. *)
Definition pattern_too_long (w : World) : World :=
  write_fd 2 (chars "pattern too long" ++ [NL]) w.

(** What the loop never changes: the arena, the terminal, the input buffer
    and the [entries] array. *)
Definition frame (st st' : Loop) : Prop :=
  l_arena st' = l_arena st /\
  l_term st' = l_term st /\
  l_input st' = l_input st /\
  entries (l_entries st') = entries (l_entries st) /\
  entries_len (l_entries st') = entries_len (l_entries st).

(** What one iteration of the loop may do from the state [st] and world [w]
    at its head: return to the head with the invariant and one read fewer to
    come, reach [end] in a state of [end_ok], end the process with a failure
    status, or block on the terminal. *)
Definition step_ok (w0 : World) (st : Loop) (w : World) (o : outcome ctl) : Prop :=
  match o with
  | Ret (Continue st') w' =>
      loop_inv w0 st' w' /\ frame st st' /\
      (length (tty_in w') < length (tty_in w))%nat
  | Ret (GotoEnd st') w' =>
      end_ok st st' /\ state_ok w0 st /\ world_ok w0 st w' /\
      (length (tty_in w') < length (tty_in w))%nat
  | Exit status w' => status = EXIT_FAILURE
  | Blocked w' => True
  | Fault | OutOfFuel => False
  end.


(** The printable ASCII characters, space to tilde. *)
Definition printable (c : Z) : Prop := 32 <= c <= 126.

(** The arena can hold the input, the two tables, the terminal, the
    pattern buffer and a scratch copy of any pattern; [malloc] and [open]
    succeeded. *)
Definition roomy (env : Env) (w0 : World) : Prop :=
  malloc_result env <> 0 /\ open_result env <> -1 /\
  sizeof_Entries + Z.of_nat (length (std_in w0)) + 1
    + (sizeof_ptr + sizeof_int) * Z.of_nat (length (runs (std_in w0)))
    + sizeof_Terminal + PATTERN_MAX + PATTERN_MAX <= MEMORY_MAX.

(** ** Sample data for the examples *)

Definition env_ex : Env :=
  {| malloc_result := 4096; open_result := 3; ws_row := 24; uninit := fun _ => 7 |}.

(** Attributes of a terminal in its usual line mode. *)
Definition cooked : termios := Termios 1280 5 191 35387 1 0.

Definition world_ex (input : list Z) (keys : list tty_read) : World :=
  {| tty_attr := cooked; tty_in := keys; tty_out := [];
     std_in := input; std_out := []; std_err := []; out_dev := [] |}.

(** Three lines, [Apple], [banana] and [Avocado], the last one unterminated
    and an empty line before it. *)
Definition fruit : list Z :=
  chars "Apple" ++ [10] ++ chars "banana" ++ [10; 13] ++ chars "Avocado".

(** The same world with a descriptor 1 whose coming writes take [dev]. *)
Definition world_dev (input : list Z) (keys : list tty_read) (dev : list Z)
    : World :=
  {| tty_attr := cooked; tty_in := keys; tty_out := [];
     std_in := input; std_out := []; std_err := []; out_dev := dev |}.

(** The state and the world an outcome carries, for the examples. *)
Definition no_loop : Loop :=
  {| l_arena := {| beg := 0; end_ := 0 |};
     l_entries := {| entries := []; matches := []; entries_len := 0;
                     matches_len := 0; selected := 0 |};
     l_input := {| input_base := 0; input_bytes := [] |};
     l_term := {| tty := 0; height := 0; original := termios_zero |};
     l_pattern := []; l_pattern_len := 0; l_selected_entry := None |}.

Definition state_of (o : outcome ctl) : Loop :=
  match o with
  | Ret (Continue st) _ | Ret (GotoEnd st) _ => st
  | _ => no_loop
  end.

Definition world_of {A} (o : outcome A) : World :=
  match o with
  | Ret _ w | Exit _ w | Blocked w => w
  | _ => world_ex [] []
  end.

(** The user types [a], then presses the Down arrow. *)
Definition keys_a_down : list tty_read :=
  [ReadChar 97; ReadChar 27; ReadChar 91; ReadChar 66].

(** A small table by hand: one entry, [ab], at the start of a buffer at
    address 64, and a terminal of 24 rows on descriptor 3. *)
Definition inp_ab : Input := {| input_base := 64; input_bytes := chars "ab" ++ [0] |}.

Definition e_ab : Entries :=
  {| entries := [64]; matches := [5]; entries_len := 1; matches_len := 0;
     selected := 0 |}.

Definition term_ex : Terminal := {| tty := 3; height := 24; original := cooked |}.

(** ** The screen *)

(** The line [draw] writes for the match at position [k]: the string of the
    entry, the mark on the selected one, a line feed. *)
Definition draw_line (inp : Input) (e : Entries) (k : Z) : option (list Z) :=
  m ← arr_get (matches e) k;
  p ← arr_get (entries e) m;
  str ← entry_str inp p;
  Some (str ++ (if k =? selected e then chars " (*)" else []) ++ [NL]).

(** The position of the first match [draw] shows (lines 237 to 241). *)
Definition first_shown (term : Terminal) (e : Entries) : Z :=
  if selected e >? height term - 3 then selected e - (height term - 3) else 0.

(** How many matches [draw] shows: those from [first_shown] on, and no more
    than [height - 2] on a terminal of two rows or more (on a smaller one the
    test of line 244 never holds). *)
Definition shown_count (term : Terminal) (e : Entries) : Z :=
  let left := Z.max 0 (matches_len e - first_shown term e) in
  if 1 <? height term then Z.min left (height term - 2) else left.

(** ** What a computation leaves of the world *)

(** A property of an outcome, by the way the computation ended. *)
Definition sat {A} (o : outcome A) (Q : A -> World -> Prop)
    (X B : World -> Prop) : Prop :=
  match o with
  | Ret a w' => Q a w'
  | Exit _ w' => X w'
  | Blocked w' => B w'
  | Fault | OutOfFuel => True
  end.

(** From [w] to [w'] terminal reads were consumed, at most, and the standard
    streams are as they were, unless the terminal [fd] is one of them; no
    write of the result took place. *)
Definition quiet (fd : Z) (w w' : World) : Prop :=
  tty_in w' `suffix_of` tty_in w /\
  (fd <> 1 -> std_out w' = std_out w) /\
  (fd <> 2 -> std_err w' = std_err w) /\
  out_dev w' = out_dev w.

(** The messages of the four [ERROR_EXIT] of the program. *)
Definition diagnostics : list string :=
  ["out of memory"%string; "could not open /dev/tty"%string;
   "tty input error"%string; "pattern too long"%string].

(** From [w] to [w'] one diagnostic line went to descriptor 2 and nothing to
    descriptor 1, unless the terminal [fd] is one of them. *)
Definition failed (fd : Z) (w w' : World) : Prop :=
  (fd <> 1 -> std_out w' = std_out w) /\
  (fd <> 2 ->
   exists msg, In msg diagnostics /\ std_err w' = std_err w ++ chars msg ++ [NL]).

(** The computation waits for a terminal read that does not come. *)
Definition blocked (fd : Z) (w w' : World) : Prop :=
  quiet fd w w' /\ tty_in w' = [].

(** Whatever the world [c] starts in: a return is [quiet] with a result in
    [P], an [exit] is [failed], a wait for ever on the terminal is
    [blocked]. *)
Definition framed {A} (fd : Z) (c : M A) (P : A -> Prop) : Prop :=
  forall w,
    sat (c w) (fun a w' => quiet fd w w' /\ P a) (failed fd w) (blocked fd w).

(** The reads that make the loop of [main] go to [end]: Enter and Ctrl-C. *)
Definition leaves_loop (rd : tty_read) : bool :=
  match rd with
  | ReadChar r | ReadEOF r =>
      (KEY_ENTER =? Z.land r 255) || (KEY_CTRLC =? Z.land r 255)
  | ReadError => false
  end.

(** The terminal descriptor the locals of [main] hold at a point of control. *)
Definition ctl_tty (c : ctl) : Z :=
  match c with Continue st | GotoEnd st => tty (l_term st) end.

(** * Properties *)

(** ** Characters *)

Lemma char_of_int_id c : -128 <= c < 128 -> char_of_int c = c.
Proof.
  intros Hc. unfold char_of_int.
  destruct (Z.ltb_spec (c mod 256) 128) as [Hlt | Hge].
  - destruct (Z.le_gt_cases 0 c) as [Hpos | Hneg].
    + apply Z.mod_small. lia.
    + exfalso. replace c with (c + 1 * 256 - 256) in Hlt by lia.
      replace (c + 1 * 256 - 256) with ((c + 256) + (-1) * 256) in Hlt by lia.
      rewrite Z.mod_add in Hlt by lia. rewrite Z.mod_small in Hlt; lia.
  - destruct (Z.le_gt_cases 0 c) as [Hpos | Hneg].
    + rewrite Z.mod_small in Hge; lia.
    + replace c with ((c + 256) + (-1) * 256) at 1 by lia.
      rewrite Z.mod_add by lia. rewrite Z.mod_small; lia.
Qed.

Lemma xtolower_fold c : -128 <= c < 128 -> xtolower c = fold_case c.
Proof.
  intros Hc. unfold xtolower, fold_case, to_unsigned.
  destruct (Z.le_gt_cases 0 c) as [Hpos | Hneg].
  - rewrite (Z.mod_small c) by lia.
    destruct (Z.le_gt_cases 65 c) as [H65 | H65].
    + rewrite (Z.mod_small (c - 65)) by lia.
      destruct (Z.ltb_spec (c - 65) 26), (Z.leb_spec 65 c), (Z.leb_spec c 90);
        simpl; try lia.
      rewrite char_of_int_id by lia. lia.
    + replace (c - 65) with ((c - 65 + 2 ^ 32) + (-1) * 2 ^ 32) by lia.
      rewrite Z.mod_add by lia. rewrite (Z.mod_small (c - 65 + 2 ^ 32)) by lia.
      destruct (Z.ltb_spec (c - 65 + 2 ^ 32) 26), (Z.leb_spec 65 c); simpl; lia.
  - replace c with ((c + 2 ^ 32) + (-1) * 2 ^ 32) at 1 by lia.
    rewrite Z.mod_add by lia. rewrite (Z.mod_small (c + 2 ^ 32)) by lia.
    rewrite (Z.mod_small (c + 2 ^ 32 - 65)) by lia.
    destruct (Z.ltb_spec (c + 2 ^ 32 - 65) 26), (Z.leb_spec 65 c); simpl; lia.
Qed.

(** ** Matcher *)

Lemma xtolower_0 : xtolower 0 = 0.
Proof. reflexivity. Qed.

Lemma is_match_while_lockstep pattern :
  forall str,
    pattern <> [] ->
    Forall (fun c => c <> 0) pattern ->
    Forall is_char str ->
    is_match_while pattern str = lockstep_match pattern str.
Proof.
  induction pattern as [| a pattern IH]; intros str Hne Hp Hs; [congruence |].
  inversion Hp as [| ? ? Ha Hp']; subst.
  destruct str as [| b str]; simpl.
  - rewrite xtolower_0. destruct (Z.eqb_spec a 0); [contradiction | reflexivity].
  - inversion Hs as [| ? ? [Hb Hbr] Hs']; subst.
    rewrite (xtolower_fold b Hbr).
    destruct (Z.eqb_spec a (fold_case b)) as [Heq | Hneq]; simpl; [| reflexivity].
    destruct pattern as [| a' pattern]; [reflexivity |].
    inversion Hp' as [| ? ? Ha' ?]; subst.
    cbn [deref List.hd List.tl].
    destruct (Z.eqb_spec a' 0); [contradiction |].
    destruct str as [| b' str]; [reflexivity |].
    inversion Hs' as [| ? ? [Hb' ?] ?]; subst.
    cbn [deref List.hd List.tl].
    destruct (Z.eqb_spec b' 0); [contradiction |].
    apply IH; [congruence | assumption | assumption].
Qed.

(** [is_match] is the lockstep walk that folds the candidate only. *)
Lemma is_match_lockstep pattern str :
  Forall (fun c => c <> 0) pattern ->
  Forall is_char str ->
  is_match pattern str = lockstep_match pattern str.
Proof.
  intros Hp Hs. unfold is_match.
  destruct pattern as [| a pattern]; [reflexivity |].
  inversion Hp; subst. simpl deref.
  destruct (Z.eqb_spec a 0); [contradiction |].
  apply is_match_while_lockstep; [congruence | assumption | assumption].
Qed.

(** On a pattern that folding leaves alone (no ['A'] to ['Z'] in it), the
    walk of [is_match] is the specification's. *)
Lemma lockstep_spec_match pattern :
  forall str,
    Forall (fun c => fold_case c = c) pattern ->
    lockstep_match pattern str = spec_match pattern str.
Proof.
  induction pattern as [| a pattern IH]; intros str Hp; [reflexivity |].
  inversion Hp as [| ? ? Ha Hp']; subst.
  destruct str as [| b str]; simpl; [reflexivity |].
  rewrite Ha, IH by assumption. reflexivity.
Qed.

Lemma is_match_empty_pattern str : is_match [] str = true.
Proof. reflexivity. Qed.

Lemma is_match_ab_ABC : is_match (chars "ab") (chars "ABC") = true.
Proof. reflexivity. Qed.

Lemma is_match_ac_ABC : is_match (chars "ac") (chars "ABC") = false.
Proof. reflexivity. Qed.

(** C1 (fails on the code): the specification folds both strings, so the
    pattern [A] matches the candidate [Apple]; [is_match] folds the candidate
    only and rejects it, and with the fruit list on screen typing [A] leaves
    no match.  The three examples the claim lists do hold
    ([is_match_empty_pattern], [is_match_ab_ABC], [is_match_ac_ABC]). *)
Theorem is_match_uppercase_pattern :
  spec_match (chars "A") (chars "Apple") = true /\
  is_match (chars "A") (chars "Apple") = false /\
  matches_len (l_entries (state_of (run env_ex 1 (world_ex fruit [ReadChar 65])))) = 0.
Proof. vm_compute. repeat split; reflexivity. Qed.

(** ** Arena *)

Lemma alloc_ok arena size count w :
  0 < size -> 0 <= count ->
  count <= Z.quot (end_ arena - beg arena) size ->
  alloc arena size count w =
    Ret (end_ arena - size * count,
         {| beg := beg arena; end_ := end_ arena - size * count |}) w.
Proof.
  intros Hs Hc Hq. unfold alloc.
  destruct (Z.gtb_spec count (Z.quot (end_ arena - beg arena) size)); [lia |].
  reflexivity.
Qed.

Lemma quot_fits avail size count :
  0 < size -> 0 <= count -> size * count <= avail ->
  count <= Z.quot avail size.
Proof.
  intros Hs Hc Hle.
  rewrite Z.quot_div_nonneg by nia.
  apply Z.div_le_lower_bound; lia.
Qed.

Lemma fits_quot avail size count :
  0 < size -> 0 < count -> count <= Z.quot avail size ->
  size * count <= avail.
Proof.
  intros Hs Hc Hq.
  destruct (Z.le_gt_cases 0 avail) as [Hpos | Hneg].
  - rewrite Z.quot_div_nonneg in Hq by lia.
    pose proof (Z.mul_div_le avail size Hs). nia.
  - exfalso.
    pose proof (Z.quot_opp_l avail size ltac:(lia)) as Ho.
    assert (0 <= Z.quot (- avail) size) by (apply Z.quot_pos; lia).
    lia.
Qed.

Lemma alloc_raw_alloc h arena size count w :
  alloc arena size count w =
  (let* r := alloc_raw h arena size count in M_ret (r.1.1, r.1.2)) w.
Proof.
  unfold alloc, alloc_raw, M_bind. destruct (_ >? _); reflexivity.
Qed.

(** C2 (as the code has it): a request with [size > 0] and [count > 0] that
    passes the capacity check returns the new top of the arena, moves the top
    cursor down by exactly [size * count] bytes and leaves the low cursor
    alone; the request fits in the arena; the [size] bytes of the first item
    are zero and no other byte of memory has changed. *)
Theorem alloc_first_item_zeroed h arena size count w :
  0 < size -> 0 < count ->
  count <= Z.quot (end_ arena - beg arena) size ->
  exists ptr arena' h',
    alloc_raw h arena size count w = Ret (ptr, arena', h') w /\
    ptr = end_ arena' /\
    end_ arena' = end_ arena - size * count /\
    beg arena' = beg arena /\
    beg arena <= end_ arena' /\
    (forall a, ptr <= a < ptr + size -> h' a = 0) /\
    (forall a, ~ ptr <= a < ptr + size -> h' a = h a).
Proof.
  intros Hs Hc Hq.
  exists (end_ arena - size * count),
    {| beg := beg arena; end_ := end_ arena - size * count |},
    (memset h (end_ arena - size * count) 0 size).
  split.
  { unfold alloc_raw.
    destruct (Z.gtb_spec count (Z.quot (end_ arena - beg arena) size)); [lia |].
    destruct (Z.eqb_spec count 0); [lia | reflexivity]. }
  simpl. repeat split; try reflexivity.
  - pose proof (fits_quot _ _ _ Hs Hc Hq). lia.
  - intros a Ha. unfold memset.
    destruct (Z.leb_spec (end_ arena - size * count) a),
      (Z.ltb_spec a (end_ arena - size * count + size)); simpl; lia.
  - intros a Ha. unfold memset.
    destruct (Z.leb_spec (end_ arena - size * count) a),
      (Z.ltb_spec a (end_ arena - size * count + size)); simpl; lia.
Qed.

Lemma alloc_first_item_zeroed_witness :
  exists ptr arena' h',
    alloc_raw (fun _ => 1) {| beg := 0; end_ := 16 |} 4 2 (world_ex [] []) =
      Ret (ptr, arena', h') (world_ex [] []) /\
    ptr = end_ arena' /\
    end_ arena' = 16 - 4 * 2 /\
    beg arena' = 0 /\
    0 <= end_ arena' /\
    (forall a, ptr <= a < ptr + 4 -> h' a = 0) /\
    (forall a, ~ ptr <= a < ptr + 4 -> h' a = 1).
Proof.
  apply (alloc_first_item_zeroed (fun _ => 1) {| beg := 0; end_ := 16 |} 4 2
           (world_ex [] [])).
  - lia.
  - lia.
  - vm_compute. discriminate.
Defined.

(** C2 as the specification states it does not hold: with two one-byte items
    carved from memory that holds ones, the second byte of the storage is
    not zero. *)
Lemma alloc_second_item_not_zeroed :
  ~ (forall h arena size count w ptr arena' h' a,
       0 < size -> 0 < count ->
       alloc_raw h arena size count w = Ret (ptr, arena', h') w ->
       ptr <= a < ptr + size * count ->
       h' a = 0).
Proof.
  intros H.
  specialize (H (fun _ => 1) {| beg := 0; end_ := 16 |} 1 2 (world_ex [] [])
                14 {| beg := 0; end_ := 14 |} (memset (fun _ => 1) 14 0 1) 15).
  assert (Hv : memset (fun _ => 1) 14 0 1 15 = 0).
  { apply H; [lia | lia | reflexivity | lia]. }
  vm_compute in Hv. discriminate.
Qed.

(** ** Terminal reads *)

Lemma getch_cases term w :
  match tty_in w with
  | [] => getch term w = Blocked w
  | ReadChar r :: rest => getch term w = Ret (Z.land r 255) (set_tty_in w rest)
  | ReadEOF r :: rest => getch term w = Ret (Z.land r 255) (set_tty_in w rest)
  | ReadError :: rest =>
      getch term w =
        Exit EXIT_FAILURE
          (write_fd 2 (chars "tty input error" ++ [NL]) (set_tty_in w rest))
  end.
Proof. unfold getch. destruct (tty_in w) as [| [r | r |] rest]; reflexivity. Qed.

(** C10: [getch] ends the process, with the diagnostic [tty input error] and
    a failure status, exactly when the one-byte read returns -1.  A read that
    returns 0 is not an error: [getch] returns, with the low byte of whatever
    its local [r] held. *)
Theorem getch_fatal_only_on_error term w rd rest :
  tty_in w = rd :: rest ->
  ((exists status w', getch term w = Exit status w') <-> rd = ReadError) /\
  (rd = ReadError ->
     exists w', getch term w = Exit EXIT_FAILURE w' /\
       std_err w' = std_err w ++ chars "tty input error" ++ [NL]) /\
  (forall r, rd = ReadEOF r ->
     exists w', getch term w = Ret (Z.land r 255) w' /\ tty_in w' = rest /\
       std_err w' = std_err w).
Proof.
  intros Hin. pose proof (getch_cases term w) as Hg. rewrite Hin in Hg.
  split; [split |].
  - intros (status & w' & He). destruct rd; [congruence | congruence | reflexivity].
  - intros ->. eauto.
  - split.
    + intros ->. eexists. split; [exact Hg |]. reflexivity.
    + intros r ->. eexists. split; [exact Hg |]. split; reflexivity.
Qed.

Lemma getch_fatal_only_on_error_witness :
  ((exists status w', getch {| tty := 3; height := 24; original := cooked |}
                        (world_ex [] [ReadEOF 65; ReadChar 13]) = Exit status w')
   <-> ReadEOF 65 = ReadError) /\
  (ReadEOF 65 = ReadError ->
     exists w', getch {| tty := 3; height := 24; original := cooked |}
                  (world_ex [] [ReadEOF 65; ReadChar 13]) = Exit EXIT_FAILURE w' /\
       std_err w' = [] ++ chars "tty input error" ++ [NL]) /\
  (forall r, ReadEOF 65 = ReadEOF r ->
     exists w', getch {| tty := 3; height := 24; original := cooked |}
                  (world_ex [] [ReadEOF 65; ReadChar 13]) = Ret (Z.land r 255) w' /\
       tty_in w' = [ReadChar 13] /\ std_err w' = []).
Proof.
  apply (getch_fatal_only_on_error {| tty := 3; height := 24; original := cooked |}
           (world_ex [] [ReadEOF 65; ReadChar 13]) (ReadEOF 65) [ReadChar 13]).
  reflexivity.
Defined.

(** ** Entry parsing *)

Lemma is_delim_delimiter c : is_delim c = delimiter c.
Proof.
  unfold is_delim, delimiter. simpl.
  rewrite orb_false_r, orb_assoc. reflexivity.
Qed.

Lemma is_delim_nonzero c : is_delim c = false -> c <> 0.
Proof. intros H ->. discriminate. Qed.

Lemma nonempty_length (cur : list Z) :
  (Z.of_nat (length cur) >? 0) = nonempty cur.
Proof. destruct cur; reflexivity. Qed.

Lemma count_lines_closed_runs input :
  forall n cur,
    count_lines input n (Z.of_nat (length cur)) =
    n + Z.of_nat (length (closed_runs cur input)).
Proof.
  induction input as [| c rest IH]; intros n cur; simpl.
  - lia.
  - destruct (is_delim c).
    + rewrite nonempty_length. rewrite (IH _ []).
      rewrite length_app. destruct (nonempty cur); simpl; lia.
    + replace (Z.of_nat (length cur) + 1) with (Z.of_nat (length (cur ++ [c])))
        by (rewrite length_app; simpl; lia).
      apply IH.
Qed.

Lemma fields_cons input : exists f fs, fields input = f :: fs.
Proof.
  induction input as [| c rest [f [fs IH]]]; simpl; [eauto |].
  destruct (delimiter c); [eauto |]. rewrite IH. eauto.
Qed.

Lemma nonempty_app cur f : nonempty (cur ++ f) = nonempty cur || nonempty f.
Proof. destruct cur; reflexivity. Qed.

Lemma closed_runs_fields input :
  forall cur,
    closed_runs cur (input ++ [NL]) =
    List.filter nonempty (prepend cur (fields input)).
Proof.
  induction input as [| c rest IH]; intros cur; simpl.
  - rewrite !app_nil_r. destruct (nonempty cur); reflexivity.
  - rewrite is_delim_delimiter. destruct (delimiter c); simpl.
    + rewrite !app_nil_r, IH.
      destruct (fields_cons rest) as (f & fs & ->). simpl.
      destruct (nonempty cur); reflexivity.
    + rewrite IH. destruct (fields_cons rest) as (f & fs & ->). simpl.
      rewrite <- app_assoc. reflexivity.
Qed.

(** The runs the loops of [read_entries] see in the buffer (the input and
    the line feed appended to it) are the runs of the input. *)
Lemma closed_runs_runs input : closed_runs [] (input ++ [NL]) = runs input.
Proof.
  rewrite closed_runs_fields. unfold runs.
  destruct (fields_cons input) as (f & fs & ->). reflexivity.
Qed.

Lemma runs_only_delimiters input :
  forallb delimiter input = true -> runs input = [].
Proof.
  unfold runs. induction input as [| c rest IH]; simpl; [reflexivity |].
  destruct (delimiter c); simpl; [exact IH | discriminate].
Qed.

Lemma cstr_app cur rest :
  Forall (fun c => c <> 0) cur -> cstr (cur ++ 0 :: rest) = Some cur.
Proof.
  induction 1 as [| c cur Hc _ IH]; simpl; [reflexivity |].
  destruct (Z.eqb_spec c 0); [contradiction |]. rewrite IH. reflexivity.
Qed.

Lemma cstr_at_app input pre cur rest :
  Forall (fun c => c <> 0) cur ->
  cstr_at input (pre ++ cur ++ 0 :: rest) (input + Z.of_nat (length pre)) = Some cur.
Proof.
  intros Hcur. unfold cstr_at.
  destruct (Z.ltb_spec (input + Z.of_nat (length pre)) input); [lia |].
  replace (Z.to_nat (input + Z.of_nat (length pre) - input)) with (length pre) by lia.
  rewrite drop_app_length. apply cstr_app, Hcur.
Qed.
Lemma chop_lines_spec rest :
  forall pre cur i ents input,
    Forall (fun c => is_delim c = false) cur ->
    (i + length (closed_runs cur rest) <= length ents)%nat ->
    exists buf' ents',
      chop_lines rest input (Z.of_nat (length pre + length cur))
        (Z.of_nat (length cur)) (Z.of_nat i) ents = Some (buf', ents') /\
      length buf' = length rest /\
      length ents' = length ents /\
      take i ents' = take i ents /\
      forall j r,
        closed_runs cur rest !! j = Some r ->
        exists p,
          ents' !! (i + j)%nat = Some p /\
          cstr_at input (pre ++ cur ++ buf') p = Some r.
Proof.
  induction rest as [| c rest IH]; intros pre cur i ents input Hcur Hlen.
  - exists [], ents. simpl. repeat split; try reflexivity.
    intros j r Hj. rewrite lookup_nil in Hj. discriminate.
  - simpl in Hlen |- *. destruct (is_delim c) eqn:Hc.
    + rewrite nonempty_length.
      destruct (nonempty cur) eqn:Hne.
      * simpl in Hlen.
        unfold arr_set.
        destruct (Z.leb_spec 0 (Z.of_nat i)); [| lia].
        destruct (Z.ltb_spec (Z.of_nat i) (Z.of_nat (length ents))); [| lia].
        simpl. rewrite Nat2Z.id.
        set (p := input + Z.of_nat (length pre + length cur) - Z.of_nat (length cur)).
        destruct (IH (pre ++ cur ++ [0]) [] (S i) (<[i:=p]> ents) input)
          as (buf' & ents' & Hchop & Hlb & Hle & Htake & Hruns).
        { constructor. }
        { rewrite length_insert. lia. }
        replace (Z.of_nat (length (pre ++ cur ++ [0]) + length (@nil Z)))
          with (Z.of_nat (length pre + length cur) + 1) in Hchop
          by (rewrite !length_app; simpl; lia).
        replace (Z.of_nat (S i)) with (Z.of_nat i + 1) in Hchop by lia.
        change (Z.of_nat (length (@nil Z))) with 0 in Hchop.
        rewrite Hchop. simpl.
        exists (0 :: buf'), ents'. repeat split.
        -- simpl. lia.
        -- rewrite Hle, length_insert. reflexivity.
        -- apply (f_equal (take i)) in Htake.
           rewrite !take_take in Htake.
           replace (i `min` S i)%nat with i in Htake by lia.
           rewrite Htake. apply take_insert_ge. lia.
        -- intros [| j] r Hj.
           ++ simpl in Hj. injection Hj as <-.
              exists p. split.
              ** rewrite Nat.add_0_r.
                 assert (Hl : ents' !! i = (<[i:=p]> ents) !! i).
                 { rewrite <- (lookup_take_lt ents' (S i) i) by lia.
                   rewrite Htake. apply lookup_take_lt. lia. }
                 rewrite Hl. apply list_lookup_insert_eq. lia.
              ** unfold p.
                 replace (input + Z.of_nat (length pre + length cur) - Z.of_nat (length cur))
                   with (input + Z.of_nat (length pre)) by lia.
                 apply cstr_at_app.
                 eapply Forall_impl; [exact Hcur |]. intros; simpl.
                 apply is_delim_nonzero. assumption.
           ++ simpl in Hj. destruct (Hruns j r Hj) as (q & Hq & Hs).
              exists q. split.
              ** replace (i + S j)%nat with (S i + j)%nat by lia. exact Hq.
              ** rewrite <- Hs. f_equal. rewrite <- !app_assoc. reflexivity.
      * destruct cur; [| discriminate]. simpl in Hlen |- *.
        destruct (IH (pre ++ [0]) [] i ents input)
          as (buf' & ents' & Hchop & Hlb & Hle & Htake & Hruns).
        { constructor. }
        { lia. }
        replace (Z.of_nat (length (pre ++ [0]) + length (@nil Z)))
          with (Z.of_nat (length pre + 0) + 1) in Hchop
          by (rewrite !length_app; simpl; lia).
        change (Z.of_nat (length (@nil Z))) with 0 in Hchop.
        rewrite Hchop. simpl.
        exists (0 :: buf'), ents'. repeat split; [simpl; lia | assumption | assumption |].
        intros j r Hj. destruct (Hruns j r Hj) as (q & Hq & Hs).
        exists q. split; [exact Hq |].
        rewrite <- Hs. f_equal. rewrite <- !app_assoc. reflexivity.
    + destruct (IH pre (cur ++ [c]) i ents input)
        as (buf' & ents' & Hchop & Hlb & Hle & Htake & Hruns).
      { apply Forall_app. split; [assumption |]. constructor; [assumption | constructor]. }
      { assumption. }
      replace (Z.of_nat (length pre + length (cur ++ [c])))
        with (Z.of_nat (length pre + length cur) + 1) in Hchop
        by (rewrite !length_app; simpl; lia).
      replace (Z.of_nat (length (cur ++ [c]))) with (Z.of_nat (length cur) + 1) in Hchop
        by (rewrite !length_app; simpl; lia).
      rewrite Hchop. simpl.
      exists (c :: buf'), ents'. repeat split; [simpl; lia | assumption | assumption |].
      intros j r Hj. destruct (Hruns j r Hj) as (q & Hq & Hs).
      exists q. split; [exact Hq |].
      rewrite <- Hs. f_equal. rewrite <- !app_assoc. reflexivity.
Qed.

(** ** Reasoning in [M] *)

Lemma bind_ret_inv {A B} (c : M A) (k : A -> M B) w b w' :
  M_bind c k w = Ret b w' ->
  exists a w1, c w = Ret a w1 /\ k a w1 = Ret b w'.
Proof.
  unfold M_bind. destruct (c w) as [a w1 | | | |]; try discriminate. eauto.
Qed.

Lemma bind_ret {A B} (c : M A) (k : A -> M B) w a w1 :
  c w = Ret a w1 -> M_bind c k w = k a w1.
Proof. unfold M_bind. intros ->. reflexivity. Qed.

Lemma access_ret_inv {A} (o : option A) w a w' :
  access o w = Ret a w' -> o = Some a /\ w' = w.
Proof. unfold access. destruct o; [| discriminate]. intros [= -> ->]. auto. Qed.

Lemma alloc_ret_inv arena size count w ptr arena' w' :
  alloc arena size count w = Ret (ptr, arena') w' ->
  w' = w /\ ptr = end_ arena - size * count /\
  arena' = {| beg := beg arena; end_ := end_ arena - size * count |} /\
  count <= Z.quot (end_ arena - beg arena) size.
Proof.
  unfold alloc.
  destruct (Z.gtb_spec count (Z.quot (end_ arena - beg arena) size)); [discriminate |].
  unfold M_ret. intros [= <- <- <-]. repeat split. lia.
Qed.

Lemma length_fresh env ptr size n : length (fresh env ptr size n) = Z.to_nat n.
Proof.
  unfold fresh. destruct (Z.to_nat n); [reflexivity |].
  simpl. rewrite length_map, length_seq. reflexivity.
Qed.

(** What a call of [read_entries] that returns has done, whatever the size
    of the arena: [data] is the part of standard input that was read. *)
Lemma read_entries_ret env arena w e inp arena' w' :
  read_entries env arena w = Ret (e, inp, arena') w' ->
  let data :=
    take (Z.to_nat (Z.min (end_ arena - sizeof_Entries - beg arena - 1)
                      (Z.of_nat (length (std_in w))))) (std_in w) in
  entries_len e = Z.of_nat (length (runs data)) /\
  length (entries e) = length (runs data) /\
  length (matches e) = length (runs data) /\
  matches_len e = 0 /\ selected e = 0 /\
  (forall i, entries e !! i ≫= entry_str inp = runs data !! i) /\
  tty_attr w' = tty_attr w /\ tty_in w' = tty_in w /\ tty_out w' = tty_out w /\
  std_out w' = std_out w /\ std_err w' = std_err w.
Proof.
  unfold read_entries. intros H.
  apply bind_ret_inv in H as ([p1 a1] & w1 & Ha1 & H).
  apply alloc_ret_inv in Ha1 as (-> & _ & -> & _). simpl in H.
  apply bind_ret_inv in H as (data & w2 & Hrd & H).
  unfold fullread in Hrd. injection Hrd as <- <-.
  apply bind_ret_inv in H as ([p2 a2] & w3 & Ha2 & H).
  apply alloc_ret_inv in Ha2 as (-> & _ & -> & _). simpl in H.
  apply bind_ret_inv in H as ([p3 a3] & w4 & Ha3 & H).
  apply alloc_ret_inv in Ha3 as (-> & _ & -> & _). simpl in H.
  apply bind_ret_inv in H as ([buf' ents'] & w5 & Hch & H).
  apply access_ret_inv in Hch as (Hch & ->).
  unfold M_ret in H. injection H as <- <- <- <-.
  replace (end_ arena - sizeof_Entries * 1 - beg arena - 1)
    with (end_ arena - sizeof_Entries - beg arena - 1) in * by lia.
  cbv zeta.
  set (data := take _ (std_in w)) in *.
  pose proof (count_lines_closed_runs (data ++ [NL]) 0 []) as Hcount.
  change (Z.of_nat (length (@nil Z))) with 0 in Hcount.
  rewrite Z.add_0_l, closed_runs_runs in Hcount.
  rewrite Hcount in *.
  destruct (chop_lines_spec (data ++ [NL]) [] [] 0
              (fresh env p2 sizeof_ptr (Z.of_nat (length (runs data))))
              (beg arena)) as (buf2 & ents2 & Hch2 & Hlb & Hle & _ & Hruns).
  { constructor. }
  { rewrite length_fresh, closed_runs_runs. lia. }
  change (Z.of_nat (length (@nil Z) + length (@nil Z))) with 0 in Hch2.
  change (Z.of_nat (length (@nil Z))) with 0 in Hch2.
  change (Z.of_nat 0) with 0 in Hch2.
  rewrite Hch in Hch2. injection Hch2 as <- <-.
  rewrite length_fresh, Nat2Z.id in Hle.
  simpl. repeat split; try assumption.
  - rewrite length_fresh. lia.
  - intros i. rewrite closed_runs_runs in Hruns.
    destruct (runs data !! i) as [r |] eqn:Hr.
    + destruct (Hruns i r Hr) as (p & Hp & Hs). simpl in Hp, Hs.
      rewrite Hp. simpl. exact Hs.
    + apply lookup_ge_None in Hr.
      rewrite (proj2 (lookup_ge_None ents' i)) by lia. reflexivity.
Qed.

Lemma fullread_all len w :
  Z.of_nat (length (std_in w)) <= len ->
  fullread len w =
    Ret (std_in w)
      {| tty_attr := tty_attr w; tty_in := tty_in w; tty_out := tty_out w;
         std_in := []; std_out := std_out w; std_err := std_err w;
         out_dev := out_dev w |}.
Proof.
  intros Hlen. unfold fullread.
  rewrite Z.min_r by lia. rewrite Nat2Z.id.
  rewrite take_ge, drop_ge by lia. reflexivity.
Qed.

(** A call of [read_entries] whose input and tables fit in the arena
    returns. *)
Lemma read_entries_fits env arena w :
  sizeof_Entries + Z.of_nat (length (std_in w)) + 1
    + (sizeof_ptr + sizeof_int) * Z.of_nat (length (runs (std_in w)))
    <= end_ arena - beg arena ->
  exists e inp arena' w',
    read_entries env arena w = Ret (e, inp, arena') w' /\
    std_in w' = [] /\
    beg arena' = beg arena + Z.of_nat (length (std_in w)) + 1 /\
    end_ arena' = end_ arena - sizeof_Entries
      - (sizeof_ptr + sizeof_int) * Z.of_nat (length (runs (std_in w))).
Proof.
  intros Hfit. unfold read_entries.
  unfold sizeof_Entries, sizeof_ptr, sizeof_int in *.
  erewrite bind_ret by (apply alloc_ok; [lia | lia | apply quot_fits; simpl; lia]).
  cbn [beg end_].
  erewrite bind_ret by (apply fullread_all; lia).
  cbn [beg end_].
  pose proof (count_lines_closed_runs (std_in w ++ [NL]) 0 []) as Hcount.
  change (Z.of_nat (length (@nil Z))) with 0 in Hcount.
  rewrite Z.add_0_l, closed_runs_runs in Hcount.
  rewrite Hcount.
  erewrite bind_ret by (apply alloc_ok; [lia | lia | apply quot_fits; simpl; lia]).
  cbn [beg end_].
  erewrite bind_ret by (apply alloc_ok; [lia | lia | apply quot_fits; simpl; lia]).
  cbn [beg end_].
  match goal with |- context [chop_lines _ _ _ _ _ ?ents] =>
    destruct (chop_lines_spec (std_in w ++ [NL]) [] [] 0 ents (beg arena))
      as (buf2 & ents2 & Hch2 & _) end.
  { constructor. }
  { rewrite length_fresh, closed_runs_runs. lia. }
  change (Z.of_nat (length (@nil Z) + length (@nil Z))) with 0 in Hch2.
  change (Z.of_nat (length (@nil Z))) with 0 in Hch2.
  change (Z.of_nat 0) with 0 in Hch2.
  rewrite Hch2. cbn [access M_bind M_ret].
  do 4 eexists. split; [reflexivity |]. cbn [std_in beg end_].
  repeat split; lia.
Qed.

(** C5: when the input and the two tables sized from it fit in the arena,
    [read_entries] returns; the number of entries is the number of maximal
    non-empty runs between the delimiter bytes NUL, line feed and carriage
    return; the entry at position [i] is the [i]-th run in input order; and an
    input with nothing but delimiter bytes (the empty input included) gives
    no entry. *)
Theorem read_entries_runs env arena w :
  sizeof_Entries + Z.of_nat (length (std_in w)) + 1
    + (sizeof_ptr + sizeof_int) * Z.of_nat (length (runs (std_in w)))
    <= end_ arena - beg arena ->
  exists e inp arena' w',
    read_entries env arena w = Ret (e, inp, arena') w' /\
    entries_len e = Z.of_nat (length (runs (std_in w))) /\
    length (entries e) = length (runs (std_in w)) /\
    (forall i, entries e !! i ≫= entry_str inp = runs (std_in w) !! i) /\
    (forallb delimiter (std_in w) = true -> entries_len e = 0).
Proof.
  intros Hfit.
  destruct (read_entries_fits env arena w Hfit) as (e & inp & arena' & w' & Hre & _).
  exists e, inp, arena', w'. split; [exact Hre |].
  apply read_entries_ret in Hre. cbv zeta in Hre.
  rewrite Z.min_r, Nat2Z.id, take_ge in Hre by (unfold sizeof_ptr, sizeof_int in *; lia).
  destruct Hre as (Hn & Hl & _ & _ & _ & Hruns & _).
  repeat split; try assumption.
  intros Hd. rewrite Hn, (runs_only_delimiters _ Hd). reflexivity.
Qed.

Lemma read_entries_runs_witness :
  exists e inp arena' w',
    read_entries env_ex {| beg := 4096; end_ := 4096 + MEMORY_MAX |}
      (world_ex fruit []) = Ret (e, inp, arena') w' /\
    entries_len e = Z.of_nat (length (runs fruit)) /\
    length (entries e) = length (runs fruit) /\
    (forall i, entries e !! i ≫= entry_str inp = runs fruit !! i) /\
    (forallb delimiter fruit = true -> entries_len e = 0).
Proof.
  apply (read_entries_runs env_ex {| beg := 4096; end_ := 4096 + MEMORY_MAX |}
           (world_ex fruit [])).
  vm_compute. discriminate.
Defined.

Example runs_fruit : runs fruit = [chars "Apple"; chars "banana"; chars "Avocado"].
Proof. reflexivity. Qed.

(** ** The match table *)

Lemma match_indices_bounds n :
  forall i inp pattern ents,
    StronglySorted Z.lt (match_indices n i inp pattern ents) /\
    Forall (fun k => i <= k < i + Z.of_nat n) (match_indices n i inp pattern ents).
Proof.
  induction n as [| n IH]; intros i inp pattern ents; simpl.
  - split; constructor.
  - destruct (IH (i + 1) inp pattern ents) as [Hs Hb].
    assert (Hb' : Forall (fun k => i <= k < i + Z.of_nat (S n))
                    (match_indices n (i + 1) inp pattern ents)).
    { eapply Forall_impl; [exact Hb |]. intros k Hk; simpl in Hk. lia. }
    destruct (arr_get ents i ≫= entry_str inp) as [str |]; [| auto].
    destruct (is_match pattern str); [| auto].
    split.
    + constructor; [exact Hs |].
      eapply Forall_impl; [exact Hb |]. intros k Hk; simpl in Hk. lia.
    + constructor; [lia | exact Hb'].
Qed.

Lemma match_indices_length n i inp pattern ents :
  (length (match_indices n i inp pattern ents) <= n)%nat.
Proof.
  revert i. induction n as [| n IH]; intros i; simpl; [lia |].
  specialize (IH (i + 1)).
  destruct (arr_get ents i ≫= entry_str inp) as [str |]; [| lia].
  destruct (is_match pattern str); simpl; lia.
Qed.

Lemma arr_get_lookup {A} (a : list A) (i : nat) : arr_get a (Z.of_nat i) = a !! i.
Proof.
  unfold arr_get. destruct (Z.ltb_spec (Z.of_nat i) 0); [lia |].
  rewrite Nat2Z.id. reflexivity.
Qed.

Lemma arr_set_insert {A} (a : list A) (i : nat) (x : A) :
  (i < length a)%nat -> arr_set a (Z.of_nat i) x = Some (<[i := x]> a).
Proof.
  intros Hi. unfold arr_set.
  destruct (Z.leb_spec 0 (Z.of_nat i)); [| lia].
  destruct (Z.ltb_spec (Z.of_nat i) (Z.of_nat (length a))); [| lia].
  simpl. rewrite Nat2Z.id. reflexivity.
Qed.

(** The second loop of [update_matches] never leaves its arrays: it appends
    the matching indices after the [ml] matches it starts from. *)
Lemma match_loop_spec n :
  forall (i ml : nat) inp pattern e,
    Forall (fun p => is_Some (entry_str inp p)) (entries e) ->
    (i + n <= length (entries e))%nat ->
    (i + n <= length (matches e))%nat ->
    matches_len e = Z.of_nat ml ->
    (ml <= i)%nat ->
    let found := match_indices n (Z.of_nat i) inp pattern (entries e) in
    match_loop n (Z.of_nat i) inp pattern e =
      Some {| entries := entries e;
              matches := take ml (matches e) ++ found
                           ++ drop (ml + length found) (matches e);
              entries_len := entries_len e;
              matches_len := Z.of_nat (ml + length found);
              selected := selected e |}.
Proof.
  induction n as [| n IH]; intros i ml inp pattern e Hstr Hle Hlm Hml Hmi found.
  - subst found. simpl. rewrite Nat.add_0_r, take_drop, <- Hml.
    destruct e; reflexivity.
  - subst found. simpl.
    rewrite arr_get_lookup.
    destruct (lookup_lt_is_Some_2 (entries e) i ltac:(lia)) as [p Hp].
    rewrite Hp. simpl.
    destruct (proj1 (Forall_lookup _ _) Hstr i p Hp) as [str Hs].
    rewrite Hs. simpl.
    replace (Z.of_nat i + 1) with (Z.of_nat (S i)) by lia.
    destruct (is_match pattern str).
    + rewrite Hml, arr_set_insert by lia. simpl.
      rewrite (IH (S i) (S ml)); simpl;
        [| assumption | lia | rewrite length_insert; lia | lia | lia].
      f_equal. f_equal.
      * rewrite (take_S_r _ _ (Z.of_nat i))
          by (apply list_lookup_insert_eq; lia).
        rewrite take_insert_ge by lia.
        rewrite drop_insert_lt by lia.
        rewrite <- app_assoc. simpl.
        replace (S (ml + length (match_indices n (Z.of_nat (S i)) inp pattern (entries e))))
          with (ml + S (length (match_indices n (Z.of_nat (S i)) inp pattern (entries e))))%nat
          by lia.
        reflexivity.
      * lia.
    + apply IH; assumption || lia.
Qed.

Lemma entries_wf_rematched inp pattern e :
  entries_wf inp e -> entries_wf inp (rematched inp pattern e).
Proof.
  intros (He & Hm & Hs). unfold entries_wf, rematched. simpl.
  repeat split; try assumption.
  rewrite length_app, length_drop.
  pose proof (match_indices_length (Z.to_nat (entries_len e)) 0 inp pattern (entries e)).
  lia.
Qed.

Lemma live_matches_rematched inp pattern e :
  live_matches (rematched inp pattern e) =
  match_indices (Z.to_nat (entries_len e)) 0 inp pattern (entries e).
Proof.
  unfold live_matches, rematched. simpl.
  rewrite Nat2Z.id. apply take_app_length.
Qed.

Lemma matches_ok_rematched inp pattern e :
  0 <= entries_len e -> matches_ok (rematched inp pattern e).
Proof.
  intros Hn. split.
  - unfold rematched. simpl.
    pose proof (match_indices_length (Z.to_nat (entries_len e)) 0 inp pattern (entries e)).
    lia.
  - rewrite live_matches_rematched.
    destruct (match_indices_bounds (Z.to_nat (entries_len e)) 0 inp pattern (entries e))
      as [Hs Hb].
    split; [exact Hs |]. simpl.
    eapply Forall_impl; [exact Hb |]. intros k Hk; simpl in Hk. lia.
Qed.

(** [update_matches] on well-formed entries: it ends the process when the
    scratch arena cannot hold the copy of the pattern, and otherwise leaves
    the table of [rematched] and touches nothing outside. *)
Lemma update_matches_cases inp e pattern scratch w :
  entries_wf inp e ->
  update_matches inp e pattern scratch w =
    if Z.of_nat (length pattern) + 1 >? Z.quot (end_ scratch - beg scratch) sizeof_char
    then Exit EXIT_FAILURE (out_of_memory w)
    else Ret (rematched inp pattern e) w.
Proof.
  intros (He & Hm & Hs). unfold update_matches, alloc, M_bind.
  destruct (Z.of_nat (length pattern) + 1 >?
            Z.quot (end_ scratch - beg scratch) sizeof_char); [reflexivity |].
  unfold M_ret.
  pose proof (match_loop_spec (Z.to_nat (entries_len e)) 0 0 inp pattern
    {| entries := entries e; matches := matches e; entries_len := entries_len e;
       matches_len := 0; selected := selected e |}) as Hloop.
  cbn [entries matches matches_len entries_len selected] in Hloop.
  change (Z.of_nat 0) with 0 in Hloop.
  rewrite Hloop by (assumption || lia). reflexivity.
Qed.

Lemma update_matches_ret inp e pattern scratch w e' w' :
  entries_wf inp e ->
  update_matches inp e pattern scratch w = Ret e' w' ->
  e' = rematched inp pattern e /\ w' = w.
Proof.
  intros Hwf. rewrite update_matches_cases by assumption.
  destruct (_ >? _); [discriminate |]. intros [= <- <-]. auto.
Qed.

Lemma selected_ok_clamped e n : selected_ok (set_selected_clamped e n).
Proof.
  unfold selected_ok, set_selected_clamped. simpl. intros Hm.
  destruct (Z.ltb_spec n 0); [lia |].
  destruct (Z.geb_spec n (matches_len e)); lia.
Qed.

Lemma set_selected_clamped_id e :
  0 <= selected e <= matches_len e - 1 ->
  set_selected_clamped e (selected e) = e.
Proof.
  intros Hs. unfold set_selected_clamped.
  destruct (Z.ltb_spec (selected e) 0); [lia |].
  destruct (Z.geb_spec (selected e) (matches_len e)); [lia |].
  destruct e; reflexivity.
Qed.

(** ** Output *)

Lemma write_fd_app fd a b w :
  write_fd fd b (write_fd fd a w) = write_fd fd (a ++ b) w.
Proof.
  unfold write_fd.
  destruct (fd =? 1); [| destruct (fd =? 2)]; simpl; rewrite app_assoc; reflexivity.
Qed.

Lemma write_fd_nil fd w : write_fd fd [] w = w.
Proof.
  unfold write_fd.
  destruct (fd =? 1); [| destruct (fd =? 2)]; simpl; rewrite app_nil_r;
    destruct w; reflexivity.
Qed.

Lemma write_fd_attr fd b w : tty_attr (write_fd fd b w) = tty_attr w.
Proof. unfold write_fd. destruct (fd =? 1); [| destruct (fd =? 2)]; reflexivity. Qed.

Lemma write_fd_tty_in fd b w : tty_in (write_fd fd b w) = tty_in w.
Proof. unfold write_fd. destruct (fd =? 1); [| destruct (fd =? 2)]; reflexivity. Qed.

Lemma write_fd_std_out fd b w :
  std_out (write_fd fd b w) = if fd =? 1 then std_out w ++ b else std_out w.
Proof. unfold write_fd. destruct (fd =? 1); [| destruct (fd =? 2)]; reflexivity. Qed.

Lemma write_fd_std_err fd b w :
  std_err (write_fd fd b w) = if fd =? 2 then std_err w ++ b else std_err w.
Proof.
  unfold write_fd. destruct (Z.eqb_spec fd 1) as [-> |]; [reflexivity |].
  destruct (fd =? 2); reflexivity.
Qed.

Lemma live_matches_lookup e (i : nat) :
  (i < Z.to_nat (matches_len e))%nat -> live_matches e !! i = matches e !! i.
Proof. intros Hi. unfold live_matches. apply lookup_take_lt. exact Hi. Qed.

(** Under the invariants a live match leads to a string. *)
Lemma live_match_entry inp e (i : nat) :
  entries_wf inp e -> matches_ok e ->
  (i < Z.to_nat (matches_len e))%nat ->
  exists m p str,
    arr_get (matches e) (Z.of_nat i) = Some m /\
    0 <= m < entries_len e /\
    arr_get (entries e) m = Some p /\
    entry_str inp p = Some str.
Proof.
  intros (He & Hm & Hs) (Hlen & Hsort & Hb) Hi.
  destruct (lookup_lt_is_Some_2 (matches e) i ltac:(lia)) as [m Hmi].
  assert (Hlive : live_matches e !! i = Some m)
    by (rewrite live_matches_lookup by exact Hi; exact Hmi).
  pose proof (proj1 (Forall_lookup _ _) Hb i m Hlive) as Hrange. simpl in Hrange.
  destruct (lookup_lt_is_Some_2 (entries e) (Z.to_nat m) ltac:(lia)) as [p Hp].
  destruct (proj1 (Forall_lookup _ _) Hs _ p Hp) as [str Hstr].
  exists m, p, str. rewrite arr_get_lookup. repeat split; try assumption; try lia.
  unfold arr_get. destruct (Z.ltb_spec m 0); [lia | exact Hp].
Qed.

Lemma draw_lines_ok n :
  forall (i : nat) j term inp e w,
    entries_wf inp e -> matches_ok e ->
    (n <> 0 -> i + n <= Z.to_nat (matches_len e))%nat ->
    exists out,
      draw_lines n (Z.of_nat i) j term inp e w = Ret tt (write_fd (tty term) out w).
Proof.
  induction n as [| n IH]; intros i j term inp e w Hwf Hok Hi; simpl.
  - exists []. rewrite write_fd_nil. reflexivity.
  - destruct (j + 1 =? height term - 1).
    + exists []. rewrite write_fd_nil. reflexivity.
    + specialize (Hi ltac:(lia)).
      destruct (live_match_entry inp e i Hwf Hok ltac:(lia)) as (m & p & str & Hm & _ & Hp & Hs).
      rewrite Hm. cbn [M_bind access]. rewrite Hp. cbn [M_bind access].
      rewrite Hs. cbn [M_bind access writestr].
      replace (Z.of_nat i + 1) with (Z.of_nat (S i)) by lia.
      edestruct (IH (S i) (j + 1) term inp e) as [out Hout]; [exact Hwf | exact Hok | lia |].
      rewrite Hout. rewrite !write_fd_app. eauto.
Qed.

(** [draw] on well-formed entries: out of memory, or the recomputed and
    clamped table and one screen written to the terminal. *)
Lemma draw_cases term inp e pattern scratch w :
  entries_wf inp e ->
  if Z.of_nat (length pattern) + 1 >? Z.quot (end_ scratch - beg scratch) sizeof_char
  then draw term inp e pattern scratch w = Exit EXIT_FAILURE (out_of_memory w)
  else exists lines,
    let e' := rematched inp pattern e in
    draw term inp e pattern scratch w =
      Ret (set_selected_clamped e' (selected e'))
        (write_fd (tty term) (clear_seq ++ chars ">" ++ pattern ++ [NL] ++ lines) w).
Proof.
  intros Hwf.
  destruct (_ >? _) eqn:Hc; unfold draw; unfold M_bind at 1;
    rewrite update_matches_cases, Hc by assumption; [reflexivity |].
  cbn [M_bind clear_screen writestr M_ret].
  set (e' := set_selected_clamped _ _).
  assert (Hwf' : entries_wf inp e').
  { apply (entries_wf_rematched inp pattern) in Hwf. exact Hwf. }
  assert (Hok' : matches_ok e').
  { apply (matches_ok_rematched inp pattern e). destruct Hwf as (He & _). lia. }
  set (i := if selected e' >? height term - 3
            then selected e' - (height term - 3) else 0).
  assert (Hi : 0 <= i).
  { subst i. destruct (Z.gtb_spec (selected e') (height term - 3)); lia. }
  edestruct (draw_lines_ok (Z.to_nat (matches_len e' - i)) (Z.to_nat i) 0 term inp e')
    as [lines Hlines]; [exact Hwf' | exact Hok' | lia |].
  rewrite Z2Nat.id in Hlines by lia.
  erewrite bind_ret by exact Hlines. rewrite !write_fd_app. exists lines.
  cbv zeta. unfold M_ret, clear_seq. rewrite <- !app_assoc. reflexivity.
Qed.

Lemma draw_ret term inp e pattern scratch w e' w' :
  entries_wf inp e ->
  draw term inp e pattern scratch w = Ret e' w' ->
  e' = set_selected_clamped (rematched inp pattern e)
         (selected (rematched inp pattern e)) /\
  exists lines,
    w' = write_fd (tty term) (clear_seq ++ chars ">" ++ pattern ++ [NL] ++ lines) w.
Proof.
  intros Hwf Hd. pose proof (draw_cases term inp e pattern scratch w Hwf) as Hc.
  destruct (_ >? _); [congruence |].
  destruct Hc as [lines Hl]. cbv zeta in Hl. rewrite Hl in Hd.
  injection Hd as <- <-. eauto.
Qed.

Lemma matches_ok_with_selected e n :
  matches_ok e -> matches_ok (set_selected_clamped e n).
Proof. intros H. exact H. Qed.

(** C6: after [update_matches] the live part of [matches] is a strictly
    increasing sequence of indices in [0, entries_len), so [matches_len] is
    at most [entries_len] and the order of the entries is kept; [draw], which
    recomputes and clamps, leaves in addition [selected] in
    [0, matches_len - 1] whenever there is a match, and it does return when
    the scratch arena has room for the pattern; [set_selected_clamped],
    [select_next] and [select_prev] keep the table and leave [selected] in
    that range. *)
Theorem matches_increasing_selected_clamped term inp e pattern scratch w :
  entries_wf inp e ->
  (forall e' w',
     update_matches inp e pattern scratch w = Ret e' w' ->
     entries_wf inp e' /\ matches_ok e') /\
  (forall e' w',
     draw term inp e pattern scratch w = Ret e' w' ->
     entries_wf inp e' /\ matches_ok e' /\ selected_ok e') /\
  (Z.of_nat (length pattern) + 1 <= end_ scratch - beg scratch ->
     exists e' w', draw term inp e pattern scratch w = Ret e' w') /\
  (matches_ok e ->
     (forall n, matches_ok (set_selected_clamped e n) /\
                selected_ok (set_selected_clamped e n)) /\
     matches_ok (select_next e) /\ selected_ok (select_next e) /\
     matches_ok (select_prev e) /\ selected_ok (select_prev e)).
Proof.
  intros Hwf.
  assert (Hn : 0 <= entries_len e) by (destruct Hwf as (He & _); lia).
  split; [| split; [| split]].
  - intros e' w' Hu. apply update_matches_ret in Hu as [-> _]; [| assumption].
    split; [apply entries_wf_rematched; assumption | apply matches_ok_rematched; assumption].
  - intros e' w' Hd. apply draw_ret in Hd as [-> _]; [| assumption].
    split; [| split].
    + apply (entries_wf_rematched inp pattern) in Hwf. exact Hwf.
    + apply (matches_ok_rematched inp pattern e Hn).
    + apply selected_ok_clamped.
  - intros Hroom. pose proof (draw_cases term inp e pattern scratch w Hwf) as Hc.
    destruct (Z.gtb_spec (Z.of_nat (length pattern) + 1)
                (Z.quot (end_ scratch - beg scratch) sizeof_char)) as [Hgt | _].
    + unfold sizeof_char in Hgt. rewrite Z.quot_1_r in Hgt. lia.
    + destruct Hc as [lines Hl]. eauto.
  - intros Hok. split; [| split; [| split; [| split]]].
    + intros n. split; [exact Hok | apply selected_ok_clamped].
    + exact Hok.
    + apply (selected_ok_clamped (with_selected e (selected e - 1))).
    + exact Hok.
    + apply (selected_ok_clamped (with_selected e (selected e + 1))).
Qed.

(** ** The loop *)

Lemma cstr_take (l : list Z) (n : nat) :
  l !! n = Some 0 -> Forall (fun c => c <> 0) (take n l) ->
  cstr l = Some (take n l).
Proof.
  intros Hl Hnz. rewrite <- (take_drop_middle l n 0 Hl) at 1.
  apply cstr_app, Hnz.
Qed.

Lemma rematched_idem inp pattern e :
  rematched inp pattern (rematched inp pattern e) = rematched inp pattern e.
Proof.
  unfold rematched. simpl. f_equal.
  rewrite drop_app_length. reflexivity.
Qed.

Lemma rematched_clamped inp pattern e n :
  rematched inp pattern (set_selected_clamped (rematched inp pattern e) n) =
  set_selected_clamped (rematched inp pattern e) n.
Proof.
  unfold rematched, set_selected_clamped. simpl. f_equal.
  rewrite drop_app_length. reflexivity.
Qed.

Lemma rematched_with_selected inp pattern e n :
  rematched inp pattern (with_selected e n) = with_selected (rematched inp pattern e) n.
Proof. reflexivity. Qed.

(** [redraw] from a state that satisfies [state_ok]: out of memory, with the
    terminal restored, or the state and world of [redrawn] and
    [after_redraw]. *)
Lemma redraw_cases w0 st w :
  state_ok w0 st ->
  if Z.of_nat (length (pattern_str st)) + 1 >?
     Z.quot (end_ (l_arena st) - beg (l_arena st)) sizeof_char
  then redraw st w =
         Exit EXIT_FAILURE (out_of_memory (set_attr (original (l_term st)) w))
  else exists lines,
         redraw st w = Ret (Continue (redrawn st)) (after_redraw st lines w).
Proof.
  intros (Hwf & Hlen & Hpl & Hz & Hnz & Hsel & Horig).
  unfold redraw.
  erewrite bind_ret by (unfold restore_terminal_mode; reflexivity).
  assert (Hpat :
    (if l_pattern_len st =? 0 then M_ret []
     else access (cstr (l_pattern st))) (set_attr (original (l_term st)) w) =
    Ret (pattern_str st) (set_attr (original (l_term st)) w)).
  { destruct (Z.eqb_spec (l_pattern_len st) 0) as [H0 | H0].
    - unfold pattern_str. rewrite H0. reflexivity.
    - unfold pattern_str in *. rewrite (cstr_take _ _ Hz Hnz). reflexivity. }
  pose proof (draw_cases (l_term st) (l_input st) (l_entries st) (pattern_str st)
                (l_arena st) (set_attr (original (l_term st)) w) Hwf) as Hd.
  destruct (_ >? _).
  - erewrite bind_ret by exact Hpat. unfold M_bind at 1.
    rewrite Hd. reflexivity.
  - destruct Hd as [lines Hd]. cbv zeta in Hd. exists lines.
    erewrite bind_ret by exact Hpat.
    erewrite bind_ret by exact Hd.
    cbn [M_bind set_terminal_mode M_ret].
    unfold after_redraw, redrawn, with_entries. rewrite write_fd_attr.
    cbn [tty_attr set_attr original]. destruct (l_term st); reflexivity.
Qed.

Lemma PATTERN_MAX_eq : PATTERN_MAX = 4096.
Proof. reflexivity. Qed.

Lemma loop_inv_redrawn w0 st w lines :
  state_ok w0 st ->
  (tty (l_term st) <> 1 -> std_out w = std_out w0) ->
  (tty (l_term st) <> 2 -> std_err w = std_err w0) ->
  loop_inv w0 (redrawn st) (after_redraw st lines w).
Proof.
  intros Hst Hout Herr.
  pose proof Hst as (Hwf & Hlen & Hpl & Hz & Hnz & Hsel & Horig).
  split; [| split].
  - pose proof (entries_wf_rematched _ (pattern_str st) _ Hwf) as Hwf'.
    unfold state_ok. split; [exact Hwf' |].
    repeat split; assumption || apply Hpl.
  - unfold world_ok, after_redraw. cbn [tty_attr set_attr std_out std_err redrawn
      with_entries l_term].
    rewrite Horig. split; [reflexivity |].
    rewrite write_fd_std_out, write_fd_std_err. cbn [std_out std_err set_attr].
    split; intros Hfd.
    + destruct (Z.eqb_spec (tty (l_term st)) 1); [contradiction | auto].
    + destruct (Z.eqb_spec (tty (l_term st)) 2); [contradiction | auto].
  - split.
    + apply rematched_clamped.
    + apply selected_ok_clamped.
Qed.

Lemma getch_ret_inv term w ch w1 :
  getch term w = Ret ch w1 ->
  0 <= ch <= 255 /\
  exists rd rest, tty_in w = rd :: rest /\ w1 = set_tty_in w rest.
Proof.
  intros Hg. pose proof (getch_cases term w) as Hc.
  destruct (tty_in w) as [| [r | r |] rest]; rewrite Hc in Hg; try discriminate;
    injection Hg as <- <-;
    (split; [| eauto]);
    (assert (0 <= Z.land r 255 < 2 ^ 8); [| lia]);
    change 255 with (Z.ones 8); rewrite Z.land_ones by lia;
    apply Z.mod_pos_bound; lia.
Qed.

(** Backspace keeps the pattern buffer well formed. *)
Lemma state_ok_backspace w0 st :
  state_ok w0 st ->
  let n := if l_pattern_len st - 1 >? -1 then l_pattern_len st - 1
           else l_pattern_len st in
  arr_set (l_pattern st) n 0 = Some (<[Z.to_nat n := 0]> (l_pattern st)) /\
  state_ok w0 (with_pattern st (<[Z.to_nat n := 0]> (l_pattern st)) n) /\
  pattern_str (with_pattern st (<[Z.to_nat n := 0]> (l_pattern st)) n) =
    take (Z.to_nat n) (pattern_str st).
Proof.
  intros (Hwf & Hlen & Hpl & Hz & Hnz & Hsel & Horig) n.
  assert (Hn : 0 <= n <= l_pattern_len st).
  { subst n. destruct (Z.gtb_spec (l_pattern_len st - 1) (-1)); lia. }
  rewrite PATTERN_MAX_eq in *.
  assert (Hstr : pattern_str (with_pattern st (<[Z.to_nat n := 0]> (l_pattern st)) n) =
                 take (Z.to_nat n) (pattern_str st)).
  { unfold pattern_str. cbn [l_pattern l_pattern_len with_pattern].
    rewrite take_insert_ge by lia. rewrite take_take. f_equal. lia. }
  split; [| split; [| exact Hstr]].
  - rewrite <- (Z2Nat.id n) at 1 by lia. apply arr_set_insert. lia.
  - unfold state_ok. rewrite Hstr.
    cbn [l_pattern l_pattern_len with_pattern l_input l_entries l_selected_entry l_term].
    rewrite ?PATTERN_MAX_eq.
    split; [exact Hwf |].
    repeat split; try assumption; try lia.
    + rewrite length_insert. exact Hlen.
    + apply list_lookup_insert_eq. lia.
    + apply Forall_take. exact Hnz.
Qed.

Lemma ch_isvalid_range ch :
  0 <= ch <= 255 -> ch_isvalid ch = true -> char_of_int ch = ch /\ 32 <= ch <= 126.
Proof.
  intros Hch Hv. unfold ch_isvalid in Hv. apply andb_prop in Hv as [Hlo Hhi].
  unfold char_of_int in *. rewrite Z.mod_small in * by lia.
  destruct (Z.ltb_spec ch 128); lia.
Qed.

(** Appending a printable character keeps the pattern buffer well formed,
    as long as the length stays below [PATTERN_MAX - 1]. *)
Lemma state_ok_append w0 st c :
  state_ok w0 st ->
  32 <= c <= 126 ->
  l_pattern_len st + 1 < PATTERN_MAX - 1 ->
  let n := Z.to_nat (l_pattern_len st) in
  let pattern1 := <[n := c]> (l_pattern st) in
  let pattern2 := <[S n := 0]> pattern1 in
  arr_set (l_pattern st) (l_pattern_len st) c = Some pattern1 /\
  arr_set pattern1 (l_pattern_len st + 1) 0 = Some pattern2 /\
  state_ok w0 (with_pattern st pattern2 (l_pattern_len st + 1)) /\
  pattern_str (with_pattern st pattern2 (l_pattern_len st + 1)) = pattern_str st ++ [c].
Proof.
  intros (Hwf & Hlen & Hpl & Hz & Hnz & Hsel & Horig) Hc Hroom n pattern1 pattern2.
  rewrite PATTERN_MAX_eq in *.
  assert (Hstr : pattern_str (with_pattern st pattern2 (l_pattern_len st + 1)) =
                 pattern_str st ++ [c]).
  { unfold pattern_str. cbn [l_pattern l_pattern_len with_pattern].
    replace (Z.to_nat (l_pattern_len st + 1)) with (S n) by lia.
    subst pattern2 pattern1. rewrite take_insert_ge by lia.
    rewrite (take_S_r _ _ c) by (apply list_lookup_insert_eq; lia).
    rewrite take_insert_ge by lia. reflexivity. }
  split; [| split; [| split; [| exact Hstr]]].
  - rewrite <- (Z2Nat.id (l_pattern_len st)) at 1 by lia.
    apply arr_set_insert. lia.
  - replace (l_pattern_len st + 1) with (Z.of_nat (S n)) by lia.
    apply arr_set_insert. subst pattern1. rewrite length_insert. lia.
  - unfold state_ok. rewrite Hstr.
    cbn [l_pattern l_pattern_len with_pattern l_input l_entries l_selected_entry l_term].
    rewrite ?PATTERN_MAX_eq.
    split; [exact Hwf |].
    repeat split; try assumption; try lia.
    + subst pattern2 pattern1. rewrite !length_insert. exact Hlen.
    + replace (Z.to_nat (l_pattern_len st + 1)) with (S n) by lia.
      apply list_lookup_insert_eq. subst pattern1. rewrite length_insert. lia.
    + apply Forall_app. split; [exact Hnz |]. constructor; [lia | constructor].
Qed.

Lemma frame_refl st : frame st st.
Proof. repeat split. Qed.

Lemma redraw_step w0 st w st1 w1 :
  state_ok w0 st1 ->
  frame st st1 ->
  (tty (l_term st1) <> 1 -> std_out w1 = std_out w0) ->
  (tty (l_term st1) <> 2 -> std_err w1 = std_err w0) ->
  (length (tty_in w1) < length (tty_in w))%nat ->
  step_ok w0 st w (redraw st1 w1).
Proof.
  intros Hst Hfr Hout Herr Hlen.
  pose proof (redraw_cases w0 st1 w1 Hst) as Hc.
  destruct (_ >? _).
  - rewrite Hc. reflexivity.
  - destruct Hc as [lines ->]. split; [| split].
    + apply loop_inv_redrawn; assumption.
    + exact Hfr.
    + unfold after_redraw. cbn [tty_in set_attr].
      rewrite write_fd_tty_in. exact Hlen.
Qed.

Lemma getch_outcome term w :
  match getch term w with
  | Ret ch w1 =>
      0 <= ch <= 255 /\
      exists rd rest, tty_in w = rd :: rest /\ w1 = set_tty_in w rest
  | Exit status w' => status = EXIT_FAILURE
  | Blocked w' => tty_in w = []
  | Fault | OutOfFuel => False
  end.
Proof.
  destruct (getch term w) as [ch w1 | s w' | w' | |] eqn:Hg.
  - apply getch_ret_inv in Hg. exact Hg.
  - pose proof (getch_cases term w) as Hc.
    destruct (tty_in w) as [| [r | r |] rest]; congruence.
  - pose proof (getch_cases term w) as Hc.
    destruct (tty_in w) as [| [r | r |] rest]; congruence.
  - pose proof (getch_cases term w) as Hc.
    destruct (tty_in w) as [| [r | r |] rest]; congruence.
  - pose proof (getch_cases term w) as Hc.
    destruct (tty_in w) as [| [r | r |] rest]; congruence.
Qed.

Lemma table_matches_ok w0 st :
  state_ok w0 st -> table_ok st -> matches_ok (l_entries st).
Proof.
  intros (Hwf & _) (Hre & _). rewrite <- Hre.
  apply matches_ok_rematched. destruct Hwf as (He & _). lia.
Qed.

(** The lookups of the [KEY_ENTER] branch are in range. *)
Lemma selected_lookup w0 st :
  state_ok w0 st -> table_ok st ->
  matches_len (l_entries st) > 0 ->
  exists i p str,
    0 <= selected (l_entries st) < matches_len (l_entries st) /\
    arr_get (matches (l_entries st)) (selected (l_entries st)) = Some i /\
    0 <= i < entries_len (l_entries st) /\
    arr_get (entries (l_entries st)) i = Some p /\
    entry_str (l_input st) p = Some str.
Proof.
  intros Hst Htab Hm.
  pose proof (table_matches_ok w0 st Hst Htab) as Hok.
  destruct Hst as (Hwf & _). destruct Htab as (_ & Hsel).
  specialize (Hsel Hm).
  destruct (live_match_entry (l_input st) (l_entries st)
              (Z.to_nat (selected (l_entries st))) Hwf Hok ltac:(lia))
    as (i & p & str & Hi & Hr & Hp & Hs).
  rewrite Z2Nat.id in Hi by lia.
  exists i, p, str. repeat split; assumption || lia.
Qed.

(** One iteration from a state of the invariant. *)
Lemma loop_body_step w0 st w :
  loop_inv w0 st w -> step_ok w0 st w (loop_body st w).
Proof.
  intros (Hst & Hw & Htab).
  pose proof Hw as (Hattr & Hout & Herr).
  unfold loop_body. unfold M_bind at 1.
  pose proof (getch_outcome (l_term st) w) as Hg.
  destruct (getch (l_term st) w) as [ch w1 | s w' | w' | |]; try exact Hg; [| exact I].
  destruct Hg as (Hch & rd & rest & Hin & ->).
  assert (Hlen1 : (length (tty_in (set_tty_in w rest)) < length (tty_in w))%nat)
    by (rewrite Hin; simpl; lia).
  destruct (Z.eqb_spec KEY_ENTER ch) as [Henter | _].
  { destruct (Z.gtb_spec (matches_len (l_entries st)) 0) as [Hm | Hm].
    - destruct (selected_lookup w0 st Hst Htab ltac:(lia))
        as (i & p & str & Hsel & Hi & Hr & Hp & Hs).
      rewrite Hi. cbn [M_bind access]. rewrite Hp. cbn [M_bind access M_ret].
      unfold step_ok, M_ret.
      split; [| split; [exact Hst | split; [exact Hw | exact Hlen1]]].
      right. exists i, p, str. repeat split; assumption || lia.
    - unfold step_ok, M_ret.
      split; [| split; [exact Hst | split; [exact Hw | exact Hlen1]]].
      left. reflexivity. }
  destruct (Z.eqb_spec KEY_CTRLC ch) as [Hctrlc | _].
  { unfold step_ok, M_ret.
      split; [| split; [exact Hst | split; [exact Hw | exact Hlen1]]].
      left. reflexivity. }
  destruct (Z.eqb_spec KEY_BACKSPACE ch) as [Hbs | _].
  { destruct (state_ok_backspace w0 st Hst) as (Hset & Hst1 & _).
    cbv zeta in Hset, Hst1. rewrite Hset. cbn [M_bind access].
    apply redraw_step; first [assumption | apply frame_refl | (repeat split; reflexivity)]. }
  destruct (Z.eqb_spec KEY_ESCAPE0 ch) as [Hesc | _].
  { unfold M_bind at 1.
    pose proof (getch_outcome (l_term st) (set_tty_in w rest)) as Hg2.
    destruct (getch (l_term st) (set_tty_in w rest)) as [ch2 w2 | s w' | w' | |];
      try exact Hg2; [| exact I].
    destruct Hg2 as (Hch2 & rd2 & rest2 & Hin2 & ->).
    cbn [tty_in set_tty_in] in Hin2. subst rest.
    destruct (Z.eqb_spec KEY_ESCAPE1 ch2) as [Hbr | _].
    - unfold M_bind at 1.
      pose proof (getch_outcome (l_term st) (set_tty_in (set_tty_in w (rd2 :: rest2)) rest2))
        as Hg3.
      destruct (getch (l_term st) (set_tty_in (set_tty_in w (rd2 :: rest2)) rest2))
        as [k w3 | s w' | w' | |]; try exact Hg3; [| exact I].
      destruct Hg3 as (Hk & rd3 & rest3 & Hin3 & ->).
      cbn [tty_in set_tty_in] in Hin3. subst rest2.
      assert (Hlen3 : (length (tty_in (set_tty_in (set_tty_in
                 (set_tty_in w (rd2 :: rd3 :: rest3)) (rd3 :: rest3)) rest3))
               < length (tty_in w))%nat) by (rewrite Hin; simpl; lia).
      destruct (k =? KEY_UP); [| destruct (k =? KEY_DOWN)].
      + apply redraw_step; first [assumption | apply frame_refl | (repeat split; reflexivity)].
      + apply redraw_step; first [assumption | apply frame_refl | (repeat split; reflexivity)].
      + apply redraw_step; first [assumption | apply frame_refl | (repeat split; reflexivity)].
    - apply redraw_step; try (first [assumption | apply frame_refl]).
      rewrite Hin. simpl. lia. }
  destruct (ch_isvalid ch) eqn:Hvalid.
  - destruct (ch_isvalid_range ch Hch Hvalid) as (Hconv & Hrange).
    rewrite Hconv.
    destruct (Z.geb_spec (l_pattern_len st + 1) (PATTERN_MAX - 1)) as [Hfull | Hroom].
    + assert (Hset : arr_set (l_pattern st) (l_pattern_len st) ch =
                     Some (<[Z.to_nat (l_pattern_len st) := ch]> (l_pattern st))).
      { destruct Hst as (_ & Hl & Hpl & _). rewrite PATTERN_MAX_eq in *.
        rewrite <- (Z2Nat.id (l_pattern_len st)) at 1 by lia.
        apply arr_set_insert. lia. }
      rewrite Hset. reflexivity.
    + destruct (state_ok_append w0 st ch Hst Hrange Hroom) as (Hs1 & Hs2 & Hst1 & _).
      cbv zeta in Hs1, Hs2, Hst1.
      rewrite Hs1. cbn [M_bind access].
      destruct (Z.geb_spec (l_pattern_len st + 1) (PATTERN_MAX - 1)); [lia |].
      rewrite Hs2. cbn [M_bind access].
      apply redraw_step; first [assumption | apply frame_refl | (repeat split; reflexivity)].
  - unfold step_ok, M_ret. split; [| split; [apply frame_refl | exact Hlen1]].
    split; [exact Hst | split; [exact Hw | exact Htab]].
Qed.

(** ** From the start of [main] to the loop *)

Lemma safe_bind {A B} (c : M A) (k : A -> M B) w :
  safe (c w) ->
  (forall a w1, c w = Ret a w1 -> safe (k a w1)) ->
  safe (M_bind c k w).
Proof.
  intros Hc Hk. unfold M_bind.
  destruct (c w) as [a w1 | | | |]; try exact Hc. apply Hk. reflexivity.
Qed.

Lemma alloc_safe arena size count w : safe (alloc arena size count w).
Proof. unfold alloc. destruct (_ >? _); exact I. Qed.

Lemma read_entries_wf env arena w e inp arena' w' :
  read_entries env arena w = Ret (e, inp, arena') w' ->
  entries_wf inp e.
Proof.
  intros H. apply read_entries_ret in H. cbv zeta in H.
  destruct H as (Hn & Hl & Hm & _ & _ & Hruns & _).
  split; [lia | split; [lia |]].
  apply Forall_lookup. intros i p Hp.
  specialize (Hruns i). rewrite Hp in Hruns. simpl in Hruns.
  destruct (lookup_lt_is_Some_2 (runs _) i
              ltac:(rewrite <- Hl; eapply lookup_lt_Some; exact Hp)) as [r Hr].
  rewrite Hr in Hruns. eauto.
Qed.

Lemma read_entries_safe env arena w : safe (read_entries env arena w).
Proof.
  unfold read_entries.
  apply safe_bind; [apply alloc_safe |].
  intros [p1 a1] w1 Ha1.
  apply alloc_ret_inv in Ha1 as (-> & _ & -> & Hq).
  apply fits_quot in Hq; [| reflexivity | lia].
  cbn [beg end_].
  apply safe_bind; [exact I |].
  intros data w2 Hrd. unfold fullread in Hrd. injection Hrd as <- <-.
  apply safe_bind; [apply alloc_safe |].
  intros [p2 a2] w3 Ha2. apply alloc_ret_inv in Ha2 as (-> & _ & -> & _).
  apply safe_bind; [apply alloc_safe |].
  intros [p3 a3] w4 Ha3. apply alloc_ret_inv in Ha3 as (-> & _ & -> & _).
  set (data := take _ (std_in w)).
  pose proof (count_lines_closed_runs (data ++ [NL]) 0 []) as Hcount.
  change (Z.of_nat (length (@nil Z))) with 0 in Hcount.
  rewrite Z.add_0_l in Hcount.
  destruct (chop_lines_spec (data ++ [NL]) [] [] 0
              (fresh env p2 sizeof_ptr (count_lines (data ++ [NL]) 0 0)) (beg arena))
    as (buf2 & ents2 & Hch2 & _).
  { constructor. }
  { rewrite length_fresh, Hcount. lia. }
  change (Z.of_nat (length (@nil Z) + length (@nil Z))) with 0 in Hch2.
  change (Z.of_nat (length (@nil Z))) with 0 in Hch2.
  change (Z.of_nat 0) with 0 in Hch2.
  unfold M_bind, access. rewrite Hch2. exact I.
Qed.

Lemma draw_safe term inp e pattern scratch w :
  entries_wf inp e -> safe (draw term inp e pattern scratch w).
Proof.
  intros Hwf. pose proof (draw_cases term inp e pattern scratch w Hwf) as Hc.
  destruct (_ >? _); [rewrite Hc; exact I |].
  destruct Hc as [lines Hl]. cbv zeta in Hl. rewrite Hl. exact I.
Qed.

Lemma MEMORY_MAX_eq : MEMORY_MAX = 268435456.
Proof. reflexivity. Qed.

Lemma fresh_pattern env ptr :
  length (fresh env ptr sizeof_char PATTERN_MAX) = 4096%nat /\
  fresh env ptr sizeof_char PATTERN_MAX !! 0%nat = Some 0.
Proof. rewrite length_fresh. split; reflexivity. Qed.

(** When [main_init] returns, the invariant of the loop holds, no terminal
    read was consumed and the terminal is the descriptor [open] gave. *)
Lemma main_init_inv env w0 st w :
  main_init env w0 = Ret st w ->
  loop_inv w0 st w /\ tty_in w = tty_in w0 /\ tty (l_term st) = open_result env /\
  l_pattern_len st = 0.
Proof.
  unfold main_init. intros H.
  apply bind_ret_inv in H as ([[e inp] a1] & w1 & Hre & H).
  pose proof (read_entries_wf _ _ _ _ _ _ _ Hre) as Hwf.
  apply read_entries_ret in Hre. cbv zeta in Hre.
  destruct Hre as (_ & _ & _ & _ & _ & _ & Hattr1 & Hin1 & _ & Hout1 & Herr1).
  apply bind_ret_inv in H as ([term a2] & w2 & Hgt & H).
  unfold get_terminal in Hgt.
  apply bind_ret_inv in Hgt as ([p a2'] & w2' & Ha & Hgt).
  apply alloc_ret_inv in Ha as (-> & _ & -> & _).
  destruct (open_result env =? -1); [discriminate |].
  unfold M_ret in Hgt. injection Hgt as <- <- <-.
  apply bind_ret_inv in H as (e' & w3 & Hd & H).
  apply draw_ret in Hd as (-> & lines & ->); [| exact Hwf].
  cbn [M_bind set_terminal_mode] in H.
  rewrite write_fd_attr in H.
  apply bind_ret_inv in H as ([p3 a3] & w4 & Ha & H).
  apply alloc_ret_inv in Ha as (-> & _ & -> & _).
  unfold M_ret in H. injection H as <- <-.
  destruct (fresh_pattern env p3) as (Hflen & Hf0).
  split; [| split; [| split]]; [| | reflexivity | reflexivity].
  - split; [| split].
    + unfold state_ok. cbn [l_input l_entries l_pattern l_pattern_len
        l_selected_entry l_term original pattern_str].
      rewrite PATTERN_MAX_eq.
      split; [apply (entries_wf_rematched inp [] e Hwf) |].
      repeat split; try (assumption || lia || constructor).
    + unfold world_ok. cbn [tty_attr set_attr std_out std_err l_term tty].
      rewrite Hattr1. split; [reflexivity |].
      rewrite write_fd_std_out, write_fd_std_err, Hout1, Herr1.
      split; intros Hfd.
      * destruct (Z.eqb_spec (open_result env) 1); [contradiction | reflexivity].
      * destruct (Z.eqb_spec (open_result env) 2); [contradiction | reflexivity].
    + split; [apply rematched_clamped | apply selected_ok_clamped].
  - cbn [tty_in set_attr]. rewrite write_fd_tty_in. exact Hin1.
Qed.

Lemma main_arena_room env :
  end_ (main_arena env) - beg (main_arena env) <> sizeof_Entries.
Proof.
  unfold main_arena. destruct (malloc_result env =? 0); simpl;
    rewrite ?MEMORY_MAX_eq; unfold sizeof_Entries; lia.
Qed.

Lemma main_init_safe env w0 : safe (main_init env w0).
Proof.
  unfold main_init.
  apply safe_bind; [apply read_entries_safe |].
  intros [[e inp] a1] w1 Hre.
  pose proof (read_entries_wf _ _ _ _ _ _ _ Hre) as Hwf.
  apply safe_bind.
  { unfold get_terminal. apply safe_bind; [apply alloc_safe |].
    intros [p a] w2 _. destruct (_ =? _); exact I. }
  intros [term a2] w2 _.
  apply safe_bind; [apply draw_safe, Hwf |].
  intros e' w3 _.
  apply safe_bind; [exact I |].
  intros term' w4 _.
  apply safe_bind; [apply alloc_safe |].
  intros [p a] w5 _. exact I.
Qed.

(** ** Runs of the loop *)

Lemma frame_trans st1 st2 st3 : frame st1 st2 -> frame st2 st3 -> frame st1 st3.
Proof.
  intros (Ha & Ht & Hi & He & Hn) (Ha' & Ht' & Hi' & He' & Hn').
  repeat split; congruence.
Qed.

Lemma loop_n_inv w0 n :
  forall st w st' w',
    loop_inv w0 st w ->
    loop_n n st w = Ret (Continue st') w' ->
    loop_inv w0 st' w' /\ frame st st' /\
    (n + length (tty_in w') <= length (tty_in w))%nat.
Proof.
  induction n as [| n IH]; intros st w st' w' Hinv Hrun; simpl in Hrun.
  - unfold M_ret in Hrun. injection Hrun as <- <-.
    split; [exact Hinv | split; [apply frame_refl | lia]].
  - apply bind_ret_inv in Hrun as (c & w1 & Hbody & Hrun).
    pose proof (loop_body_step w0 st w Hinv) as Hstep. rewrite Hbody in Hstep.
    destruct c as [st1 | st1]; [| discriminate].
    destruct Hstep as (Hinv1 & Hfr1 & Hlen1).
    destruct (IH _ _ _ _ Hinv1 Hrun) as (Hinv' & Hfr' & Hlen').
    split; [exact Hinv' | split; [eapply frame_trans; eassumption | lia]].
Qed.

(** Every state at the head of the loop satisfies the invariant; the reads
    still to come bound the iterations already made. *)
Lemma run_inv env w0 n st w :
  run env n w0 = Ret (Continue st) w ->
  loop_inv w0 st w /\ tty (l_term st) = open_result env /\
  (n + length (tty_in w) <= length (tty_in w0))%nat /\
  exists st0 wi, main_init env w0 = Ret st0 wi /\
    loop_n n st0 wi = Ret (Continue st) w /\ frame st0 st.
Proof.
  unfold run. intros H.
  apply bind_ret_inv in H as (st0 & wi & Hinit & Hrun).
  destruct (main_init_inv env w0 st0 wi Hinit) as (Hinv0 & Hin0 & Htty0 & _).
  destruct (loop_n_inv w0 n _ _ _ _ Hinv0 Hrun) as (Hinv & Hfr & Hlen).
  split; [exact Hinv |]. split.
  - destruct Hfr as (_ & Ht & _). rewrite Ht. exact Htty0.
  - split; [rewrite <- Hin0; exact Hlen | eauto].
Qed.

Lemma main_loop_continue n :
  forall fuel st w st1 w1,
    loop_n n st w = Ret (Continue st1) w1 ->
    main_loop (n + fuel) st w = main_loop fuel st1 w1.
Proof.
  induction n as [| n IH]; intros fuel st w st1 w1 Hrun; simpl in Hrun.
  - unfold M_ret in Hrun. injection Hrun as <- <-. reflexivity.
  - apply bind_ret_inv in Hrun as (c & w' & Hbody & Hrun).
    destruct c as [st' | st']; [| discriminate].
    simpl. erewrite bind_ret by exact Hbody. apply IH. exact Hrun.
Qed.

(** The loop from a state of the invariant, with fuel beyond the reads to
    come: it reaches [end] in a state of [end_ok], ends the process with a
    failure status, or blocks; the fuel is never used up. *)
Lemma main_loop_outcome w0 fuel :
  forall st w,
    loop_inv w0 st w ->
    (length (tty_in w) < fuel)%nat ->
    match main_loop fuel st w with
    | Ret st' w' =>
        exists st1, end_ok st1 st' /\ state_ok w0 st1 /\ world_ok w0 st1 w' /\
                    frame st st1
    | Exit status w' => status = EXIT_FAILURE
    | Blocked w' => True
    | Fault | OutOfFuel => False
    end.
Proof.
  induction fuel as [| fuel IH]; intros st w Hinv Hfuel; [lia |].
  simpl. unfold M_bind.
  pose proof (loop_body_step w0 st w Hinv) as Hstep.
  destruct (loop_body st w) as [[st1 | st1] w1 | s w1 | w1 | |]; try exact Hstep.
  - destruct Hstep as (Hinv1 & Hfr1 & Hlen1).
    specialize (IH st1 w1 Hinv1 ltac:(lia)).
    destruct (main_loop fuel st1 w1) as [st' w' | | | |]; try exact IH.
    destruct IH as (st2 & Hend & Hst2 & Hw2 & Hfr2).
    exists st2. repeat split; try assumption.
    all: try (eapply frame_trans; eassumption).
    all: try apply Hst2. all: try apply Hw2.
  - destruct Hstep as (Hend & Hst & Hw & _).
    exists st. split; [exact Hend | split; [exact Hst | split; [exact Hw | apply frame_refl]]].
Qed.

Lemma fullwrite_for_spec fuel :
  forall dev (off : nat) buf out,
    (off <= length buf)%nat ->
    (length buf - off <= fuel)%nat ->
    exists status k dev',
      fullwrite_for fuel dev (Z.of_nat off) (Z.of_nat (length buf)) buf out =
        Some (status, out ++ take k (drop off buf), dev') /\
      (status = 0 /\ k = (length buf - off)%nat \/
       status = -1 /\ (off + k < length buf)%nat /\ Exists (fun c => c < 1) dev).
Proof.
  induction fuel as [| fuel IH]; intros dev off buf out Hoff Hfuel.
  - cbn [fullwrite_for]. destruct (Z.of_nat off <? Z.of_nat (length buf)) eqn:Hlt;
      [apply Z.ltb_lt in Hlt; lia |].
    exists 0, 0%nat, dev. rewrite take_0, app_nil_r. split; [reflexivity |].
    left. split; [reflexivity | lia].
  - cbn [fullwrite_for]. destruct (Z.of_nat off <? Z.of_nat (length buf)) eqn:Hlt.
    2:{ apply Z.ltb_ge in Hlt. exists 0, 0%nat, dev. rewrite take_0, app_nil_r.
        split; [reflexivity |]. left. split; [reflexivity | lia]. }
    apply Z.ltb_lt in Hlt.
    assert (Hrest : take (Z.to_nat (Z.of_nat (length buf) - Z.of_nat off)) (drop off buf)
                    = drop off buf).
    { apply take_ge. rewrite length_drop. lia. }
    rewrite Nat2Z.id, Hrest.
    assert (Hlen : length (drop off buf) = (length buf - off)%nat) by apply length_drop.
    destruct dev as [| c rest]; cbn [write_call].
    + rewrite Hlen.
      destruct (Z.of_nat (length buf - off) <? 1) eqn:Hr; [apply Z.ltb_lt in Hr; lia |].
      replace (Z.of_nat off + Z.of_nat (length buf - off)) with (Z.of_nat (length buf)) by lia.
      destruct (IH [] (length buf) buf (out ++ drop off buf)) as (status & k & dev' & Heq & Hst);
        [lia | lia |].
      rewrite Heq. rewrite drop_all, take_nil, app_nil_r.
      exists status, (length buf - off)%nat, dev'. split.
      * rewrite take_ge by lia. reflexivity.
      * destruct Hst as [[-> _] | (_ & _ & Hex)]; [left; split; [reflexivity | lia] |].
        apply Exists_nil in Hex. destruct Hex.
    + destruct (c <? 1) eqn:Hc.
      * cbn. rewrite Hc. apply Z.ltb_lt in Hc. exists (-1), 0%nat, rest.
        rewrite take_0, app_nil_r. split; [reflexivity |]. right.
        split; [reflexivity |]. split; [lia |]. constructor. exact Hc.
      * apply Z.ltb_ge in Hc. rewrite Hlen.
        set (k0 := Z.to_nat (Z.min c (Z.of_nat (length buf - off)))).
        assert (Hk0 : (1 <= k0 <= length buf - off)%nat) by (subst k0; lia).
        destruct (Z.of_nat k0 <? 1) eqn:Hr; [apply Z.ltb_lt in Hr; lia |].
        replace (Z.of_nat off + Z.of_nat k0) with (Z.of_nat (off + k0)) by lia.
        destruct (IH rest (off + k0)%nat buf (out ++ take k0 (drop off buf)))
          as (status & k & dev' & Heq & Hst); [lia | lia |].
        rewrite Heq. exists status, (k0 + k)%nat, dev'. split.
        -- rewrite <- app_assoc. rewrite <- (take_take_drop (drop off buf) k0 k).
           rewrite drop_drop. reflexivity.
        -- destruct Hst as [[-> ->] | (-> & Hlt' & Hex)].
           ++ left. split; [reflexivity | lia].
           ++ right. split; [reflexivity |]. split; [lia |].
              apply Exists_cons_tl. exact Hex.
Qed.

(** The write of the result: a prefix of the string lands, all of it when
    every [write] takes at least one byte, and a proper one only after a
    [write] that returned less than 1. *)
Lemma writestr_out_cases str w :
  exists r k dev,
    writestr_out str w =
      Ret r {| tty_attr := tty_attr w; tty_in := tty_in w; tty_out := tty_out w;
               std_in := std_in w; std_out := std_out w ++ take k str;
               std_err := std_err w; out_dev := dev |} /\
    (Forall (fun c => 1 <= c) (out_dev w) -> take k str = str) /\
    (take k str <> str -> r = -1 /\ Exists (fun c => c < 1) (out_dev w)).
Proof.
  destruct (fullwrite_for_spec (length str) (out_dev w) 0 str (std_out w))
    as (status & k & dev' & Heq & Hst); [lia | lia |].
  rewrite drop_0 in Heq. change (Z.of_nat 0) with 0 in Heq.
  exists status, k, dev'. unfold writestr_out, writestr_calls. rewrite Heq.
  split; [reflexivity |].
  destruct Hst as [[-> ->] | (-> & Hlt & Hex)].
  - rewrite Nat.sub_0_r, firstn_all. split; [reflexivity | congruence].
  - split; [| intros _; split; [reflexivity | exact Hex]].
    intros Hall. exfalso.
    apply Exists_exists in Hex. destruct Hex as (c & Hin & Hc).
    rewrite Forall_forall in Hall. specialize (Hall c Hin). lia.
Qed.

(** From the label [end]: the terminal is restored, what descriptor 1 takes
    of the selected entry, if any, is written, and [main] returns
    [EXIT_SUCCESS] whatever [writestr] returned. *)
Lemma main_end_cases w0 st1 st' w :
  state_ok w0 st1 -> end_ok st1 st' ->
  exists out k w',
    main_end st' w = Ret EXIT_SUCCESS w' /\
    tty_attr w' = tty_attr w0 /\ tty_in w' = tty_in w /\
    std_err w' = std_err w /\
    std_out w' = std_out w ++ take k out /\
    (Forall (fun c => 1 <= c) (out_dev w) -> take k out = out) /\
    (take k out <> out -> Exists (fun c => c < 1) (out_dev w)) /\
    match l_selected_entry st' with
    | Some p => entry_str (l_input st1) p = Some out
    | None => out = []
    end.
Proof.
  intros (Hwf & Hlen & Hpl & Hz & Hnz & Hsel & Horig) Hend.
  unfold main_end. cbn [M_bind restore_terminal_mode].
  destruct Hend as [-> | (i & p & str & _ & _ & _ & _ & _ & Hs & ->)].
  - rewrite Hsel, Horig. exists [], 0%nat. eexists.
    split; [reflexivity |]. cbn [tty_attr tty_in std_err std_out set_attr].
    rewrite take_nil, app_nil_r. repeat split; try reflexivity. congruence.
  - cbn [l_selected_entry with_selected_entry l_term l_input].
    rewrite Hs, Horig. unfold M_bind, access.
    destruct (writestr_out_cases str (set_attr (tty_attr w0) w))
      as (r & k & dev & Heq & Hall & Hpart).
    rewrite Heq. unfold M_ret. exists str, k. eexists.
    split; [reflexivity |]. cbn [tty_attr tty_in std_err std_out out_dev set_attr] in *.
    repeat split; try reflexivity; try assumption.
    intros Hne. apply Hpart. exact Hne.
Qed.

Lemma bind_exit_inv {A B} (c : M A) (k : A -> M B) w s w' :
  M_bind c k w = Exit s w' ->
  c w = Exit s w' \/ exists a w1, c w = Ret a w1 /\ k a w1 = Exit s w'.
Proof.
  unfold M_bind. destruct (c w) as [a w1 | s1 w1 | | |]; intros H; try discriminate.
  - right. eauto.
  - left. injection H as <- <-. reflexivity.
Qed.

Lemma alloc_exit_inv arena size count w s w' :
  alloc arena size count w = Exit s w' -> s = EXIT_FAILURE /\ w' = out_of_memory w.
Proof.
  unfold alloc. destruct (_ >? _); [| discriminate].
  unfold ERROR_EXIT, out_of_memory. intros [= <- <-]. auto.
Qed.

(** [main] never faults and never runs out of fuel; when it returns, the
    status is [EXIT_SUCCESS] and the terminal has the attributes it started
    with; when it calls [exit], the status is [EXIT_FAILURE]. *)
Lemma main_outcome env w0 :
  match main env w0 with
  | Ret status w' => status = EXIT_SUCCESS /\ tty_attr w' = tty_attr w0
  | Exit status w' => status = EXIT_FAILURE
  | Blocked w' => True
  | Fault | OutOfFuel => False
  end.
Proof.
  unfold main. unfold M_bind at 1.
  pose proof (main_init_safe env w0) as Hsafe.
  destruct (main_init env w0) as [st0 wi | s wi | wi | |] eqn:Hinit;
    try exact Hsafe; try exact I.
  - destruct (main_init_inv env w0 st0 wi Hinit) as (Hinv0 & Hin0 & _).
    unfold M_bind.
    pose proof (main_loop_outcome w0 (S (length (tty_in w0))) st0 wi Hinv0
                  ltac:(rewrite Hin0; lia)) as Hloop.
    destruct (main_loop (S (length (tty_in w0))) st0 wi) as [st' w' | | | |];
      try exact Hloop.
    destruct Hloop as (st1 & Hend & Hst1 & Hw1 & _).
    destruct (main_end_cases w0 st1 st' w' Hst1 Hend) as (out & k & w'' & -> & Hattr & _).
    split; [reflexivity | exact Hattr].
  - (* [main_init] called [exit]: it did so through [ERROR_EXIT] *)
    clear Hsafe. unfold main_init in Hinit.
    apply bind_exit_inv in Hinit as [Hre | ([[e inp] a1] & w1 & Hre & Hinit)].
    { unfold read_entries in Hre.
      apply bind_exit_inv in Hre as [Ha | ([p a] & w2 & _ & Hre)]; [eapply alloc_exit_inv; eassumption |].
      apply bind_exit_inv in Hre as [Hr | (data & w3 & _ & Hre)]; [discriminate |].
      apply bind_exit_inv in Hre as [Ha | ([p2 a2] & w4 & _ & Hre)]; [eapply alloc_exit_inv; eassumption |].
      apply bind_exit_inv in Hre as [Ha | ([p3 a3] & w5 & _ & Hre)]; [eapply alloc_exit_inv; eassumption |].
      apply bind_exit_inv in Hre as [Ha | ([b ents] & w6 & _ & Hre)]; [| discriminate].
      unfold access in Ha. destruct (chop_lines _ _ _ _ _ _); discriminate. }
    pose proof (read_entries_wf _ _ _ _ _ _ _ Hre) as Hwf.
    apply bind_exit_inv in Hinit as [Hgt | ([term a2] & w2 & _ & Hinit)].
    { unfold get_terminal in Hgt.
      apply bind_exit_inv in Hgt as [Ha | ([p a] & w3 & _ & Hgt)]; [eapply alloc_exit_inv; eassumption |].
      destruct (_ =? _); [| discriminate]. unfold ERROR_EXIT in Hgt. congruence. }
    apply bind_exit_inv in Hinit as [Hd | (e' & w3 & _ & Hinit)].
    { pose proof (draw_cases term inp e [] a2 w2 Hwf) as Hc.
      destruct (_ >? _); [congruence |]. destruct Hc as [lines Hl].
      cbv zeta in Hl. congruence. }
    apply bind_exit_inv in Hinit as [Hs | (term' & w4 & _ & Hinit)]; [discriminate |].
    apply bind_exit_inv in Hinit as [Ha | ([p a] & w5 & _ & Hinit)]; [eapply alloc_exit_inv; eassumption |].
    discriminate.
Qed.

(** ** Leaving the loop *)

Lemma main_after_run env w0 n st w :
  run env n w0 = Ret (Continue st) w ->
  main env w0 =
    (let* st' := main_loop (S (length (tty_in w0) - n)) st in main_end st') w.
Proof.
  intros Hrun.
  destruct (run_inv env w0 n st w Hrun) as (_ & _ & Hlen & st0 & wi & Hinit & Hloop & _).
  unfold main. erewrite bind_ret by exact Hinit.
  replace (S (length (tty_in w0))) with (n + S (length (tty_in w0) - n))%nat by lia.
  unfold M_bind.
  rewrite (main_loop_continue n _ _ _ _ _ Hloop). reflexivity.
Qed.


Lemma main_after_exit env w0 n st w status w' :
  run env n w0 = Ret (Continue st) w ->
  loop_body st w = Exit status w' ->
  main env w0 = Exit status w'.
Proof.
  intros Hrun Hbody. rewrite (main_after_run env w0 n st w Hrun).
  cbn [main_loop]. unfold M_bind. rewrite Hbody. reflexivity.
Qed.

Lemma main_after_blocked env w0 n st w w' :
  run env n w0 = Ret (Continue st) w ->
  loop_body st w = Blocked w' ->
  main env w0 = Blocked w'.
Proof.
  intros Hrun Hbody. rewrite (main_after_run env w0 n st w Hrun).
  cbn [main_loop]. unfold M_bind. rewrite Hbody. reflexivity.
Qed.

Lemma loop_body_enter st w w1 i p :
  getch (l_term st) w = Ret KEY_ENTER w1 ->
  matches_len (l_entries st) > 0 ->
  arr_get (matches (l_entries st)) (selected (l_entries st)) = Some i ->
  arr_get (entries (l_entries st)) i = Some p ->
  loop_body st w = Ret (GotoEnd (with_selected_entry st (Some p))) w1.
Proof.
  intros Hg Hm Hi Hp. unfold loop_body. erewrite bind_ret by exact Hg.
  rewrite Z.eqb_refl.
  destruct (Z.gtb_spec (matches_len (l_entries st)) 0); [| lia].
  rewrite Hi. cbn [M_bind access]. rewrite Hp. reflexivity.
Qed.


Example main_writes_avocado :
  std_out (world_of (main env_ex (world_ex fruit (keys_a_down ++ [ReadChar 13])))) =
  chars "Avocado".
Proof. vm_compute. reflexivity. Qed.

(** C9: in every state at the head of the loop, whatever keys led to it,
    when there is a match [selected] is in [0, matches_len),
    [matches[selected]] is in [0, entries_len) and both lookups of the Enter
    branch succeed and give an entry that is a string of the input buffer;
    with Enter as the next key the loop leaves with that entry selected.  The
    value -1 that a recompute without a match leaves in [selected]
    ([selected_minus_one]) is never used as an index. *)
Theorem enter_lookup_in_range env w0 n st w :
  run env n w0 = Ret (Continue st) w ->
  matches_len (l_entries st) > 0 ->
  exists i p str,
    0 <= selected (l_entries st) < matches_len (l_entries st) /\
    arr_get (matches (l_entries st)) (selected (l_entries st)) = Some i /\
    0 <= i < entries_len (l_entries st) /\
    arr_get (entries (l_entries st)) i = Some p /\
    entry_str (l_input st) p = Some str /\
    forall w1,
      getch (l_term st) w = Ret KEY_ENTER w1 ->
      loop_body st w = Ret (GotoEnd (with_selected_entry st (Some p))) w1.
Proof.
  intros Hrun Hm.
  destruct (run_inv env w0 n st w Hrun) as ((Hst & _ & Htab) & _).
  destruct (selected_lookup w0 st Hst Htab Hm) as (i & p & str & Hsel & Hi & Hr & Hp & Hs).
  exists i, p, str. repeat split; try assumption; try lia.
  intros w1 Hg. apply (loop_body_enter st w w1 i p Hg Hm Hi Hp).
Qed.

Lemma enter_lookup_in_range_witness :
  let w0 := world_ex fruit (keys_a_down ++ [ReadChar 13]) in
  let st := state_of (run env_ex 2 w0) in
  let w := world_of (run env_ex 2 w0) in
  exists i p str,
    0 <= selected (l_entries st) < matches_len (l_entries st) /\
    arr_get (matches (l_entries st)) (selected (l_entries st)) = Some i /\
    0 <= i < entries_len (l_entries st) /\
    arr_get (entries (l_entries st)) i = Some p /\
    entry_str (l_input st) p = Some str /\
    forall w1,
      getch (l_term st) w = Ret KEY_ENTER w1 ->
      loop_body st w = Ret (GotoEnd (with_selected_entry st (Some p))) w1.
Proof.
  intros w0 st w.
  apply (enter_lookup_in_range env_ex w0 2 st w).
  - vm_compute. reflexivity.
  - vm_compute. reflexivity.
Defined.

(** Typing [z], which no entry starts with, empties the table and leaves
    [selected] at -1; a backspace brings the three entries back and
    [selected] to 0. *)
Example selected_minus_one :
  let w0 := world_ex fruit [ReadChar 122; ReadChar 127] in
  let e1 := l_entries (state_of (run env_ex 1 w0)) in
  let e2 := l_entries (state_of (run env_ex 2 w0)) in
  (matches_len e1 = 0 /\ selected e1 = -1) /\
  (matches_len e2 = 3 /\ selected e2 = 0).
Proof. vm_compute. repeat split; reflexivity. Qed.

(** ** Escape sequences *)

Lemma getch_char term w c rest :
  tty_in w = ReadChar c :: rest ->
  getch term w = Ret (Z.land c 255) (set_tty_in w rest).
Proof.
  intros Hin. pose proof (getch_cases term w) as Hg. rewrite Hin in Hg. exact Hg.
Qed.

Lemma with_entries_id st : with_entries st (l_entries st) = st.
Proof. destruct st; reflexivity. Qed.

(** A redraw from a state of the invariant recomputes the table it already
    has; with a match the selection stays too. *)
Lemma redrawn_table st :
  table_ok st ->
  l_pattern (redrawn st) = l_pattern st /\
  l_pattern_len (redrawn st) = l_pattern_len st /\
  matches (l_entries (redrawn st)) = matches (l_entries st) /\
  matches_len (l_entries (redrawn st)) = matches_len (l_entries st) /\
  (matches_len (l_entries st) > 0 -> redrawn st = st).
Proof.
  intros (Hre & Hsel). unfold redrawn. cbv zeta. rewrite Hre.
  repeat split; try reflexivity.
  intros Hm. rewrite set_selected_clamped_id by (apply Hsel; exact Hm).
  apply with_entries_id.
Qed.

(** C4 (as the code has it): the escape byte followed by a byte other than
    ['['], or by ['['] and a byte that is neither the Up nor the Down code,
    changes neither the pattern nor the match table, nor, when there is a
    match, the selection (the whole state is then unchanged); the screen is
    redrawn all the same: the terminal is restored, the clear sequence, the
    prompt and the entry lines are written to it, and raw mode is set
    again.  The scratch arena must have room for the pattern, as for any
    redraw. *)
Theorem unknown_escape_redraws env w0 n st w reads rest :
  run env n w0 = Ret (Continue st) w ->
  tty_in w = reads ++ rest ->
  (exists b, reads = [ReadChar KEY_ESCAPE0; ReadChar b] /\
             Z.land b 255 <> KEY_ESCAPE1) \/
  (exists k, reads = [ReadChar KEY_ESCAPE0; ReadChar KEY_ESCAPE1; ReadChar k] /\
             Z.land k 255 <> KEY_UP /\ Z.land k 255 <> KEY_DOWN) ->
  Z.of_nat (length (pattern_str st)) + 1 <= end_ (l_arena st) - beg (l_arena st) ->
  exists lines st',
    loop_body st w = Ret (Continue st') (after_redraw st lines (set_tty_in w rest)) /\
    l_pattern st' = l_pattern st /\
    l_pattern_len st' = l_pattern_len st /\
    matches (l_entries st') = matches (l_entries st) /\
    matches_len (l_entries st') = matches_len (l_entries st) /\
    (matches_len (l_entries st) > 0 -> st' = st) /\
    (tty (l_term st) <> 1 -> tty (l_term st) <> 2 ->
     tty_out (after_redraw st lines (set_tty_in w rest)) =
       tty_out w ++ clear_seq ++ chars ">" ++ pattern_str st ++ [NL] ++ lines).
Proof.
  intros Hrun Hin Hreads Hroom.
  destruct (run_inv env w0 n st w Hrun) as ((Hst & _ & Htab) & _).
  assert (Hredraw : forall w2, exists lines,
            redraw st w2 = Ret (Continue (redrawn st)) (after_redraw st lines w2)).
  { intros w2. pose proof (redraw_cases w0 st w2 Hst) as Hc.
    destruct (Z.gtb_spec (Z.of_nat (length (pattern_str st)) + 1)
                (Z.quot (end_ (l_arena st) - beg (l_arena st)) sizeof_char)) as [Hgt | _].
    - unfold sizeof_char in Hgt. rewrite Z.quot_1_r in Hgt. lia.
    - exact Hc. }
  assert (Hbody : exists lines,
            loop_body st w =
              Ret (Continue (redrawn st)) (after_redraw st lines (set_tty_in w rest))).
  { destruct Hreads as [(b & -> & Hb) | (k & -> & Hup & Hdown)]; simpl in Hin.
    - destruct (Hredraw (set_tty_in (set_tty_in w (ReadChar b :: rest)) rest))
        as [lines Hl].
      exists lines. unfold loop_body.
      erewrite bind_ret by (apply getch_char; exact Hin).
      change (Z.land KEY_ESCAPE0 255) with 27. cbn [Z.eqb KEY_ENTER KEY_CTRLC
        KEY_BACKSPACE KEY_ESCAPE0 Pos.eqb].
      erewrite bind_ret by (apply getch_char; reflexivity).
      destruct (Z.eqb_spec KEY_ESCAPE1 (Z.land b 255)); [congruence |].
      exact Hl.
    - destruct (Hredraw (set_tty_in (set_tty_in (set_tty_in w
                  (ReadChar KEY_ESCAPE1 :: ReadChar k :: rest)) (ReadChar k :: rest)) rest))
        as [lines Hl].
      exists lines. unfold loop_body.
      erewrite bind_ret by (apply getch_char; exact Hin).
      change (Z.land KEY_ESCAPE0 255) with 27. cbn [Z.eqb KEY_ENTER KEY_CTRLC
        KEY_BACKSPACE KEY_ESCAPE0 Pos.eqb].
      erewrite bind_ret by (apply getch_char; reflexivity).
      change (Z.land KEY_ESCAPE1 255) with 91. cbn [Z.eqb KEY_ESCAPE1 Pos.eqb].
      erewrite bind_ret by (apply getch_char; reflexivity).
      destruct (Z.eqb_spec (Z.land k 255) KEY_UP); [congruence |].
      destruct (Z.eqb_spec (Z.land k 255) KEY_DOWN); [congruence |].
      exact Hl. }
  destruct Hbody as [lines Hbody].
  destruct (redrawn_table st Htab) as (Hp & Hpl & Hm & Hml & Hsame).
  exists lines, (redrawn st). repeat split; try assumption.
  intros H1 H2. unfold after_redraw, write_fd.
  destruct (Z.eqb_spec (tty (l_term st)) 1); [contradiction |].
  destruct (Z.eqb_spec (tty (l_term st)) 2); [contradiction |].
  reflexivity.
Qed.

Lemma unknown_escape_redraws_witness :
  let w0 := world_ex fruit [ReadChar 27; ReadChar 120] in
  let st := state_of (run env_ex 0 w0) in
  let w := world_of (run env_ex 0 w0) in
  exists lines st',
    loop_body st w = Ret (Continue st') (after_redraw st lines (set_tty_in w [])) /\
    l_pattern st' = l_pattern st /\
    l_pattern_len st' = l_pattern_len st /\
    matches (l_entries st') = matches (l_entries st) /\
    matches_len (l_entries st') = matches_len (l_entries st) /\
    (matches_len (l_entries st) > 0 -> st' = st) /\
    (tty (l_term st) <> 1 -> tty (l_term st) <> 2 ->
     tty_out (after_redraw st lines (set_tty_in w [])) =
       tty_out w ++ clear_seq ++ chars ">" ++ pattern_str st ++ [NL] ++ lines).
Proof.
  intros w0 st w.
  apply (unknown_escape_redraws env_ex w0 0 st w [ReadChar KEY_ESCAPE0; ReadChar 120] []).
  - vm_compute. reflexivity.
  - vm_compute. reflexivity.
  - left. exists 120. split; [reflexivity | vm_compute; discriminate].
  - vm_compute. discriminate.
Defined.

(** C4 as the specification states it does not hold.  With the three fruit
    entries on screen, Escape followed by [x] writes a second screen to the
    terminal (38 bytes more); and once [z] has emptied the match table,
    Escape followed by [x] moves [selected] from -1 to 0. *)
Lemma escape_sequence_redraws :
  (let w0 := world_ex fruit [ReadChar 27; ReadChar 120] in
   let st := state_of (run env_ex 0 w0) in
   let w := world_of (run env_ex 0 w0) in
   run env_ex 0 w0 = Ret (Continue st) w /\
   tty_in w = [ReadChar KEY_ESCAPE0; ReadChar 120] /\
   length (tty_out w) = 38%nat /\
   length (tty_out (world_of (loop_body st w))) = 76%nat) /\
  (let w0 := world_ex fruit [ReadChar 122; ReadChar 27; ReadChar 120] in
   let st := state_of (run env_ex 1 w0) in
   let w := world_of (run env_ex 1 w0) in
   run env_ex 1 w0 = Ret (Continue st) w /\
   tty_in w = [ReadChar KEY_ESCAPE0; ReadChar 120] /\
   selected (l_entries st) = -1 /\
   selected (l_entries (state_of (loop_body st w))) = 0).
Proof. vm_compute. repeat split; reflexivity. Qed.

(** ** Typing a pattern *)

Lemma land_255 c : 0 <= c <= 255 -> Z.land c 255 = c.
Proof.
  intros Hc. change 255 with (Z.ones 8). rewrite Z.land_ones by lia.
  apply Z.mod_small. lia.
Qed.

Lemma ch_isvalid_printable c : 32 <= c <= 126 -> ch_isvalid c = true.
Proof.
  intros Hc. unfold ch_isvalid. rewrite char_of_int_id by lia.
  destruct (Z.geb_spec c 32), (Z.leb_spec c 126); simpl; lia.
Qed.

Lemma pattern_str_length w0 st :
  state_ok w0 st -> Z.of_nat (length (pattern_str st)) = l_pattern_len st.
Proof.
  intros (_ & Hlen & Hpl & _). rewrite PATTERN_MAX_eq in *.
  unfold pattern_str. rewrite length_take. lia.
Qed.

(** A printable key at the head of the loop: the process ends when the
    pattern would reach [PATTERN_MAX - 1] characters, and otherwise the
    character is appended and the screen redrawn. *)
Lemma loop_body_printable w0 st w c rest :
  loop_inv w0 st w ->
  tty_in w = ReadChar c :: rest ->
  32 <= c <= 126 ->
  (l_pattern_len st + 1 >= PATTERN_MAX - 1 ->
     loop_body st w = Exit EXIT_FAILURE (pattern_too_long (set_tty_in w rest))) /\
  (l_pattern_len st + 1 < PATTERN_MAX - 1 ->
     l_pattern_len st + 2 <= end_ (l_arena st) - beg (l_arena st) ->
     exists st' w',
       loop_body st w = Ret (Continue st') w' /\
       pattern_str st' = pattern_str st ++ [c] /\
       l_pattern_len st' = l_pattern_len st + 1 /\
       tty_in w' = rest /\
       loop_inv w0 st' w' /\ frame st st').
Proof.
  intros (Hst & Hw & Htab) Hin Hc.
  assert (Hbody : loop_body st w =
    (let* pattern := access (arr_set (l_pattern st) (l_pattern_len st) (char_of_int c)) in
     let pattern_len := l_pattern_len st + 1 in
     if pattern_len >=? PATTERN_MAX - 1 then ERROR_EXIT "pattern too long"
     else
       let* pattern := access (arr_set pattern pattern_len 0) in
       redraw (with_pattern st pattern pattern_len)) (set_tty_in w rest)).
  { unfold loop_body. erewrite bind_ret by (apply getch_char; exact Hin).
    rewrite land_255 by lia.
    unfold KEY_ENTER, KEY_CTRLC, KEY_BACKSPACE, KEY_ESCAPE0.
    destruct (Z.eqb_spec 13 c); [lia |].
    destruct (Z.eqb_spec 3 c); [lia |].
    destruct (Z.eqb_spec 127 c); [lia |].
    destruct (Z.eqb_spec 27 c); [lia |].
    rewrite ch_isvalid_printable by exact Hc. reflexivity. }
  rewrite Hbody. clear Hbody. rewrite char_of_int_id by lia.
  pose proof Hst as (_ & Hlen & Hpl & _). rewrite PATTERN_MAX_eq in *.
  split.
  - intros Hfull.
    rewrite <- (Z2Nat.id (l_pattern_len st)) at 1 by lia.
    rewrite arr_set_insert by lia. cbn [M_bind access].
    destruct (Z.geb_spec (l_pattern_len st + 1) (4096 - 1)); [reflexivity | lia].
  - intros Hroom Harena.
    destruct (state_ok_append w0 st c Hst Hc ltac:(rewrite PATTERN_MAX_eq; lia))
      as (Hs1 & Hs2 & Hst1 & Hstr).
    cbv zeta in Hs1, Hs2, Hst1, Hstr.
    rewrite Hs1. cbn [M_bind access].
    destruct (Z.geb_spec (l_pattern_len st + 1) (4096 - 1)); [lia |].
    rewrite Hs2. cbn [M_bind access].
    set (st1 := with_pattern st _ _) in *.
    pose proof (redraw_cases w0 st1 (set_tty_in w rest) Hst1) as Hcase.
    pose proof (pattern_str_length w0 st Hst) as Hplen.
    destruct (Z.gtb_spec (Z.of_nat (length (pattern_str st1)) + 1)
                (Z.quot (end_ (l_arena st1) - beg (l_arena st1)) sizeof_char))
      as [Hgt | _].
    { unfold sizeof_char in Hgt. rewrite Z.quot_1_r in Hgt.
      rewrite Hstr, length_app in Hgt. simpl in Hgt. subst st1. simpl in Hgt. lia. }
    destruct Hcase as [lines Hl]. rewrite Hl.
    exists (redrawn st1), (after_redraw st1 lines (set_tty_in w rest)).
    destruct Hw as (Hattr & Hout & Herr).
    split; [reflexivity |]. split; [exact Hstr |]. split; [reflexivity |].
    split; [unfold after_redraw; cbn [tty_in set_attr]; rewrite write_fd_tty_in;
            reflexivity |].
    split; [apply loop_inv_redrawn; assumption | repeat split; reflexivity].
Qed.

(** Typing the printable characters [cs], while the pattern stays below
    [PATTERN_MAX - 1] characters and the scratch arena has room for it. *)
Lemma type_chars w0 cs :
  forall st w rest,
    loop_inv w0 st w ->
    tty_in w = List.map ReadChar cs ++ rest ->
    Forall printable cs ->
    l_pattern_len st + Z.of_nat (length cs) <= PATTERN_MAX - 2 ->
    l_pattern_len st + Z.of_nat (length cs) + 1 <= end_ (l_arena st) - beg (l_arena st) ->
    exists st' w',
      loop_n (length cs) st w = Ret (Continue st') w' /\
      pattern_str st' = pattern_str st ++ cs /\
      l_pattern_len st' = l_pattern_len st + Z.of_nat (length cs) /\
      tty_in w' = rest /\
      loop_inv w0 st' w' /\ frame st st'.
Proof.
  induction cs as [| c cs IH]; intros st w rest Hinv Hin Hcs Hmax Hroom.
  - exists st, w. simpl. rewrite app_nil_r, Z.add_0_r.
    split; [reflexivity |]. split; [reflexivity |]. split; [reflexivity |].
    split; [exact Hin |]. split; [exact Hinv | apply frame_refl].
  - inversion Hcs as [| ? ? Hc Hcs']; subst.
    simpl in Hin. simpl length in *. rewrite PATTERN_MAX_eq in *.
    destruct (loop_body_printable w0 st w c _ Hinv Hin Hc) as (_ & Hstep).
    destruct Hstep as (st1 & w1 & Hbody & Hstr1 & Hlen1 & Hin1 & Hinv1 & Hfr1);
      [rewrite ?PATTERN_MAX_eq; lia | lia |].
    destruct (IH st1 w1 rest Hinv1 Hin1 Hcs') as (st' & w' & Hrun & Hstr & Hlen & Hin' & Hinv' & Hfr');
      [rewrite ?PATTERN_MAX_eq; lia | |].
    { destruct Hfr1 as (Ha & _). rewrite Ha. lia. }
    exists st', w'. split.
    + simpl. erewrite bind_ret by exact Hbody. exact Hrun.
    + rewrite Hstr, Hstr1, Hlen, Hlen1, <- app_assoc. simpl.
      split; [reflexivity |]. split; [lia |]. split; [exact Hin' |].
      split; [exact Hinv' | eapply frame_trans; eassumption].
Qed.

Lemma main_init_fits env w0 :
  roomy env w0 ->
  exists st w,
    main_init env w0 = Ret st w /\
    PATTERN_MAX <= end_ (l_arena st) - beg (l_arena st).
Proof.
  intros (Hmalloc & Hopen & Hfit).
  rewrite PATTERN_MAX_eq, MEMORY_MAX_eq in Hfit.
  unfold sizeof_Entries, sizeof_ptr, sizeof_int, sizeof_Terminal in Hfit.
  unfold main_init, main_arena.
  destruct (Z.eqb_spec (malloc_result env) 0); [contradiction |].
  destruct (read_entries_fits env
              {| beg := malloc_result env; end_ := malloc_result env + MEMORY_MAX |} w0)
    as (e & inp & a1 & w1 & Hre & _ & Hbeg & Hend).
  { cbn [beg end_]. rewrite MEMORY_MAX_eq.
    unfold sizeof_Entries, sizeof_ptr, sizeof_int. lia. }
  cbn [beg end_] in Hbeg, Hend. rewrite MEMORY_MAX_eq in Hend.
  unfold sizeof_Entries, sizeof_ptr, sizeof_int in Hend.
  pose proof (read_entries_wf _ _ _ _ _ _ _ Hre) as Hwf.
  erewrite bind_ret by exact Hre.
  unfold get_terminal.
  erewrite bind_ret.
  2:{ erewrite bind_ret
        by (apply alloc_ok; [reflexivity | lia |
            apply quot_fits; unfold sizeof_Terminal; lia]).
      destruct (Z.eqb_spec (open_result env) (-1)); [contradiction |]. reflexivity. }
  set (a2 := {| beg := beg a1; end_ := end_ a1 - sizeof_Terminal * 1 |}).
  set (term := {| tty := open_result env; height := ws_row env mod 2 ^ 16;
                  original := termios_zero |}).
  pose proof (draw_cases term inp e [] a2 w1 Hwf) as Hd.
  destruct (Z.gtb_spec (Z.of_nat (length (@nil Z)) + 1)
              (Z.quot (end_ a2 - beg a2) sizeof_char)) as [Hgt | _].
  { unfold sizeof_char in Hgt. rewrite Z.quot_1_r in Hgt. subst a2.
    cbn [beg end_] in Hgt. unfold sizeof_Terminal in Hgt. simpl length in Hgt. lia. }
  destruct Hd as [lines Hd]. cbv zeta in Hd.
  erewrite bind_ret by exact Hd.
  cbn [M_bind set_terminal_mode].
  erewrite bind_ret.
  2:{ apply alloc_ok; [reflexivity | rewrite PATTERN_MAX_eq; lia |].
      apply quot_fits; [reflexivity | rewrite PATTERN_MAX_eq; lia |].
      subst a2. cbn [beg end_]. rewrite PATTERN_MAX_eq.
      unfold sizeof_char, sizeof_Terminal. lia. }
  cbn [M_ret]. do 2 eexists. split; [reflexivity |].
  cbn [l_arena beg end_]. subst a2. cbn [beg end_].
  rewrite PATTERN_MAX_eq. unfold sizeof_char, sizeof_Terminal. lia.
Qed.

(** Typing [cs] from the start of the program, in a roomy arena: up to
    [PATTERN_MAX - 2] printable characters leave the program waiting for the
    next key with [cs] as its pattern and nothing on standard error; with
    [PATTERN_MAX - 1] of them the last one ends the process, in raw mode,
    with a failure status and the diagnostic. *)
Lemma typing_outcome env w0 cs :
  roomy env w0 ->
  tty_in w0 = List.map ReadChar cs ->
  Forall printable cs ->
  (Z.of_nat (length cs) <= PATTERN_MAX - 2 ->
     exists st w,
       run env (length cs) w0 = Ret (Continue st) w /\
       pattern_str st = cs /\
       main env w0 = Blocked w /\
       (open_result env <> 2 -> std_err w = std_err w0)) /\
  (Z.of_nat (length cs) = PATTERN_MAX - 1 ->
     exists w,
       main env w0 = Exit EXIT_FAILURE w /\
       tty_attr w = cfmakeraw (tty_attr w0) /\
       (open_result env <> 2 ->
        std_err w = std_err w0 ++ chars "pattern too long" ++ [NL])).
Proof.
  intros Hroomy Hin Hcs.
  destruct (main_init_fits env w0 Hroomy) as (st0 & wi & Hinit & Harena).
  destruct (main_init_inv env w0 st0 wi Hinit) as (Hinv0 & Hin0 & Htty0 & Hlen0).
  rewrite PATTERN_MAX_eq in *.
  assert (Hstr0 : pattern_str st0 = []) by (unfold pattern_str; rewrite Hlen0; reflexivity).
  split.
  - intros Hlen.
    destruct (type_chars w0 cs st0 wi [] Hinv0) as (st & w & Hrun & Hstr & _ & Hin' & Hinv & Hfr);
      [rewrite Hin0, Hin, app_nil_r; reflexivity | exact Hcs
      | rewrite PATTERN_MAX_eq; lia | lia |].
    assert (Hrun' : run env (length cs) w0 = Ret (Continue st) w).
    { unfold run. erewrite bind_ret by exact Hinit. exact Hrun. }
    exists st, w. split; [exact Hrun' |]. split; [rewrite Hstr, Hstr0; reflexivity |].
    split.
    + apply (main_after_blocked env w0 (length cs) st w w Hrun').
      unfold loop_body, M_bind.
      pose proof (getch_cases (l_term st) w) as Hg. rewrite Hin' in Hg.
      rewrite Hg. reflexivity.
    + intros Hfd. destruct Hinv as (_ & (_ & _ & Herr) & _). apply Herr.
      destruct Hfr as (_ & Ht & _). rewrite Ht, Htty0. exact Hfd.
  - intros Hlen.
    destruct (exists_last (l := cs)) as (cs' & c & ->).
    { intros ->. simpl in Hlen. lia. }
    rewrite length_app in Hlen. simpl length in Hlen.
    apply Forall_app in Hcs as [Hcs' Hc]. inversion Hc as [| ? ? Hc' _]; subst.
    rewrite map_app in Hin. simpl in Hin.
    destruct (type_chars w0 cs' st0 wi [ReadChar c] Hinv0)
      as (st & w & Hrun & Hstr & Hplen & Hin' & Hinv & Hfr);
      [rewrite Hin0, Hin; reflexivity | exact Hcs'
      | rewrite PATTERN_MAX_eq; lia | lia |].
    assert (Hrun' : run env (length cs') w0 = Ret (Continue st) w).
    { unfold run. erewrite bind_ret by exact Hinit. exact Hrun. }
    destruct (loop_body_printable w0 st w c [] Hinv Hin' Hc') as (Hexit & _).
    specialize (Hexit ltac:(rewrite PATTERN_MAX_eq; lia)).
    exists (pattern_too_long (set_tty_in w [])).
    split; [apply (main_after_exit env w0 (length cs') st w _ _ Hrun' Hexit) |].
    destruct Hinv as (_ & (Hattr & _ & Herr) & _).
    unfold pattern_too_long. rewrite write_fd_attr, write_fd_std_err.
    split; [exact Hattr |].
    intros Hfd. cbn [std_err set_tty_in]. rewrite Herr; [reflexivity |].
    destruct Hfr as (_ & Ht & _). rewrite Ht, Htty0. exact Hfd.
Qed.


Lemma roomy_ex keys : roomy env_ex (world_ex fruit keys).
Proof. split; [discriminate | split; [discriminate | vm_compute; discriminate]]. Qed.


Lemma printable_replicate n c : printable c -> Forall printable (replicate n c).
Proof. intros Hc. apply Forall_replicate. exact Hc. Qed.

(** The limit is two below the size of the buffer: with [PATTERN_MAX - 1]
    (4095) printable characters typed the process has ended with
    [EXIT_FAILURE] and the diagnostic. *)
Lemma pattern_below_max_rejected :
  let cs := replicate (Z.to_nat (PATTERN_MAX - 1)) 97 in
  Z.of_nat (length cs) < PATTERN_MAX /\
  Forall printable cs /\
  exists w,
    main env_ex (world_ex fruit (List.map ReadChar cs)) = Exit EXIT_FAILURE w /\
    std_err w = chars "pattern too long" ++ [NL].
Proof.
  intros cs.
  assert (Hlen : Z.of_nat (length cs) = PATTERN_MAX - 1).
  { subst cs. rewrite length_replicate, Z2Nat.id; [reflexivity | discriminate]. }
  assert (Hcs : Forall printable cs).
  { apply printable_replicate. unfold printable. lia. }
  split; [rewrite Hlen; lia | split; [exact Hcs |]].
  destruct (typing_outcome env_ex (world_ex fruit (List.map ReadChar cs)) cs
              (roomy_ex _) eq_refl Hcs) as (_ & Hfatal).
  destruct (Hfatal Hlen) as (w & Hmain & _ & Herr).
  exists w. split; [exact Hmain |]. apply Herr. discriminate.
Qed.

(** ** Exit paths and the terminal *)

(** C3 (fails on the code).  A return from [main], after a confirmation or
    a cancellation, does leave the terminal with the attributes it started
    with.  The fatal exits inside the loop do not: after a terminal read
    error, and after a pattern grown too long, the process has ended with
    [EXIT_FAILURE] and the terminal is still in raw mode. *)
Theorem fatal_exit_leaves_raw_mode :
  (forall env w0 status w,
     main env w0 = Ret status w ->
     status = EXIT_SUCCESS /\ tty_attr w = tty_attr w0) /\
  (let w0 := world_ex fruit [ReadChar 97; ReadError] in
   let w := world_of (main env_ex w0) in
   main env_ex w0 = Exit EXIT_FAILURE w /\
   std_err w = chars "tty input error" ++ [NL] /\
   tty_attr w = cfmakeraw (tty_attr w0) /\
   tty_attr w <> tty_attr w0) /\
  (let cs := replicate (Z.to_nat (PATTERN_MAX - 1)) 97 in
   let w0 := world_ex fruit (List.map ReadChar cs) in
   exists w,
     main env_ex w0 = Exit EXIT_FAILURE w /\
     std_err w = chars "pattern too long" ++ [NL] /\
     tty_attr w = cfmakeraw (tty_attr w0) /\
     tty_attr w <> tty_attr w0).
Proof.
  split; [| split].
  - intros env w0 status w Hmain.
    pose proof (main_outcome env w0) as Ho. rewrite Hmain in Ho. exact Ho.
  - vm_compute. repeat split; try reflexivity. discriminate.
  - intros cs w0.
    assert (Hlen : Z.of_nat (length cs) = PATTERN_MAX - 1).
    { subst cs. rewrite length_replicate, Z2Nat.id; [reflexivity | discriminate]. }
    assert (Hcs : Forall printable cs).
    { apply printable_replicate. unfold printable. lia. }
    destruct (typing_outcome env_ex w0 cs (roomy_ex _) eq_refl Hcs) as (_ & Hfatal).
    destruct (Hfatal Hlen) as (w & Hmain & Hattr & Herr).
    exists w. split; [exact Hmain |]. split; [apply Herr; discriminate |].
    split; [exact Hattr |]. rewrite Hattr. vm_compute. discriminate.
Qed.

Lemma matches_increasing_selected_clamped_witness :
  let scratch := {| beg := 100; end_ := 200 |} in
  let w := world_ex [] [] in
  let pattern := chars "a" in
  (forall e' w',
     update_matches inp_ab e_ab pattern scratch w = Ret e' w' ->
     entries_wf inp_ab e' /\ matches_ok e') /\
  (forall e' w',
     draw term_ex inp_ab e_ab pattern scratch w = Ret e' w' ->
     entries_wf inp_ab e' /\ matches_ok e' /\ selected_ok e') /\
  (Z.of_nat (length pattern) + 1 <= end_ scratch - beg scratch ->
     exists e' w', draw term_ex inp_ab e_ab pattern scratch w = Ret e' w') /\
  (matches_ok e_ab ->
     (forall n, matches_ok (set_selected_clamped e_ab n) /\
                selected_ok (set_selected_clamped e_ab n)) /\
     matches_ok (select_next e_ab) /\ selected_ok (select_next e_ab) /\
     matches_ok (select_prev e_ab) /\ selected_ok (select_prev e_ab)).
Proof.
  intros scratch w pattern.
  apply (matches_increasing_selected_clamped term_ex inp_ab e_ab pattern scratch w).
  split; [reflexivity | split; [reflexivity |]].
  constructor; [eexists; reflexivity | constructor].
Defined.

(** * Further properties of the code *)

(** ** The read and write loops *)

Local Ltac read_done :=
  rewrite ?take_0, ?take_nil, ?app_nil_r; cbn [length];
  change (Z.of_nat 0) with 0; rewrite Z.add_0_r; reflexivity.

Lemma fullread_for_spec fuel :
  forall src off len buf,
    len - off <= Z.of_nat fuel ->
    exists src',
      fullread_for fuel src off len buf =
        Some (off + Z.of_nat (length (take (Z.to_nat (len - off)) (delivered src))),
              buf ++ take (Z.to_nat (len - off)) (delivered src), src').
Proof.
  induction fuel as [| fuel IH]; intros src off len buf Hfuel.
  - cbn [fullread_for]. destruct (off <? len) eqn:Hlt; [apply Z.ltb_lt in Hlt; lia |].
    apply Z.ltb_ge in Hlt. replace (Z.to_nat (len - off)) with 0%nat by lia.
    exists src. read_done.
  - cbn [fullread_for]. destruct (off <? len) eqn:Hlt.
    2:{ apply Z.ltb_ge in Hlt. replace (Z.to_nat (len - off)) with 0%nat by lia.
        exists src. read_done. }
    apply Z.ltb_lt in Hlt.
    destruct src as [| [[| b bytes] | |] rest]; cbn [read_call delivered].
    + exists []. read_done.
    + exists rest. cbn [length]. change (Z.of_nat 0) with 0.
      replace (Z.to_nat (Z.min (len - off) 0)) with 0%nat by lia.
      cbn. read_done.
    + set (bs := b :: bytes).
      set (k := Z.to_nat (Z.min (len - off) (Z.of_nat (length bs)))).
      assert (Hk : (1 <= k)%nat) by (subst k bs; cbn [length]; lia).
      destruct (Z.of_nat k <? 1) eqn:Hr; [apply Z.ltb_lt in Hr; lia |].
      destruct (k <? length bs)%nat eqn:Hkl.
      * apply Nat.ltb_lt in Hkl.
        assert (Hk' : k = Z.to_nat (len - off)) by (subst k; lia).
        destruct (IH (Data (drop k bs) :: rest) (off + Z.of_nat k) len (buf ++ take k bs))
          as [src' Heq]; [lia |].
        exists src'. rewrite Heq.
        replace (Z.to_nat (len - (off + Z.of_nat k))) with 0%nat by lia.
        rewrite take_0, app_nil_r. cbn [length]. rewrite Z.add_0_r.
        change (b :: bytes ++ delivered rest) with (bs ++ delivered rest).
        rewrite <- Hk'. rewrite take_app_le by lia.
        rewrite length_take. repeat f_equal. lia.
      * apply Nat.ltb_ge in Hkl.
        assert (Hk' : k = length bs) by (subst k; lia).
        destruct (IH rest (off + Z.of_nat k) len (buf ++ take k bs))
          as [src' Heq]; [lia |].
        exists src'. rewrite Heq.
        change (b :: bytes ++ delivered rest) with (bs ++ delivered rest).
        rewrite (take_app_ge bs) by lia.
        rewrite Hk', firstn_all. rewrite <- app_assoc.
        rewrite !length_app.
        replace (Z.to_nat (len - (off + Z.of_nat (length bs))))
          with (Z.to_nat (len - off) - length bs)%nat by lia.
        f_equal. f_equal. f_equal. lia.
    + exists rest. read_done.
    + exists rest. read_done.
Qed.

Lemma int_of_ptrdiff_id z : 0 <= z < 2 ^ 31 -> int_of_ptrdiff z = z.
Proof.
  intros Hz. unfold int_of_ptrdiff. rewrite Z.mod_small by lia.
  destruct (Z.ltb_spec z (2 ^ 31)); lia.
Qed.

(** X1: [fullread] returns the number of bytes it stored, and these are the
    first [len] bytes that the descriptor delivers before its first end of
    file or error, however the [read] calls cut them up; the loop ends within
    [len] iterations, and an error ends the input like an end of file.  This
    is what [fullread] of the embedding of [main] returns on a standard input
    that delivers these bytes. *)
Theorem fullread_collects_delivered src len :
  len < 2 ^ 31 ->
  let data := take (Z.to_nat len) (delivered src) in
  (exists src',
     fullread_calls src len = Some (Z.of_nat (length data), data, src')) /\
  (forall w, std_in w = delivered src ->
     exists w', fullread len w = Ret data w' /\
       std_in w' = drop (Z.to_nat len) (delivered src)).
Proof.
  intros Hlen data. split.
  - destruct (fullread_for_spec (Z.to_nat len) src 0 len []) as [src' H]; [lia |].
    exists src'. unfold fullread_calls. rewrite H. cbn.
    rewrite Z.sub_0_r. fold data. rewrite int_of_ptrdiff_id; [reflexivity |].
    subst data. rewrite length_take. lia.
  - intros w Hw. unfold fullread. rewrite Hw.
    set (n := Z.to_nat (Z.min len (Z.of_nat (length (delivered src))))).
    assert (Htake : take n (delivered src) = data).
    { subst n data.
      destruct (Z_le_gt_dec len (Z.of_nat (length (delivered src)))) as [Hle | Hgt].
      - rewrite Z.min_l by lia. reflexivity.
      - rewrite Z.min_r by lia. rewrite Nat2Z.id.
        rewrite !take_ge by lia. reflexivity. }
    assert (Hdrop : drop n (delivered src) = drop (Z.to_nat len) (delivered src)).
    { subst n.
      destruct (Z_le_gt_dec len (Z.of_nat (length (delivered src)))) as [Hle | Hgt].
      - rewrite Z.min_l by lia. reflexivity.
      - rewrite Z.min_r by lia. rewrite Nat2Z.id.
        rewrite !drop_ge by lia. reflexivity. }
    rewrite Htake, Hdrop. eexists. split; reflexivity.
Qed.

Lemma fullread_collects_delivered_witness :
  let src := [Data (chars "Ap"); Data (chars "ple"); Err; Data (chars "x")] in
  let data := take (Z.to_nat 4) (delivered src) in
  (exists src',
     fullread_calls src 4 = Some (Z.of_nat (length data), data, src')) /\
  (forall w, std_in w = delivered src ->
     exists w', fullread 4 w = Ret data w' /\
       std_in w' = drop (Z.to_nat 4) (delivered src)).
Proof.
  intros src.
  apply (fullread_collects_delivered src 4). reflexivity.
Defined.

(** X2: [writestr] (through [fullwrite]) writes a prefix of the string, in
    order and once, within [strlen(str)] iterations.  It returns 0 when the
    whole string is written and -1 when a [write] returned less than 1
    before that; when every [write] takes at least one byte the whole string
    is written, however the calls cut it up. *)
Theorem fullwrite_writes_prefix dev str out :
  exists status k dev',
    writestr_calls dev str out = Some (status, out ++ take k str, dev') /\
    (status = 0 /\ take k str = str \/
     status = -1 /\ (k < length str)%nat /\ Exists (fun c => c < 1) dev) /\
    (Forall (fun c => 1 <= c) dev -> status = 0 /\ take k str = str).
Proof.
  destruct (fullwrite_for_spec (length str) dev 0 str out)
    as (status & k & dev' & Heq & Hst); [lia | lia |].
  exists status, k, dev'. rewrite drop_0 in Heq.
  assert (Hcases : status = 0 /\ take k str = str \/
                   status = -1 /\ (k < length str)%nat /\ Exists (fun c => c < 1) dev).
  { destruct Hst as [[-> ->] | (-> & Hlt & Hex)].
    - left. split; [reflexivity |]. apply take_ge. lia.
    - right. split; [reflexivity |]. split; [lia | exact Hex]. }
  split; [exact Heq |]. split; [exact Hcases |].
  intros Hall. destruct Hcases as [H | (_ & _ & Hex)]; [exact H |].
  apply Exists_exists in Hex. destruct Hex as (c & Hin & Hc).
  rewrite Forall_forall in Hall. specialize (Hall c Hin). lia.
Qed.

(** ** More on the matcher *)

Lemma lockstep_prefix pattern :
  forall str,
    lockstep_match pattern str = true <->
    exists rest, List.map fold_case str = pattern ++ rest.
Proof.
  induction pattern as [| a pattern IH]; intros str.
  - cbn. split; [intros _; eexists; reflexivity | reflexivity].
  - destruct str as [| b str]; cbn [lockstep_match List.map].
    + split; [discriminate | intros [rest H]; discriminate].
    + rewrite andb_true_iff, Z.eqb_eq, IH. split.
      * intros [-> [rest H]]. exists rest. cbn. rewrite H. reflexivity.
      * intros [rest H]. cbn in H. injection H as H1 H2.
        split; [symmetry; exact H1 | exists rest; exact H2].
Qed.

Lemma map_xtolower_fold str :
  Forall is_char str -> List.map xtolower str = List.map fold_case str.
Proof.
  induction 1 as [| b str [_ Hb] _ IH]; [reflexivity |].
  cbn. rewrite xtolower_fold by exact Hb. rewrite IH. reflexivity.
Qed.

(** X3: [xtolower] sends the letters ['A'] to ['Z'] to ['a'] to ['z'] and
    leaves every other [char] alone, the negative ones included (the
    unsigned comparison of line 104 wraps them far above 26); it is
    idempotent and its result is a [char]. *)
Theorem xtolower_ascii c :
  -128 <= c < 128 ->
  (65 <= c <= 90 -> xtolower c = c + 32) /\
  (~ 65 <= c <= 90 -> xtolower c = c) /\
  xtolower (xtolower c) = xtolower c /\
  -128 <= xtolower c < 128.
Proof.
  intros Hc. rewrite !xtolower_fold by exact Hc.
  assert (Hf : -128 <= fold_case c < 128).
  { unfold fold_case. destruct (Z.leb_spec 65 c), (Z.leb_spec c 90); simpl; lia. }
  rewrite xtolower_fold by exact Hf.
  unfold fold_case.
  destruct (Z.leb_spec 65 c), (Z.leb_spec c 90); simpl;
    (split; [lia | split; [lia | split; [| lia]]]);
    destruct (Z.leb_spec 65 (c + 32)), (Z.leb_spec (c + 32) 90); simpl; try lia;
    destruct (Z.leb_spec 65 c), (Z.leb_spec c 90); simpl; lia.
Qed.

Lemma xtolower_ascii_witness :
  (65 <= 65 <= 90 -> xtolower 65 = 65 + 32) /\
  (~ 65 <= 65 <= 90 -> xtolower 65 = 65) /\
  xtolower (xtolower 65) = xtolower 65 /\
  -128 <= xtolower 65 < 128.
Proof. apply (xtolower_ascii 65). lia. Defined.

(** X4: [is_match] holds exactly when the pattern, taken as it is, is a
    prefix of the candidate lowered by [xtolower]: a candidate shorter than
    the pattern never matches, and an uppercase letter in the pattern
    matches nothing. *)
Theorem is_match_prefix_of_lowered pattern str :
  Forall (fun c => c <> 0) pattern ->
  Forall is_char str ->
  is_match pattern str = true <->
  exists rest, List.map xtolower str = pattern ++ rest.
Proof.
  intros Hp Hs. rewrite is_match_lockstep by assumption.
  rewrite map_xtolower_fold by exact Hs. apply lockstep_prefix.
Qed.

Lemma is_chars_nonzero str :
  forallb (fun c => negb (c =? 0) && (-128 <=? c) && (c <? 128)) str = true ->
  Forall is_char str.
Proof.
  induction str as [| c str IH]; cbn [forallb]; intros H; constructor.
  - apply andb_true_iff in H. destruct H as [H _].
    rewrite !andb_true_iff, negb_true_iff, Z.eqb_neq, Z.leb_le, Z.ltb_lt in H.
    split; lia.
  - apply IH. apply andb_true_iff in H. apply H.
Qed.

Lemma is_match_prefix_of_lowered_witness :
  is_match (chars "av") (chars "Avocado") = true <->
  exists rest, List.map xtolower (chars "Avocado") = chars "av" ++ rest.
Proof.
  apply (is_match_prefix_of_lowered (chars "av") (chars "Avocado")).
  - repeat constructor; discriminate.
  - apply is_chars_nonzero. reflexivity.
Defined.

(** ** More on the arena *)

(** X5: the capacity check of [alloc] is exact.  For a positive item size
    and a count that is not negative, on an arena whose cursors have not
    crossed, the call returns when [size * count] bytes are free, with the
    top cursor moved down by that much and still above the bottom one, and
    otherwise ends the process with [EXIT_FAILURE] and the line
    [out of memory] on descriptor 2, before it touches the memory. *)
Theorem alloc_exact_capacity h arena size count w :
  0 < size -> 0 <= count -> beg arena <= end_ arena ->
  (size * count <= end_ arena - beg arena ->
     exists h',
       alloc_raw h arena size count w =
         Ret (end_ arena - size * count,
              {| beg := beg arena; end_ := end_ arena - size * count |}, h') w /\
       beg arena <= end_ arena - size * count) /\
  (end_ arena - beg arena < size * count ->
     alloc_raw h arena size count w =
       Exit EXIT_FAILURE (write_fd 2 (chars "out of memory" ++ [NL]) w)).
Proof.
  intros Hsize Hcount Harena. unfold alloc_raw. split.
  - intros Hfit.
    pose proof (quot_fits _ _ _ Hsize Hcount Hfit) as Hq.
    destruct (Z.gtb_spec count (Z.quot (end_ arena - beg arena) size)); [lia |].
    eexists. split; [reflexivity | lia].
  - intros Hno.
    destruct (Z.gtb_spec count (Z.quot (end_ arena - beg arena) size)) as [| Hle];
      [reflexivity |].
    exfalso. assert (Hpos : 0 < count) by nia.
    pose proof (fits_quot _ _ _ Hsize Hpos Hle). lia.
Qed.

Lemma alloc_exact_capacity_witness :
  (8 * 3 <= 24 - 0 ->
     exists h',
       alloc_raw (fun _ => 1) {| beg := 0; end_ := 24 |} 8 3 (world_ex [] []) =
         Ret (24 - 8 * 3, {| beg := 0; end_ := 24 - 8 * 3 |}, h') (world_ex [] []) /\
       0 <= 24 - 8 * 3) /\
  (24 - 0 < 8 * 3 ->
     alloc_raw (fun _ => 1) {| beg := 0; end_ := 24 |} 8 3 (world_ex [] []) =
       Exit EXIT_FAILURE (write_fd 2 (chars "out of memory" ++ [NL]) (world_ex [] []))).
Proof.
  apply (alloc_exact_capacity (fun _ => 1) {| beg := 0; end_ := 24 |} 8 3 (world_ex [] []));
    simpl; lia.
Defined.

(** X6: a request for zero items succeeds on any arena whose cursors have not
    crossed, a full one included: it returns the top cursor, moves nothing
    and writes no byte of memory (the [memset] of line 94 is skipped). *)
Theorem alloc_zero_count h arena size w :
  0 < size -> beg arena <= end_ arena ->
  alloc_raw h arena size 0 w = Ret (end_ arena, arena, h) w.
Proof.
  intros Hsize Harena. unfold alloc_raw.
  assert (Hq : 0 <= Z.quot (end_ arena - beg arena) size)
    by (apply Z.quot_pos; lia).
  destruct (Z.gtb_spec 0 (Z.quot (end_ arena - beg arena) size)); [lia |].
  rewrite Z.mul_0_r, Z.sub_0_r. destruct arena. reflexivity.
Qed.

Lemma alloc_zero_count_witness :
  alloc_raw (fun _ => 1) {| beg := 16; end_ := 16 |} 8 0 (world_ex [] []) =
    Ret (16, {| beg := 16; end_ := 16 |}, fun _ => 1) (world_ex [] []).
Proof.
  apply (alloc_zero_count (fun _ => 1) {| beg := 16; end_ := 16 |} 8 (world_ex [] []));
    simpl; lia.
Defined.

Lemma alloc_raw_ret_inv h arena size count w ptr arena' h' w' :
  alloc_raw h arena size count w = Ret (ptr, arena', h') w' ->
  w' = w /\ ptr = end_ arena - size * count /\
  arena' = {| beg := beg arena; end_ := end_ arena - size * count |} /\
  h' = (if count =? 0 then h else memset h ptr 0 size) /\
  count <= Z.quot (end_ arena - beg arena) size.
Proof.
  unfold alloc_raw. destruct (Z.gtb_spec count (Z.quot (end_ arena - beg arena) size));
    [discriminate |].
  unfold M_ret. intros [= <- <- <- <-]. repeat split; try reflexivity. lia.
Qed.

(** X7: two allocations in a row do not overlap and stay inside the arena:
    the second block ends where the first begins and starts at or above the
    bottom cursor, and zeroing its first item leaves every byte of the first
    block as it was. *)
Theorem alloc_blocks_disjoint h arena s1 c1 s2 c2 w p1 a1 h1 p2 a2 h2 :
  0 < s1 -> 0 <= c1 -> 0 < s2 -> 0 <= c2 ->
  beg arena <= end_ arena ->
  alloc_raw h arena s1 c1 w = Ret (p1, a1, h1) w ->
  alloc_raw h1 a1 s2 c2 w = Ret (p2, a2, h2) w ->
  beg arena <= p2 /\ p2 + s2 * c2 = p1 /\ p1 + s1 * c1 = end_ arena /\
  beg a2 = beg arena /\ end_ a2 = p2 /\
  forall a, p1 <= a < p1 + s1 * c1 -> h2 a = h1 a.
Proof.
  intros Hs1 Hc1 Hs2 Hc2 Harena H1 H2.
  apply alloc_raw_ret_inv in H1 as (_ & -> & -> & _ & Hq1).
  apply alloc_raw_ret_inv in H2 as (_ & -> & -> & -> & Hq2).
  cbn [beg end_] in *.
  assert (Hfit1 : s1 * c1 <= end_ arena - beg arena).
  { destruct (Z.eq_dec c1 0) as [-> | ]; [lia |]. apply fits_quot; lia. }
  assert (Hfit2 : s2 * c2 <= end_ arena - s1 * c1 - beg arena).
  { destruct (Z.eq_dec c2 0) as [-> | ]; [lia |]. apply fits_quot; lia. }
  repeat split; try lia.
  intros a Ha. destruct (Z.eqb_spec c2 0); [reflexivity |].
  unfold memset.
  destruct (Z.leb_spec (end_ arena - s1 * c1 - s2 * c2) a),
           (Z.ltb_spec a (end_ arena - s1 * c1 - s2 * c2 + s2)); cbn; try reflexivity.
  exfalso. nia.
Qed.

Lemma alloc_blocks_disjoint_witness :
  let arena := {| beg := 0; end_ := 64 |} in
  let h := fun _ : Z => 1 in
  let h1 := memset h 40 0 8 in
  let h2 := memset h1 28 0 4 in
  alloc_raw h arena 8 3 (world_ex [] []) =
    Ret (40, {| beg := 0; end_ := 40 |}, h1) (world_ex [] []) /\
  alloc_raw h1 {| beg := 0; end_ := 40 |} 4 3 (world_ex [] []) =
    Ret (28, {| beg := 0; end_ := 28 |}, h2) (world_ex [] []) /\
  (0 <= 28 /\ 28 + 4 * 3 = 40 /\ 40 + 8 * 3 = 64 /\
   beg {| beg := 0; end_ := 28 |} = 0 /\ end_ {| beg := 0; end_ := 28 |} = 28 /\
   forall a, 40 <= a < 40 + 8 * 3 -> h2 a = h1 a).
Proof.
  intros arena h h1 h2.
  split; [reflexivity |]. split; [reflexivity |].
  apply (alloc_blocks_disjoint h arena 8 3 4 3 (world_ex [] []) 40
           {| beg := 0; end_ := 40 |} h1 28 {| beg := 0; end_ := 28 |} h2);
    try reflexivity; simpl; lia.
Defined.

(** ** More on [read_entries] *)

Lemma alloc_fail arena size count w :
  0 < size -> 0 <= count -> beg arena <= end_ arena ->
  end_ arena - beg arena < size * count ->
  alloc arena size count w = Exit EXIT_FAILURE (out_of_memory w).
Proof.
  intros Hsize Hcount Harena Hno. unfold alloc.
  destruct (Z.gtb_spec count (Z.quot (end_ arena - beg arena) size)) as [| Hle];
    [reflexivity |].
  exfalso. assert (Hpos : 0 < count) by nia.
  pose proof (fits_quot _ _ _ Hsize Hpos Hle). lia.
Qed.

Lemma bind_exit {A B} (c : M A) (k : A -> M B) w s w1 :
  c w = Exit s w1 -> M_bind c k w = Exit s w1.
Proof. unfold M_bind. intros ->. reflexivity. Qed.

(** [read_entries] on an arena with more than [sizeof(Entries)] bytes, up to
    the two tables. *)
Lemma read_entries_tables env arena w :
  sizeof_Entries < end_ arena - beg arena ->
  let data :=
    take (Z.to_nat (Z.min (end_ arena - sizeof_Entries - beg arena - 1)
                      (Z.of_nat (length (std_in w))))) (std_in w) in
  let n := Z.of_nat (length (runs data)) in
  let w1 := {| tty_attr := tty_attr w; tty_in := tty_in w; tty_out := tty_out w;
               std_in := drop (length data) (std_in w);
               std_out := std_out w; std_err := std_err w;
               out_dev := out_dev w |} in
  (sizeof_Entries + Z.of_nat (length data) + 1 + (sizeof_ptr + sizeof_int) * n
     <= end_ arena - beg arena ->
   exists e inp arena',
     read_entries env arena w = Ret (e, inp, arena') w1) /\
  (end_ arena - beg arena <
     sizeof_Entries + Z.of_nat (length data) + 1 + (sizeof_ptr + sizeof_int) * n ->
   read_entries env arena w = Exit EXIT_FAILURE (out_of_memory w1)).
Proof.
  intros Hroom data n w1.
  assert (Hdata : Z.of_nat (length data) <= end_ arena - beg arena - sizeof_Entries - 1).
  { subst data. rewrite length_take. unfold sizeof_Entries in *. lia. }
  assert (Hlen : length data =
                 Z.to_nat (Z.min (end_ arena - sizeof_Entries - beg arena - 1)
                             (Z.of_nat (length (std_in w))))).
  { subst data. rewrite length_take. lia. }
  assert (Hhead :
    read_entries env arena w =
    (let arena1 := {| beg := beg arena + (Z.of_nat (length data) + 1);
                      end_ := end_ arena - sizeof_Entries |} in
     let* (p_entries, arena2) := alloc arena1 sizeof_ptr n in
     let ents := fresh env p_entries sizeof_ptr n in
     let* (p_matches, arena3) := alloc arena2 sizeof_int n in
     let mats := fresh env p_matches sizeof_int n in
     let* (buf', ents') := access (chop_lines (data ++ [NL]) (beg arena) 0 0 0 ents) in
     M_ret ({| entries := ents'; matches := mats; entries_len := n;
               matches_len := 0; selected := 0 |},
            {| input_base := beg arena; input_bytes := buf' |},
            arena3)) w1).
  { unfold read_entries.
    erewrite bind_ret
      by (apply alloc_ok; [reflexivity | lia |
                           apply quot_fits; [reflexivity | lia | unfold sizeof_Entries in *; lia]]).
    cbn [beg end_].
    assert (Hrd : fullread (end_ arena - sizeof_Entries * 1 - beg arena - 1) w = Ret data w1).
    { unfold fullread. subst w1. rewrite Hlen.
      replace (end_ arena - sizeof_Entries * 1 - beg arena - 1)
        with (end_ arena - sizeof_Entries - beg arena - 1) by lia.
      reflexivity. }
    erewrite bind_ret by exact Hrd.
    cbn [beg end_].
    pose proof (count_lines_closed_runs (data ++ [NL]) 0 []) as Hcount.
    change (Z.of_nat (length (@nil Z))) with 0 in Hcount.
    rewrite Z.add_0_l, closed_runs_runs in Hcount.
    rewrite Hcount. rewrite Z.mul_1_r. reflexivity. }
  cbv zeta in Hhead. rewrite Hhead. clear Hhead.
  unfold sizeof_Entries, sizeof_ptr, sizeof_int in *.
  split.
  - intros Hfit.
    erewrite bind_ret by (apply alloc_ok; [lia | lia | apply quot_fits; simpl; lia]).
    cbn [beg end_].
    erewrite bind_ret by (apply alloc_ok; [lia | lia | apply quot_fits; simpl; lia]).
    cbn [beg end_].
    match goal with |- context [chop_lines _ _ _ _ _ ?ents] =>
      destruct (chop_lines_spec (data ++ [NL]) [] [] 0 ents (beg arena))
        as (buf2 & ents2 & Hch2 & _) end.
    { constructor. }
    { rewrite length_fresh, closed_runs_runs. lia. }
    change (Z.of_nat (length (@nil Z) + length (@nil Z))) with 0 in Hch2.
    change (Z.of_nat (length (@nil Z))) with 0 in Hch2.
    change (Z.of_nat 0) with 0 in Hch2.
    rewrite Hch2. cbn [access M_bind M_ret].
    do 3 eexists. reflexivity.
  - intros Hno.
    destruct (Z_le_gt_dec (8 * n) (end_ arena - 32 - (beg arena + (Z.of_nat (length data) + 1))))
      as [Hfit1 | Hno1].
    + erewrite bind_ret by (apply alloc_ok; [lia | lia | apply quot_fits; simpl; lia]).
      cbn [beg end_].
      apply bind_exit. apply alloc_fail; simpl; lia.
    + apply bind_exit. apply alloc_fail; simpl; lia.
Qed.

(** X8: on an arena with more than [sizeof(Entries)] bytes, [read_entries]
    reads at most what the arena can hold beside the struct and the added
    line feed, and returns exactly when the two tables for the entries of
    what it read fit as well; otherwise the process ends with [EXIT_FAILURE]
    and [out of memory] on descriptor 2.  An input that fills the arena is
    cut short, and then any entry in the part read is one too many. *)
Theorem read_entries_out_of_memory env arena w :
  sizeof_Entries < end_ arena - beg arena ->
  let data :=
    take (Z.to_nat (Z.min (end_ arena - sizeof_Entries - beg arena - 1)
                      (Z.of_nat (length (std_in w))))) (std_in w) in
  let n := Z.of_nat (length (runs data)) in
  let need := sizeof_Entries + Z.of_nat (length data) + 1
              + (sizeof_ptr + sizeof_int) * n in
  (need <= end_ arena - beg arena ->
     exists e inp arena' w',
       read_entries env arena w = Ret (e, inp, arena') w' /\
       entries_len e = n /\
       std_in w' = drop (length data) (std_in w)) /\
  (end_ arena - beg arena < need ->
     exists w',
       read_entries env arena w = Exit EXIT_FAILURE w' /\
       std_err w' = std_err w ++ chars "out of memory" ++ [NL] /\
       std_out w' = std_out w /\
       std_in w' = drop (length data) (std_in w)) /\
  (end_ arena - beg arena - sizeof_Entries - 1 <= Z.of_nat (length (std_in w)) ->
     runs data <> [] -> end_ arena - beg arena < need).
Proof.
  intros Hroom data n need.
  destruct (read_entries_tables env arena w Hroom) as [Hfit Hno].
  fold data in Hfit, Hno. fold n in Hfit, Hno. fold need in Hfit, Hno.
  split; [| split].
  - intros H. destruct (Hfit H) as (e & inp & arena' & Heq).
    exists e, inp, arena'. eexists. split; [exact Heq |].
    apply read_entries_ret in Heq. cbv zeta in Heq. fold data in Heq.
    split; [apply Heq | reflexivity].
  - intros H. eexists. split; [apply Hno; exact H |].
    split; [| split]; reflexivity.
  - intros Hlong Hruns.
    assert (Hlen : Z.of_nat (length data) = end_ arena - beg arena - sizeof_Entries - 1).
    { subst data. rewrite length_take. unfold sizeof_Entries in *. lia. }
    assert (0 < n) by (subst n; destruct (runs data); [congruence | cbn [length]; lia]).
    subst need. unfold sizeof_ptr, sizeof_int. lia.
Qed.

Lemma read_entries_out_of_memory_witness :
  let arena := {| beg := 0; end_ := 64 |} in
  let w := world_ex fruit [] in
  let data :=
    take (Z.to_nat (Z.min (end_ arena - sizeof_Entries - beg arena - 1)
                      (Z.of_nat (length (std_in w))))) (std_in w) in
  let n := Z.of_nat (length (runs data)) in
  let need := sizeof_Entries + Z.of_nat (length data) + 1
              + (sizeof_ptr + sizeof_int) * n in
  (need <= end_ arena - beg arena ->
     exists e inp arena' w',
       read_entries env_ex arena w = Ret (e, inp, arena') w' /\
       entries_len e = n /\
       std_in w' = drop (length data) (std_in w)) /\
  (end_ arena - beg arena < need ->
     exists w',
       read_entries env_ex arena w = Exit EXIT_FAILURE w' /\
       std_err w' = std_err w ++ chars "out of memory" ++ [NL] /\
       std_out w' = std_out w /\
       std_in w' = drop (length data) (std_in w)) /\
  (end_ arena - beg arena - sizeof_Entries - 1 <= Z.of_nat (length (std_in w)) ->
     runs data <> [] -> end_ arena - beg arena < need).
Proof.
  apply (read_entries_out_of_memory env_ex {| beg := 0; end_ := 64 |} (world_ex fruit [])).
  vm_compute. reflexivity.
Defined.

(** X9: on an arena of exactly [sizeof(Entries)] bytes [read_entries]
    returns: it reads nothing from standard input, finds no entry and
    leaves the arena with its bottom cursor one byte above the top one (the
    line feed of line 149 went to the first byte of the struct), so that
    every later request for an item ends the process.  The arenas of
    [main], of [MEMORY_MAX] bytes or of none, never have that size. *)
Theorem read_entries_struct_only_arena env arena w :
  end_ arena - beg arena = sizeof_Entries ->
  read_entries env arena w =
    Ret ({| entries := []; matches := []; entries_len := 0; matches_len := 0;
            selected := 0 |},
         {| input_base := beg arena; input_bytes := [0] |},
         {| beg := beg arena + 1; end_ := beg arena |}) w /\
  (forall size count w1,
     0 < size -> 0 < count ->
     alloc {| beg := beg arena + 1; end_ := beg arena |} size count w1 =
       Exit EXIT_FAILURE (out_of_memory w1)) /\
  end_ (main_arena env) - beg (main_arena env) <> sizeof_Entries.
Proof.
  intros Heq. split; [| split; [| apply main_arena_room]].
  - unfold read_entries.
    erewrite bind_ret
      by (apply alloc_ok; [reflexivity | lia |
                           rewrite Heq; vm_compute; discriminate]).
    cbn [beg end_].
    replace (end_ arena - sizeof_Entries * 1 - beg arena - 1) with (-1) by lia.
    unfold M_bind at 1. unfold fullread.
    rewrite Z.min_l by lia. change (Z.to_nat (-1)) with 0%nat.
    rewrite take_0, drop_0. cbn [length app]. change (Z.of_nat 0) with 0.
    change (count_lines [NL] 0 0) with 0.
    replace (end_ arena - sizeof_Entries * 1) with (beg arena)
      by (unfold sizeof_Entries in *; lia).
    unfold M_bind, alloc. cbn [beg end_].
    replace (beg arena - (beg arena + (0 + 1))) with (-1) by lia.
    change (Z.quot (-1) sizeof_ptr) with 0. change (0 >? 0) with false.
    cbv iota. unfold M_ret. cbn [beg end_].
    replace (beg arena - sizeof_ptr * 0 - (beg arena + (0 + 1))) with (-1) by lia.
    change (Z.quot (-1) sizeof_int) with 0. change (0 >? 0) with false.
    cbv iota. rewrite !Z.mul_0_r, !Z.sub_0_r.
    destruct w. reflexivity.
  - intros size count w1 Hsize Hcount. unfold alloc. cbn [beg end_].
    replace (beg arena - (beg arena + 1)) with (-1) by lia.
    assert (Hq : Z.quot (-1) size <= 0).
    { apply Z.quot_le_upper_bound; lia. }
    destruct (Z.gtb_spec count (Z.quot (-1) size)); [reflexivity | lia].
Qed.

Lemma read_entries_struct_only_arena_witness :
  let arena := {| beg := 64; end_ := 96 |} in
  let w := world_ex fruit [] in
  read_entries env_ex arena w =
    Ret ({| entries := []; matches := []; entries_len := 0; matches_len := 0;
            selected := 0 |},
         {| input_base := beg arena; input_bytes := [0] |},
         {| beg := beg arena + 1; end_ := beg arena |}) w /\
  (forall size count w1,
     0 < size -> 0 < count ->
     alloc {| beg := beg arena + 1; end_ := beg arena |} size count w1 =
       Exit EXIT_FAILURE (out_of_memory w1)) /\
  end_ (main_arena env_ex) - beg (main_arena env_ex) <> sizeof_Entries.
Proof.
  intros arena w. apply (read_entries_struct_only_arena env_ex arena w).
  reflexivity.
Defined.

Lemma fields_no_delimiter input :
  Forall (Forall (fun c => delimiter c = false)) (fields input) /\
  concat (fields input) = List.filter (fun c => negb (delimiter c)) input.
Proof.
  induction input as [| c rest [IHf IHc]]; cbn [fields List.filter].
  - split; [repeat constructor | reflexivity].
  - destruct (delimiter c) eqn:Hc; cbn [negb].
    + split; [constructor; [constructor | exact IHf] | exact IHc].
    + destruct (fields_cons rest) as (f & fs & Hf). rewrite Hf in *.
      inversion IHf as [| ? ? Hf1 Hfs]; subst.
      split; [constructor; [constructor; assumption | assumption] |].
      cbn [concat] in *. cbn. rewrite IHc. reflexivity.
Qed.

Lemma filter_nonempty_concat (l : list (list Z)) :
  concat (List.filter nonempty l) = concat l.
Proof.
  induction l as [| f l IH]; [reflexivity |].
  cbn [List.filter]. destruct f as [| c f]; cbn [nonempty concat].
  - exact IH.
  - rewrite IH. reflexivity.
Qed.

Lemma filter_nonempty_Forall (P : list Z -> Prop) (l : list (list Z)) :
  Forall P l -> Forall (fun f => f <> [] /\ P f) (List.filter nonempty l).
Proof.
  induction 1 as [| f l Hf _ IH]; [constructor |].
  cbn [List.filter]. destruct f as [| c f]; cbn [nonempty]; [exact IH |].
  constructor; [split; [discriminate | exact Hf] | exact IH].
Qed.

(** The runs are not empty, hold no delimiter byte, and together are the
    input without its delimiter bytes. *)
Lemma runs_no_delimiter input :
  Forall (fun r => r <> [] /\ Forall (fun c => delimiter c = false) r) (runs input) /\
  concat (runs input) = List.filter (fun c => negb (delimiter c)) input.
Proof.
  destruct (fields_no_delimiter input) as [Hf Hc]. unfold runs. split.
  - apply filter_nonempty_Forall. exact Hf.
  - rewrite filter_nonempty_concat. exact Hc.
Qed.

(** X10: every entry [read_entries] returns is a string of the input buffer
    that is not empty and holds no NUL, line feed or carriage return, and the
    entries in order, put end to end, are the bytes read without their
    delimiter bytes: no other byte is lost, added or moved. *)
Theorem entries_keep_the_input env arena w e inp arena' w' :
  read_entries env arena w = Ret (e, inp, arena') w' ->
  let data :=
    take (Z.to_nat (Z.min (end_ arena - sizeof_Entries - beg arena - 1)
                      (Z.of_nat (length (std_in w))))) (std_in w) in
  exists strs,
    Forall2 (fun p str => entry_str inp p = Some str) (entries e) strs /\
    Forall (fun str => str <> [] /\ Forall (fun c => delimiter c = false) str) strs /\
    concat strs = List.filter (fun c => negb (delimiter c)) data.
Proof.
  intros H data. apply read_entries_ret in H. cbv zeta in H. fold data in H.
  destruct H as (_ & Hl & _ & _ & _ & Hruns & _).
  destruct (runs_no_delimiter data) as [Hall Hcat].
  exists (runs data). split; [| split; assumption].
  apply Forall2_same_length_lookup. split; [exact Hl |].
  intros i p str Hp Hs. specialize (Hruns i).
  rewrite Hp, Hs in Hruns. exact Hruns.
Qed.

Lemma entries_keep_the_input_witness :
  let arena := {| beg := 0; end_ := 128 |} in
  let w := world_ex fruit [] in
  let e := {| entries := [0; 6; 14]; matches := [0; 7; 7]; entries_len := 3;
              matches_len := 0; selected := 0 |} in
  let inp := {| input_base := 0;
                input_bytes := chars "Apple" ++ [0] ++ chars "banana" ++ [0; 0]
                                 ++ chars "Avocado" ++ [0] |} in
  read_entries env_ex arena w = Ret (e, inp, {| beg := 22; end_ := 60 |}) (world_ex [] []) /\
  let data :=
    take (Z.to_nat (Z.min (end_ arena - sizeof_Entries - beg arena - 1)
                      (Z.of_nat (length (std_in w))))) (std_in w) in
  exists strs,
    Forall2 (fun p str => entry_str inp p = Some str) (entries e) strs /\
    Forall (fun str => str <> [] /\ Forall (fun c => delimiter c = false) str) strs /\
    concat strs = List.filter (fun c => negb (delimiter c)) data.
Proof.
  split; [vm_compute; reflexivity |].
  apply (entries_keep_the_input env_ex {| beg := 0; end_ := 128 |} (world_ex fruit []) _ _
           {| beg := 22; end_ := 60 |} (world_ex [] [])).
  vm_compute. reflexivity.
Defined.

(** ** More on the match table *)

Lemma match_indices_elem n :
  forall i inp pattern ents k,
    k ∈ match_indices n i inp pattern ents <->
    i <= k < i + Z.of_nat n /\
    exists str, arr_get ents k ≫= entry_str inp = Some str /\
                is_match pattern str = true.
Proof.
  induction n as [| n IH]; intros i inp pattern ents k.
  - cbn [match_indices]. split; [intros H; inversion H | intros [H _]; lia].
  - cbn [match_indices].
    assert (Hrest : k ∈ match_indices n (i + 1) inp pattern ents <->
                    i + 1 <= k < i + Z.of_nat (S n) /\
                    exists str, arr_get ents k ≫= entry_str inp = Some str /\
                                is_match pattern str = true).
    { rewrite IH. split; intros [H1 H2]; (split; [lia | exact H2]). }
    destruct (arr_get ents i ≫= entry_str inp) as [str |] eqn:Hstr.
    + destruct (is_match pattern str) eqn:Hm.
      * rewrite elem_of_cons, Hrest. split.
        -- intros [-> | [H1 H2]]; [| split; [lia | exact H2]].
           split; [lia |]. exists str. split; assumption.
        -- intros [H1 H2]. destruct (Z.eq_dec k i) as [-> | Hne]; [left; reflexivity |].
           right. split; [lia | exact H2].
      * rewrite Hrest. split; intros [H1 H2]; [split; [lia | exact H2] |].
        split; [| exact H2]. destruct (Z.eq_dec k i) as [-> | Hne]; [| lia].
        destruct H2 as (str' & Hs' & Hm'). congruence.
    + rewrite Hrest. split; intros [H1 H2]; [split; [lia | exact H2] |].
      split; [| exact H2]. destruct (Z.eq_dec k i) as [-> | Hne]; [| lia].
      destruct H2 as (str' & Hs' & Hm'). congruence.
Qed.

Lemma bind_entry_str inp ents k str :
  arr_get ents k ≫= entry_str inp = Some str <->
  exists p, arr_get ents k = Some p /\ entry_str inp p = Some str.
Proof.
  destruct (arr_get ents k) as [p |]; cbn; split.
  - intros H. exists p. split; [reflexivity | exact H].
  - intros (p' & [= <-] & H). exact H.
  - discriminate.
  - intros (p' & H & _). discriminate.
Qed.

(** The live part of a rematched table holds exactly the indices of the
    entries that [pattern] matches. *)
Lemma live_matches_exact inp pattern e k :
  0 <= entries_len e ->
  k ∈ live_matches (rematched inp pattern e) <->
  0 <= k < entries_len e /\
  exists p str, arr_get (entries e) k = Some p /\ entry_str inp p = Some str /\
                is_match pattern str = true.
Proof.
  intros Hlen. rewrite live_matches_rematched, match_indices_elem.
  rewrite Z2Nat.id by lia. rewrite Z.add_0_l. split.
  - intros [H1 (str & Hs & Hm)]. split; [exact H1 |].
    apply bind_entry_str in Hs as (p & Hp & Hs). eauto.
  - intros [H1 (p & str & Hp & Hs & Hm)]. split; [exact H1 |].
    exists str. split; [| exact Hm]. apply bind_entry_str. eauto.
Qed.

(** X11: after [update_matches], the part of [matches] in use holds exactly
    the indices of the entries whose string [is_match] accepts for the
    pattern: none is missed, none is added; the world is untouched. *)
Theorem update_matches_exact inp e pattern scratch w e' w' :
  entries_wf inp e ->
  update_matches inp e pattern scratch w = Ret e' w' ->
  w' = w /\ entries e' = entries e /\
  forall k, k ∈ live_matches e' <->
    0 <= k < entries_len e /\
    exists p str, arr_get (entries e) k = Some p /\ entry_str inp p = Some str /\
                  is_match pattern str = true.
Proof.
  intros Hwf H. apply update_matches_ret in H as [-> ->]; [| exact Hwf].
  split; [reflexivity | split; [reflexivity |]].
  intros k. apply live_matches_exact. destruct Hwf as [Hl _]. lia.
Qed.

Lemma update_matches_exact_witness :
  let scratch := {| beg := 100; end_ := 200 |} in
  let e' := {| entries := [64]; matches := [0]; entries_len := 1; matches_len := 1;
               selected := 0 |} in
  world_ex [] [] = world_ex [] [] /\ entries e' = entries e_ab /\
  forall k, k ∈ live_matches e' <->
    0 <= k < entries_len e_ab /\
    exists p str, arr_get (entries e_ab) k = Some p /\ entry_str inp_ab p = Some str /\
                  is_match (chars "a") str = true.
Proof.
  apply (update_matches_exact inp_ab e_ab (chars "a") {| beg := 100; end_ := 200 |}
           (world_ex [] [])).
  - split; [reflexivity | split; [reflexivity |]].
    constructor; [eexists; reflexivity | constructor].
  - vm_compute. reflexivity.
Defined.

(** At the head of the loop the table is the one of the pattern. *)
Lemma loop_inv_live_matches w0 st w :
  loop_inv w0 st w ->
  live_matches (l_entries st) =
  match_indices (Z.to_nat (entries_len (l_entries st))) 0 (l_input st)
    (pattern_str st) (entries (l_entries st)).
Proof.
  intros (_ & _ & Htab & _). rewrite <- Htab at 1. apply live_matches_rematched.
Qed.

(** X12: at the head of the loop, after any number of keys, the terminal is
    in raw mode and the matches in use are exactly the indices of the
    entries that [is_match] accepts for the pattern typed so far. *)
Theorem matches_follow_pattern env w0 n st w :
  run env n w0 = Ret (Continue st) w ->
  tty_attr w = cfmakeraw (tty_attr w0) /\
  forall k, k ∈ live_matches (l_entries st) <->
    0 <= k < entries_len (l_entries st) /\
    exists p str,
      arr_get (entries (l_entries st)) k = Some p /\
      entry_str (l_input st) p = Some str /\
      is_match (pattern_str st) str = true.
Proof.
  intros Hrun. destruct (run_inv env w0 n st w Hrun) as (Hinv & _).
  pose proof Hinv as (Hst & Hw & Htab & _).
  split; [apply Hw |].
  intros k. rewrite <- Htab at 1. apply live_matches_exact.
  destruct Hst as ((Hl & _) & _). lia.
Qed.

Lemma matches_follow_pattern_witness :
  let w0 := world_ex fruit keys_a_down in
  let st := state_of (run env_ex 1 w0) in
  let w := world_of (run env_ex 1 w0) in
  tty_attr w = cfmakeraw (tty_attr w0) /\
  forall k, k ∈ live_matches (l_entries st) <->
    0 <= k < entries_len (l_entries st) /\
    exists p str,
      arr_get (entries (l_entries st)) k = Some p /\
      entry_str (l_input st) p = Some str /\
      is_match (pattern_str st) str = true.
Proof.
  intros w0 st w. apply (matches_follow_pattern env_ex w0 1 st w).
  vm_compute. reflexivity.
Defined.

Lemma match_indices_empty_pattern n :
  forall (i : nat) inp ents,
    Forall (fun p => is_Some (entry_str inp p)) ents ->
    (i + n <= length ents)%nat ->
    match_indices n (Z.of_nat i) inp [] ents = List.map Z.of_nat (seq i n).
Proof.
  induction n as [| n IH]; intros i inp ents Hall Hlen; [reflexivity |].
  cbn [match_indices seq List.map].
  replace (Z.of_nat i + 1) with (Z.of_nat (S i)) by lia.
  rewrite IH by (assumption || lia).
  rewrite arr_get_lookup.
  destruct (lookup_lt_is_Some_2 ents i ltac:(lia)) as [p Hp].
  rewrite Hp. cbn.
  rewrite Forall_lookup in Hall. destruct (Hall i p Hp) as [str Hs].
  rewrite Hs. reflexivity.
Qed.

(** X13: whenever the pattern is empty at the head of the loop (at the
    start, or after the last character was deleted), every entry is listed,
    in input order. *)
Theorem empty_pattern_lists_all env w0 n st w :
  run env n w0 = Ret (Continue st) w ->
  pattern_str st = [] ->
  matches_len (l_entries st) = entries_len (l_entries st) /\
  live_matches (l_entries st) =
    List.map Z.of_nat (seq 0 (Z.to_nat (entries_len (l_entries st)))).
Proof.
  intros Hrun Hpat. destruct (run_inv env w0 n st w Hrun) as (Hinv & _).
  pose proof (loop_inv_live_matches w0 st w Hinv) as Hlive.
  pose proof Hinv as (Hst & _ & Htab).
  pose proof (table_matches_ok w0 st Hst Htab) as (Hml & _).
  destruct Hst as ((Hl & Hm & Hall) & _).
  rewrite Hpat in Hlive.
  rewrite (match_indices_empty_pattern _ 0 _ _ Hall) in Hlive by lia.
  split; [| exact Hlive].
  apply (f_equal (@length Z)) in Hlive.
  unfold live_matches in Hlive.
  rewrite length_take, length_map, length_seq in Hlive. lia.
Qed.

Lemma empty_pattern_lists_all_witness :
  let w0 := world_ex fruit [ReadChar 122; ReadChar 127] in
  let st := state_of (run env_ex 2 w0) in
  matches_len (l_entries st) = entries_len (l_entries st) /\
  live_matches (l_entries st) =
    List.map Z.of_nat (seq 0 (Z.to_nat (entries_len (l_entries st)))).
Proof.
  intros w0 st. apply (empty_pattern_lists_all env_ex w0 2 st (world_of (run env_ex 2 w0))).
  - vm_compute. reflexivity.
  - vm_compute. reflexivity.
Defined.

(** A pattern matches whatever the pattern with one more character does. *)
Lemma is_match_shorter pattern :
  forall c str,
    Forall (fun a => a <> 0) (pattern ++ [c]) ->
    is_match (pattern ++ [c]) str = true -> is_match pattern str = true.
Proof.
  induction pattern as [| a pattern IH]; intros c str Hnz H; [reflexivity |].
  cbn [app] in *. inversion Hnz as [| ? ? Ha Hnz']; subst.
  unfold is_match in *. cbn [deref List.hd] in *.
  destruct (Z.eqb_spec a 0); [contradiction |].
  cbn [is_match_while] in *.
  destruct (a =? xtolower (deref str)); [| discriminate].
  assert (Hd : deref (pattern ++ [c]) <> 0).
  { destruct pattern; cbn; inversion Hnz'; assumption. }
  destruct (Z.eqb_spec (deref (pattern ++ [c])) 0); [contradiction |].
  destruct (deref pattern =? 0) eqn:Hp; [reflexivity |].
  destruct (deref (List.tl str) =? 0); [discriminate |].
  specialize (IH c (List.tl str) Hnz').
  apply IH.
  destruct (Z.eqb_spec (deref (pattern ++ [c])) 0); [contradiction | exact H].
Qed.

Lemma match_indices_sublist n :
  forall i inp pattern c ents,
    Forall (fun a => a <> 0) (pattern ++ [c]) ->
    sublist (match_indices n i inp (pattern ++ [c]) ents)
            (match_indices n i inp pattern ents).
Proof.
  induction n as [| n IH]; intros i inp pattern c ents Hnz; [constructor |].
  cbn [match_indices]. specialize (IH (i + 1) inp pattern c ents Hnz).
  destruct (arr_get ents i ≫= entry_str inp) as [str |]; [| exact IH].
  destruct (is_match (pattern ++ [c]) str) eqn:Hm.
  - rewrite (is_match_shorter pattern c str Hnz Hm). apply sublist_skip. exact IH.
  - destruct (is_match pattern str); [apply sublist_cons |]; exact IH.
Qed.

(** ** More on the keys *)



(** X14: a printable key below the length limit appends its character to
    the pattern, and the matches after it are a sublist of the matches
    before: typing narrows the list and never brings an entry back. *)
Theorem typing_narrows_matches env w0 n st w c rest :
  run env n w0 = Ret (Continue st) w ->
  tty_in w = ReadChar c :: rest ->
  32 <= c <= 126 ->
  l_pattern_len st + 1 < PATTERN_MAX - 1 ->
  l_pattern_len st + 2 <= end_ (l_arena st) - beg (l_arena st) ->
  exists st' w',
    loop_body st w = Ret (Continue st') w' /\
    tty_in w' = rest /\
    pattern_str st' = pattern_str st ++ [c] /\
    sublist (live_matches (l_entries st')) (live_matches (l_entries st)).
Proof.
  intros Hrun Hin Hc Hmax Hroom.
  destruct (run_inv env w0 n st w Hrun) as (Hinv & _).
  destruct (loop_body_printable w0 st w c rest Hinv Hin Hc) as (_ & Hstep).
  destruct (Hstep Hmax Hroom) as (st' & w' & Hbody & Hstr & _ & Hin' & Hinv' & Hfr).
  exists st', w'. split; [exact Hbody |]. split; [exact Hin' |]. split; [exact Hstr |].
  rewrite (loop_inv_live_matches w0 st' w' Hinv').
  rewrite (loop_inv_live_matches w0 st w Hinv).
  destruct Hfr as (_ & _ & -> & -> & ->). rewrite Hstr.
  apply match_indices_sublist.
  rewrite <- Hstr. destruct Hinv' as ((_ & _ & _ & _ & Hnz & _) & _). exact Hnz.
Qed.

Lemma typing_narrows_matches_witness :
  let w0 := world_ex fruit keys_a_down in
  let st := state_of (run env_ex 0 w0) in
  let w := world_of (run env_ex 0 w0) in
  exists st' w',
    loop_body st w = Ret (Continue st') w' /\
    tty_in w' = [ReadChar 27; ReadChar 91; ReadChar 66] /\
    pattern_str st' = pattern_str st ++ [97] /\
    sublist (live_matches (l_entries st')) (live_matches (l_entries st)).
Proof.
  intros w0 st w.
  apply (typing_narrows_matches env_ex w0 0 st w 97 [ReadChar 27; ReadChar 91; ReadChar 66]).
  - vm_compute. reflexivity.
  - vm_compute. reflexivity.
  - lia.
  - vm_compute. reflexivity.
  - vm_compute. discriminate.
Defined.







Lemma ch_isvalid_false c :
  0 <= c <= 255 -> ~ 32 <= c <= 126 -> ch_isvalid c = false.
Proof.
  intros Hc Hno. unfold ch_isvalid, char_of_int.
  rewrite Z.mod_small by lia.
  destruct (Z.ltb_spec c 128).
  - destruct (Z.geb_spec c 32), (Z.leb_spec c 126); simpl; try reflexivity; lia.
  - destruct (Z.geb_spec (c - 256) 32); [lia | reflexivity].
Qed.

(** X17: a byte that is neither a key of the program (Enter, Ctrl-C,
    Backspace, Escape) nor a printable ASCII character, so a control
    character or a byte from 128 on, is dropped: the iteration goes back to
    the head of the loop with every local as it was, and nothing is written
    or redrawn. *)
Theorem unprintable_key_ignored st w c rest :
  tty_in w = ReadChar c :: rest ->
  0 <= c <= 255 ->
  c <> KEY_ENTER -> c <> KEY_CTRLC -> c <> KEY_BACKSPACE -> c <> KEY_ESCAPE0 ->
  ~ 32 <= c <= 126 ->
  loop_body st w = Ret (Continue st) (set_tty_in w rest).
Proof.
  intros Hin Hc H1 H2 H3 H4 Hno.
  unfold loop_body. erewrite bind_ret by (apply getch_char; exact Hin).
  rewrite land_255 by exact Hc.
  destruct (Z.eqb_spec KEY_ENTER c); [congruence |].
  destruct (Z.eqb_spec KEY_CTRLC c); [congruence |].
  destruct (Z.eqb_spec KEY_BACKSPACE c); [congruence |].
  destruct (Z.eqb_spec KEY_ESCAPE0 c); [congruence |].
  rewrite ch_isvalid_false by assumption. reflexivity.
Qed.

Lemma unprintable_key_ignored_witness :
  let w0 := world_ex fruit [ReadChar 200; ReadChar 97] in
  let st := state_of (run env_ex 0 w0) in
  let w := world_of (run env_ex 0 w0) in
  loop_body st w = Ret (Continue st) (set_tty_in w [ReadChar 97]).
Proof.
  intros w0 st w. apply (unprintable_key_ignored st w 200 [ReadChar 97]).
  - vm_compute. reflexivity.
  - lia.
  - discriminate.
  - discriminate.
  - discriminate.
  - discriminate.
  - lia.
Defined.

(** ** The screen *)

Lemma draw_lines_spec n :
  forall (i : nat) j term inp e w,
    entries_wf inp e -> matches_ok e ->
    (n <> 0 -> i + n <= Z.to_nat (matches_len e))%nat ->
    exists lines,
      draw_lines n (Z.of_nat i) j term inp e w =
        Ret tt (write_fd (tty term) (concat lines) w) /\
      length lines =
        (if j <? height term - 1 then Nat.min n (Z.to_nat (height term - 2 - j))
         else n) /\
      forall k, (k < length lines)%nat ->
        lines !! k = draw_line inp e (Z.of_nat (i + k)).
Proof.
  induction n as [| n IH]; intros i j term inp e w Hwf Hok Hi; cbn [draw_lines].
  - exists []. cbn [concat]. rewrite write_fd_nil. split; [reflexivity |].
    split; [destruct (j <? height term - 1); reflexivity |].
    intros k Hk. cbn in Hk. lia.
  - destruct (Z.eqb_spec (j + 1) (height term - 1)) as [Hj | Hj].
    + exists []. cbn [concat]. rewrite write_fd_nil. split; [reflexivity |].
      split; [| intros k Hk; cbn in Hk; lia].
      destruct (Z.ltb_spec j (height term - 1)); [| lia].
      replace (height term - 2 - j) with 0 by lia.
      change (Z.to_nat 0) with 0%nat. rewrite Nat.min_0_r. reflexivity.
    + specialize (Hi ltac:(lia)).
      destruct (live_match_entry inp e i Hwf Hok ltac:(lia))
        as (m & p & str & Hm & _ & Hp & Hs).
      rewrite Hm. cbn [M_bind access]. rewrite Hp. cbn [M_bind access].
      rewrite Hs. cbn [M_bind access writestr].
      replace (Z.of_nat i + 1) with (Z.of_nat (S i)) by lia.
      edestruct (IH (S i) (j + 1) term inp e) as (lines & Hout & Hlen & Hk);
        [exact Hwf | exact Hok | lia |].
      rewrite Hout. rewrite !write_fd_app.
      set (mark := if Z.of_nat i =? selected e then chars " (*)" else []).
      exists ((str ++ mark ++ [NL]) :: lines). split; [| split].
      * cbn [concat]. rewrite <- !app_assoc. reflexivity.
      * cbn [length]. rewrite Hlen.
        destruct (Z.ltb_spec j (height term - 1)),
                 (Z.ltb_spec (j + 1) (height term - 1)); lia.
      * intros [| k] Hlt.
        -- cbn [lookup list_lookup]. rewrite Nat.add_0_r.
           unfold draw_line. rewrite Hm. cbn. rewrite Hp. cbn. rewrite Hs.
           reflexivity.
        -- cbn [length] in Hlt. cbn [lookup list_lookup].
           replace (i + S k)%nat with (S i + k)%nat by lia.
           apply Hk. lia.
Qed.

(** X18: what [draw] puts on the screen.  After the clear sequence and the
    prompt line with the pattern come the lines of the matches from
    [first_shown] on, [shown_count] of them, each the string of its entry
    with the mark on the selected one; never more than [height - 2] on a
    terminal of two rows or more.  On a terminal of three rows or more the
    selected match is among the lines shown. *)
Theorem draw_window term inp e pattern scratch w :
  entries_wf inp e ->
  Z.of_nat (length pattern) + 1 <= end_ scratch - beg scratch ->
  let e' := set_selected_clamped (rematched inp pattern e)
              (selected (rematched inp pattern e)) in
  exists lines,
    draw term inp e pattern scratch w =
      Ret e' (write_fd (tty term)
                (clear_seq ++ chars ">" ++ pattern ++ [NL] ++ concat lines) w) /\
    Z.of_nat (length lines) = shown_count term e' /\
    (forall k, (k < length lines)%nat ->
       lines !! k = draw_line inp e' (first_shown term e' + Z.of_nat k)) /\
    (3 <= height term -> matches_len e' > 0 ->
       first_shown term e' <= selected e' < first_shown term e' + shown_count term e').
Proof.
  intros Hwf Hroom e'.
  assert (Hwf' : entries_wf inp e').
  { apply (entries_wf_rematched inp pattern) in Hwf. exact Hwf. }
  assert (Hok' : matches_ok e').
  { apply (matches_ok_rematched inp pattern e). destruct Hwf as (He & _). lia. }
  assert (Hsel' : selected_ok e') by apply selected_ok_clamped.
  assert (Hi : 0 <= first_shown term e').
  { unfold first_shown. destruct (Z.gtb_spec (selected e') (height term - 3)); lia. }
  destruct (draw_lines_spec (Z.to_nat (matches_len e' - first_shown term e'))
              (Z.to_nat (first_shown term e')) 0 term inp e'
              (write_fd (tty term) (clear_seq ++ chars ">" ++ pattern ++ [NL]) w)
              Hwf' Hok')
    as (lines & Hlines & Hlen & Hk); [lia |].
  rewrite Z2Nat.id in Hlines by lia.
  exists lines. split; [| split; [| split]].
  - unfold draw. unfold M_bind at 1.
    rewrite update_matches_cases by exact Hwf.
    destruct (Z.gtb_spec (Z.of_nat (length pattern) + 1)
                (Z.quot (end_ scratch - beg scratch) sizeof_char)) as [Hgt | _].
    { unfold sizeof_char in Hgt. rewrite Z.quot_1_r in Hgt. lia. }
    cbn [M_bind clear_screen writestr M_ret]. fold e'.
    rewrite !write_fd_app.
    unfold first_shown in Hlines.
    replace (write_fd (tty term) (((clear_seq ++ chars ">") ++ pattern) ++ [NL]) w)
      with (write_fd (tty term) (clear_seq ++ chars ">" ++ pattern ++ [NL]) w)
      by (rewrite <- !app_assoc; reflexivity).
    erewrite bind_ret by exact Hlines.
    unfold M_ret. rewrite write_fd_app. rewrite <- !app_assoc. reflexivity.
  - rewrite Hlen. unfold shown_count.
    change (0 <? height term - 1) with (0 <? height term - 1).
    destruct (Z.ltb_spec 0 (height term - 1)), (Z.ltb_spec 1 (height term)); lia.
  - intros k Hlt. rewrite (Hk k Hlt). f_equal. lia.
  - intros Hh Hm. specialize (Hsel' Hm).
    unfold shown_count, first_shown.
    destruct (Z.gtb_spec (selected e') (height term - 3)),
             (Z.ltb_spec 1 (height term)); lia.
Qed.

Lemma draw_window_witness :
  let scratch := {| beg := 100; end_ := 200 |} in
  let w := world_ex [] [] in
  let pattern := chars "a" in
  let e' := set_selected_clamped (rematched inp_ab pattern e_ab)
              (selected (rematched inp_ab pattern e_ab)) in
  exists lines,
    draw term_ex inp_ab e_ab pattern scratch w =
      Ret e' (write_fd (tty term_ex)
                (clear_seq ++ chars ">" ++ pattern ++ [NL] ++ concat lines) w) /\
    Z.of_nat (length lines) = shown_count term_ex e' /\
    (forall k, (k < length lines)%nat ->
       lines !! k = draw_line inp_ab e' (first_shown term_ex e' + Z.of_nat k)) /\
    (3 <= height term_ex -> matches_len e' > 0 ->
       first_shown term_ex e' <= selected e' < first_shown term_ex e' + shown_count term_ex e').
Proof.
  intros scratch w pattern.
  apply (draw_window term_ex inp_ab e_ab pattern scratch w).
  - split; [reflexivity | split; [reflexivity |]].
    constructor; [eexists; reflexivity | constructor].
  - vm_compute. discriminate.
Defined.

(** ** What [main] leaves of the world *)

Lemma quiet_refl fd w : quiet fd w w.
Proof. split; [reflexivity | split; [| split]; reflexivity]. Qed.

Lemma quiet_trans fd w1 w2 w3 : quiet fd w1 w2 -> quiet fd w2 w3 -> quiet fd w1 w3.
Proof.
  intros (Hs1 & Ho1 & He1 & Hd1) (Hs2 & Ho2 & He2 & Hd2). split; [| split; [| split]].
  - etransitivity; eassumption.
  - intros H. rewrite Ho2, Ho1 by exact H. reflexivity.
  - intros H. rewrite He2, He1 by exact H. reflexivity.
  - rewrite Hd2, Hd1. reflexivity.
Qed.

Lemma quiet_failed fd w1 w2 w3 : quiet fd w1 w2 -> failed fd w2 w3 -> failed fd w1 w3.
Proof.
  intros (_ & Ho1 & He1 & _) (Ho2 & He2). split.
  - intros H. rewrite Ho2, Ho1 by exact H. reflexivity.
  - intros H. destruct (He2 H) as (msg & Hin & Heq). exists msg.
    split; [exact Hin |]. rewrite Heq, He1 by exact H. reflexivity.
Qed.

Lemma quiet_blocked fd w1 w2 w3 : quiet fd w1 w2 -> blocked fd w2 w3 -> blocked fd w1 w3.
Proof. intros H1 [H2 H3]. split; [eapply quiet_trans; eassumption | exact H3]. Qed.

Lemma sat_after {A} fd w w1 (o : outcome A) (P : A -> Prop) :
  quiet fd w w1 ->
  sat o (fun a w' => quiet fd w1 w' /\ P a) (failed fd w1) (blocked fd w1) ->
  sat o (fun a w' => quiet fd w w' /\ P a) (failed fd w) (blocked fd w).
Proof.
  intros Hq. destruct o as [a w' | s w' | w' | |]; cbn; try exact id.
  - intros [H1 H2]. split; [eapply quiet_trans; eassumption | exact H2].
  - apply quiet_failed. exact Hq.
  - apply quiet_blocked. exact Hq.
Qed.

Lemma framed_bind {A B} fd (c : M A) (k : A -> M B) (P : A -> Prop) (R : B -> Prop) :
  framed fd c P -> (forall a, P a -> framed fd (k a) R) -> framed fd (M_bind c k) R.
Proof.
  intros Hc Hk w. unfold M_bind. specialize (Hc w).
  destruct (c w) as [a w1 | s w1 | w1 | |]; cbn [sat] in Hc |- *; try exact Hc.
  destruct Hc as [Hq Hp]. eapply sat_after; [exact Hq |]. apply Hk. exact Hp.
Qed.

Lemma framed_weaken {A} fd (c : M A) (P P' : A -> Prop) :
  framed fd c P -> (forall a, P a -> P' a) -> framed fd c P'.
Proof.
  intros Hc Himp w. specialize (Hc w).
  destruct (c w) as [a w1 | s w1 | w1 | |]; cbn [sat] in Hc |- *; try exact Hc.
  destruct Hc as [Hq Hp]. split; [exact Hq | apply Himp; exact Hp].
Qed.

Lemma framed_ret {A} fd (a : A) (P : A -> Prop) : P a -> framed fd (M_ret a) P.
Proof. intros Hp w. split; [apply quiet_refl | exact Hp]. Qed.

Lemma framed_access {A} fd (o : option A) : framed fd (access o) (fun a => o = Some a).
Proof.
  intros w. unfold access. destruct o; cbn; [| exact I].
  split; [apply quiet_refl | reflexivity].
Qed.

Lemma framed_exit {A} fd msg (P : A -> Prop) :
  In msg diagnostics -> framed fd (ERROR_EXIT msg) P.
Proof.
  intros Hin w. unfold ERROR_EXIT. cbn [sat]. split.
  - intros _. rewrite write_fd_std_out. reflexivity.
  - intros _. exists msg. split; [exact Hin |]. rewrite write_fd_std_err. reflexivity.
Qed.

Lemma framed_alloc fd arena size count :
  framed fd (alloc arena size count) (fun _ => True).
Proof.
  unfold alloc. destruct (_ >? _).
  - apply framed_exit. left. reflexivity.
  - apply framed_ret. exact I.
Qed.

Lemma quiet_write fd str w : quiet fd w (write_fd fd str w).
Proof.
  split; [rewrite write_fd_tty_in; reflexivity | split; [| split]].
  - intros H. rewrite write_fd_std_out.
    destruct (Z.eqb_spec fd 1); [contradiction | reflexivity].
  - intros H. rewrite write_fd_std_err.
    destruct (Z.eqb_spec fd 2); [contradiction | reflexivity].
  - unfold write_fd. destruct (fd =? 1); [| destruct (fd =? 2)]; reflexivity.
Qed.

Lemma framed_writestr fd str : framed fd (writestr fd str) (fun _ => True).
Proof. intros w. split; [apply quiet_write | exact I]. Qed.

Lemma framed_fullread fd len : framed fd (fullread len) (fun _ => True).
Proof. intros w. split; [| exact I]. split; [| split; [| split]]; reflexivity. Qed.

Lemma framed_restore fd term : framed fd (restore_terminal_mode term) (fun _ => True).
Proof. intros w. split; [| exact I]. split; [| split; [| split]]; reflexivity. Qed.

Lemma framed_set_mode fd term :
  framed fd (set_terminal_mode term) (fun term' => tty term' = tty term).
Proof. intros w. split; [| reflexivity]. split; [| split; [| split]]; reflexivity. Qed.

Lemma framed_getch fd term : framed fd (getch term) (fun _ => True).
Proof.
  intros w. pose proof (getch_cases term w) as Hc.
  destruct (tty_in w) as [| [r | r |] rest] eqn:Hin; rewrite Hc; cbn [sat].
  - split; [apply quiet_refl | exact Hin].
  - split; [| exact I]. split; [| split; [| split]; reflexivity].
    cbn. rewrite Hin. exists [ReadChar r]. reflexivity.
  - split; [| exact I]. split; [| split; [| split]; reflexivity].
    cbn. rewrite Hin. exists [ReadEOF r]. reflexivity.
  - split.
    + intros _. rewrite write_fd_std_out. reflexivity.
    + intros _. exists "tty input error"%string.
      split; [right; right; left; reflexivity |].
      rewrite write_fd_std_err. reflexivity.
Qed.

Lemma framed_update_matches fd inp e pattern scratch :
  framed fd (update_matches inp e pattern scratch) (fun _ => True).
Proof.
  unfold update_matches.
  eapply framed_bind; [apply framed_alloc |]. intros [p a] _.
  eapply framed_weaken; [apply framed_access | auto].
Qed.

Lemma framed_draw_lines n :
  forall i j term inp e, framed (tty term) (draw_lines n i j term inp e) (fun _ => True).
Proof.
  induction n as [| n IH]; intros i j term inp e; cbn [draw_lines].
  - apply framed_ret. exact I.
  - destruct (_ =? _); [apply framed_ret; exact I |].
    eapply framed_bind; [apply framed_access |]. intros m _.
    eapply framed_bind; [apply framed_access |]. intros p _.
    eapply framed_bind; [apply framed_access |]. intros str _.
    eapply framed_bind; [apply framed_writestr |]. intros _ _.
    eapply framed_bind; [apply framed_writestr |]. intros _ _.
    eapply framed_bind; [apply framed_writestr |]. intros _ _.
    apply IH.
Qed.

Lemma framed_draw term inp e pattern scratch :
  framed (tty term) (draw term inp e pattern scratch) (fun _ => True).
Proof.
  unfold draw.
  eapply framed_bind; [apply framed_update_matches |]. intros e' _.
  eapply framed_bind; [apply framed_writestr |]. intros _ _.
  eapply framed_bind; [apply framed_writestr |]. intros _ _.
  eapply framed_bind; [apply framed_writestr |]. intros _ _.
  eapply framed_bind; [apply framed_writestr |]. intros _ _.
  eapply framed_bind; [apply framed_draw_lines |]. intros _ _.
  apply framed_ret. exact I.
Qed.

Lemma framed_redraw st :
  framed (tty (l_term st)) (redraw st)
    (fun c => exists st', c = Continue st' /\ tty (l_term st') = tty (l_term st)).
Proof.
  unfold redraw.
  eapply framed_bind; [apply framed_restore |]. intros _ _.
  eapply framed_bind with (P := fun _ => True).
  { destruct (_ =? _); [apply framed_ret; exact I |].
    eapply framed_weaken; [apply framed_access | auto]. }
  intros pattern _.
  eapply framed_bind; [apply framed_draw |]. intros e _.
  eapply framed_bind; [apply framed_set_mode |]. intros term Hterm.
  apply framed_ret. eexists. split; [reflexivity | exact Hterm].
Qed.

(** What is left of an iteration once the first key is read. *)
Lemma framed_loop_body_key st ch :
  framed (tty (l_term st))
    (if KEY_ENTER =? ch then
       if matches_len (l_entries st) >? 0 then
         let* i := access (arr_get (matches (l_entries st)) (selected (l_entries st))) in
         let* p := access (arr_get (entries (l_entries st)) i) in
         M_ret (GotoEnd (with_selected_entry st (Some p)))
       else M_ret (GotoEnd st)
     else if KEY_CTRLC =? ch then M_ret (GotoEnd st)
     else if KEY_BACKSPACE =? ch then
       let pattern_len :=
         if l_pattern_len st - 1 >? -1 then l_pattern_len st - 1 else l_pattern_len st in
       let* pattern := access (arr_set (l_pattern st) pattern_len 0) in
       redraw (with_pattern st pattern pattern_len)
     else if KEY_ESCAPE0 =? ch then
       let* ch := getch (l_term st) in
       if KEY_ESCAPE1 =? ch then
         let* k := getch (l_term st) in
         if k =? KEY_UP then redraw (with_entries st (select_next (l_entries st)))
         else if k =? KEY_DOWN then redraw (with_entries st (select_prev (l_entries st)))
         else redraw st
       else redraw st
     else
       if ch_isvalid ch then
         let* pattern := access (arr_set (l_pattern st) (l_pattern_len st) (char_of_int ch)) in
         let pattern_len := l_pattern_len st + 1 in
         if pattern_len >=? PATTERN_MAX - 1 then ERROR_EXIT "pattern too long"
         else
           let* pattern := access (arr_set pattern pattern_len 0) in
           redraw (with_pattern st pattern pattern_len)
       else M_ret (Continue st))
    (fun c => ctl_tty c = tty (l_term st) /\
              ((exists st', c = GotoEnd st') ->
               (KEY_ENTER =? ch) || (KEY_CTRLC =? ch) = true)).
Proof.
  assert (Hredraw : forall st1, tty (l_term st1) = tty (l_term st) ->
    framed (tty (l_term st)) (redraw st1)
      (fun c => ctl_tty c = tty (l_term st) /\
                ((exists st', c = GotoEnd st') ->
                 (KEY_ENTER =? ch) || (KEY_CTRLC =? ch) = true))).
  { intros st1 Htty. rewrite <- Htty.
    eapply framed_weaken; [apply framed_redraw |].
    intros c (st' & -> & Hst'). split; [exact Hst' |].
    intros (st'' & Heq). discriminate. }
  destruct (KEY_ENTER =? ch) eqn:Henter.
  { destruct (_ >? _).
    - eapply framed_bind; [apply framed_access |]. intros i _.
      eapply framed_bind; [apply framed_access |]. intros p _.
      apply framed_ret. split; reflexivity.
    - apply framed_ret. split; reflexivity. }
  destruct (KEY_CTRLC =? ch) eqn:Hctrlc.
  { apply framed_ret. split; reflexivity. }
  destruct (KEY_BACKSPACE =? ch).
  { cbv zeta. eapply framed_bind; [apply framed_access |]. intros pattern _.
    apply Hredraw. reflexivity. }
  destruct (KEY_ESCAPE0 =? ch).
  { eapply framed_bind; [apply framed_getch |]. intros ch1 _.
    destruct (KEY_ESCAPE1 =? ch1); [| apply Hredraw; reflexivity].
    eapply framed_bind; [apply framed_getch |]. intros k _.
    destruct (k =? KEY_UP); [apply Hredraw; reflexivity |].
    destruct (k =? KEY_DOWN); apply Hredraw; reflexivity. }
  destruct (ch_isvalid ch).
  - eapply framed_bind; [apply framed_access |]. intros pattern _.
    cbv zeta. destruct (_ >=? _).
    + apply framed_exit. right. right. right. left. reflexivity.
    + eapply framed_bind; [apply framed_access |]. intros pattern' _.
      apply Hredraw. reflexivity.
  - apply framed_ret. split; [reflexivity |].
    intros (st' & Heq). discriminate.
Qed.

(** One iteration: it keeps the terminal descriptor, and goes to [end] only
    on a first read that is Enter or Ctrl-C. *)
Lemma loop_body_frame st w :
  sat (loop_body st w)
    (fun c w' =>
       quiet (tty (l_term st)) w w' /\ ctl_tty c = tty (l_term st) /\
       ((exists st', c = GotoEnd st') ->
        exists rd rest, tty_in w = rd :: rest /\ leaves_loop rd = true))
    (failed (tty (l_term st)) w) (blocked (tty (l_term st)) w).
Proof.
  unfold loop_body. unfold M_bind at 1.
  pose proof (getch_cases (l_term st) w) as Hc.
  destruct (tty_in w) as [| rd rest] eqn:Hin.
  - rewrite Hc. cbn [sat]. split; [apply quiet_refl | exact Hin].
  - assert (Hq : quiet (tty (l_term st)) w (set_tty_in w rest)).
    { split; [| split; [| split]; reflexivity]. cbn. rewrite Hin. exists [rd]. reflexivity. }
    destruct rd as [r | r |]; rewrite Hc.
    + pose proof (framed_loop_body_key st (Z.land r 255) (set_tty_in w rest)) as Hk.
      eapply sat_after in Hk; [| exact Hq].
      destruct (_ (set_tty_in w rest)) as [c w' | s w' | w' | |]; cbn [sat] in Hk |- *;
        try exact Hk.
      destruct Hk as (Hq' & Htty & Hend). split; [exact Hq' |]. split; [exact Htty |].
      intros Hg. exists (ReadChar r), rest. split; [reflexivity | apply Hend, Hg].
    + pose proof (framed_loop_body_key st (Z.land r 255) (set_tty_in w rest)) as Hk.
      eapply sat_after in Hk; [| exact Hq].
      destruct (_ (set_tty_in w rest)) as [c w' | s w' | w' | |]; cbn [sat] in Hk |- *;
        try exact Hk.
      destruct Hk as (Hq' & Htty & Hend). split; [exact Hq' |]. split; [exact Htty |].
      intros Hg. exists (ReadEOF r), rest. split; [reflexivity | apply Hend, Hg].
    + cbn [sat]. split.
      * intros _. rewrite write_fd_std_out. reflexivity.
      * intros _. exists "tty input error"%string.
        split; [right; right; left; reflexivity |].
        rewrite write_fd_std_err. reflexivity.
Qed.

Lemma main_loop_frame fd fuel :
  forall st w,
    tty (l_term st) = fd ->
    sat (main_loop fuel st w)
      (fun st' w' => quiet fd w w' /\
                     Exists (fun rd => leaves_loop rd = true) (tty_in w))
      (failed fd w) (blocked fd w).
Proof.
  induction fuel as [| fuel IH]; intros st w Htty; cbn [main_loop]; [exact I |].
  unfold M_bind. pose proof (loop_body_frame st w) as Hb. rewrite Htty in Hb.
  destruct (loop_body st w) as [[st1 | st1] w1 | s w1 | w1 | |]; cbn [sat] in Hb |- *;
    try exact Hb.
  - destruct Hb as (Hq & Htty1 & _). specialize (IH st1 w1 Htty1).
    destruct (main_loop fuel st1 w1) as [st' w' | s w' | w' | |]; cbn [sat] in IH |- *;
      try exact I.
    + destruct IH as (Hq' & Hex). split; [eapply quiet_trans; eassumption |].
      destruct Hq as ([k Hk] & _). rewrite Hk. apply Exists_app. right. exact Hex.
    + eapply quiet_failed; eassumption.
    + eapply quiet_blocked; eassumption.
  - destruct Hb as (Hq & _ & Hend). split; [exact Hq |].
    destruct (Hend ltac:(eauto)) as (rd & rest & -> & Hrd).
    apply Exists_cons_hd. exact Hrd.
Qed.

Lemma framed_read_entries fd env arena :
  framed fd (read_entries env arena) (fun _ => True).
Proof.
  unfold read_entries.
  eapply framed_bind; [apply framed_alloc |]. intros [p1 a1] _.
  eapply framed_bind; [apply framed_fullread |]. intros data _.
  eapply framed_bind; [apply framed_alloc |]. intros [p2 a2] _.
  eapply framed_bind; [apply framed_alloc |]. intros [p3 a3] _.
  eapply framed_bind; [apply framed_access |]. intros [buf' ents'] _.
  apply framed_ret. exact I.
Qed.

Lemma framed_get_terminal env arena :
  framed (open_result env) (get_terminal env arena)
    (fun r => tty r.1 = open_result env).
Proof.
  unfold get_terminal.
  eapply framed_bind; [apply framed_alloc |]. intros [p a] _.
  destruct (_ =? _).
  - apply framed_exit. right. left. reflexivity.
  - apply framed_ret. reflexivity.
Qed.

Lemma framed_main_init env :
  framed (open_result env) (main_init env)
    (fun st => tty (l_term st) = open_result env).
Proof.
  unfold main_init.
  eapply framed_bind; [apply framed_read_entries |]. intros [[e inp] a1] _.
  eapply framed_bind; [apply framed_get_terminal |]. intros [term a2] Hterm.
  cbn in Hterm. rewrite <- Hterm.
  eapply framed_bind; [apply framed_draw |]. intros e' _.
  eapply framed_bind; [apply framed_set_mode |]. intros term' Hterm'.
  eapply framed_bind; [apply framed_alloc |]. intros [p3 a3] _.
  apply framed_ret. exact Hterm'.
Qed.

(** From the label [end]: nothing goes to descriptor 2 and no terminal read
    is consumed. *)
Lemma main_end_frame st w :
  sat (main_end st w) (fun _ w' => std_err w' = std_err w /\ tty_in w' = tty_in w)
    (fun _ => False) (fun _ => False).
Proof.
  unfold main_end. cbn [M_bind restore_terminal_mode].
  destruct (l_selected_entry st) as [p |]; [| cbn; split; reflexivity].
  unfold M_bind, access. destruct (entry_str (l_input st) p) as [str |]; [| exact I].
  destruct (writestr_out_cases str (set_attr (original (l_term st)) w))
    as (r & k & dev & Heq & _).
  rewrite Heq. cbn [sat M_ret]. split; reflexivity.
Qed.

(** [main], by the way it ends. *)
Lemma main_frame env w0 :
  sat (main env w0)
    (fun _ w' =>
       (open_result env <> 2 -> std_err w' = std_err w0) /\
       Exists (fun rd => leaves_loop rd = true) (tty_in w0))
    (failed (open_result env) w0) (blocked (open_result env) w0).
Proof.
  unfold main. unfold M_bind at 1.
  pose proof (framed_main_init env w0) as Hi.
  destruct (main_init env w0) as [st0 wi | s wi | wi | |]; cbn [sat] in Hi |- *;
    try exact Hi.
  destruct Hi as (Hq & Htty).
  unfold M_bind.
  pose proof (main_loop_frame (open_result env) (S (length (tty_in w0))) st0 wi Htty) as Hl.
  destruct (main_loop _ st0 wi) as [st' w' | s w' | w' | |]; cbn [sat] in Hl |- *;
    try exact I.
  - destruct Hl as (Hq' & Hex).
    pose proof (main_end_frame st' w') as He.
    destruct (main_end st' w') as [s w'' | s w'' | w'' | |]; cbn [sat] in He |- *;
      [| destruct He | destruct He | exact I | exact I].
    split.
    + intros Hfd. destruct He as [-> _].
      destruct Hq as (_ & _ & He1 & _). destruct Hq' as (_ & _ & He2 & _).
      rewrite He2, He1 by exact Hfd. reflexivity.
    + destruct Hq as ([k Hk] & _). rewrite Hk. apply Exists_app. right. exact Hex.
  - eapply quiet_failed; eassumption.
  - eapply quiet_blocked; eassumption.
Qed.


(** X20: with the terminal on a descriptor other than 1 and 2, a run that
    ends in [exit] has written nothing to standard output and exactly one
    line to descriptor 2, one of the four diagnostics; a run that waits for
    a key, or returns, has written nothing to descriptor 2, and the waiting
    one nothing to standard output. *)
Theorem main_failure_diagnostic env w0 :
  open_result env <> 1 -> open_result env <> 2 ->
  match main env w0 with
  | Ret _ w' => std_err w' = std_err w0
  | Exit _ w' =>
      std_out w' = std_out w0 /\
      exists msg, In msg diagnostics /\ std_err w' = std_err w0 ++ chars msg ++ [NL]
  | Blocked w' => std_out w' = std_out w0 /\ std_err w' = std_err w0
  | Fault | OutOfFuel => False
  end.
Proof.
  intros H1 H2.
  pose proof (main_outcome env w0) as Ho.
  pose proof (main_frame env w0) as Hf.
  destruct (main env w0) as [s w' | s w' | w' | |]; cbn [sat] in Hf;
    try exact Ho.
  - apply Hf. exact H2.
  - destruct Hf as [Hout Herr]. split; [apply Hout, H1 | apply Herr, H2].
  - destruct Hf as [(_ & Hout & Herr & _) _]. split; [apply Hout, H1 | apply Herr, H2].
Qed.

Lemma main_failure_diagnostic_witness :
  3 <> 1 /\ 3 <> 2 /\
  match main env_ex (world_ex fruit [ReadChar 97; ReadError]) with
  | Ret _ w' => std_err w' = []
  | Exit _ w' =>
      std_out w' = [] /\
      exists msg, In msg diagnostics /\ std_err w' = [] ++ chars msg ++ [NL]
  | Blocked w' => std_out w' = [] /\ std_err w' = []
  | Fault | OutOfFuel => False
  end.
Proof.
  split; [discriminate |]. split; [discriminate |].
  apply (main_failure_diagnostic env_ex (world_ex fruit [ReadChar 97; ReadError]));
    discriminate.
Defined.

(** X21: [main] returns only after the terminal delivered Enter or Ctrl-C
    (as a byte read, or as what a read at end of file left in the buffer):
    no other key, and no end of input, makes it return. *)
Theorem main_returns_after_enter_or_ctrlc env w0 status w :
  main env w0 = Ret status w ->
  Exists (fun rd => leaves_loop rd = true) (tty_in w0).
Proof.
  intros H. pose proof (main_frame env w0) as Hf. rewrite H in Hf.
  apply Hf.
Qed.

Lemma main_returns_after_enter_or_ctrlc_witness :
  let w0 := world_ex fruit (keys_a_down ++ [ReadChar 13]) in
  main env_ex w0 = Ret EXIT_SUCCESS (world_of (main env_ex w0)) /\
  Exists (fun rd => leaves_loop rd = true) (tty_in w0).
Proof.
  intros w0. split; [vm_compute; reflexivity |].
  apply (main_returns_after_enter_or_ctrlc env_ex w0 EXIT_SUCCESS
           (world_of (main env_ex w0))).
  vm_compute. reflexivity.
Defined.

(** X22: when [malloc] fails, the arena is empty and the first allocation
    ends the process: [EXIT_FAILURE], [out of memory] on descriptor 2, and
    nothing else has happened (standard input is not read, the terminal is
    not opened). *)
Theorem malloc_failure_exits env w0 :
  malloc_result env = 0 ->
  main env w0 = Exit EXIT_FAILURE (write_fd 2 (chars "out of memory" ++ [NL]) w0).
Proof.
  intros Hm. unfold main, main_init, main_arena. rewrite Hm. reflexivity.
Qed.

Lemma malloc_failure_exits_witness :
  let env := {| malloc_result := 0; open_result := 3; ws_row := 24;
                uninit := fun _ => 7 |} in
  main env (world_ex fruit keys_a_down) =
    Exit EXIT_FAILURE (write_fd 2 (chars "out of memory" ++ [NL]) (world_ex fruit keys_a_down)).
Proof.
  intros env. apply (malloc_failure_exits env (world_ex fruit keys_a_down)).
  reflexivity.
Defined.

(** X23: when the input and its tables fit and the terminal cannot be opened,
    the process ends after it has read the input: [EXIT_FAILURE],
    [could not open /dev/tty] on descriptor 2, nothing on standard output
    and the terminal untouched. *)
Theorem open_failure_exits env w0 :
  malloc_result env <> 0 -> open_result env = -1 ->
  sizeof_Entries + Z.of_nat (length (std_in w0)) + 1
    + (sizeof_ptr + sizeof_int) * Z.of_nat (length (runs (std_in w0)))
    + sizeof_Terminal <= MEMORY_MAX ->
  exists w,
    main env w0 = Exit EXIT_FAILURE w /\
    std_err w = std_err w0 ++ chars "could not open /dev/tty" ++ [NL] /\
    std_out w = std_out w0 /\ std_in w = [] /\
    tty_out w = tty_out w0 /\ tty_attr w = tty_attr w0 /\ tty_in w = tty_in w0.
Proof.
  intros Hm Ho Hfit. unfold main, main_init.
  assert (Harena : main_arena env =
            {| beg := malloc_result env; end_ := malloc_result env + MEMORY_MAX |}).
  { unfold main_arena. destruct (Z.eqb_spec (malloc_result env) 0); [contradiction | reflexivity]. }
  rewrite Harena.
  unfold sizeof_Terminal in Hfit.
  destruct (read_entries_fits env
              {| beg := malloc_result env; end_ := malloc_result env + MEMORY_MAX |} w0)
    as (e & inp & arena' & w1 & Hre & Hin & Hbeg & Hend).
  { cbn [beg end_]. lia. }
  cbn [beg end_] in Hbeg, Hend.
  pose proof (read_entries_ret _ _ _ _ _ _ _ Hre) as Hret. cbv zeta in Hret.
  destruct Hret as (_ & _ & _ & _ & _ & _ & Hattr & Htin & Htout & Hout & Herr).
  unfold M_bind at 2. unfold M_bind at 1. rewrite Hre.
  unfold get_terminal. unfold M_bind at 2. unfold M_bind at 1.
  rewrite alloc_ok; [| reflexivity | lia | apply quot_fits; [reflexivity | lia |]].
  2:{ unfold sizeof_Terminal. lia. }
  rewrite Ho. change (-1 =? -1) with true. cbv iota. unfold ERROR_EXIT.
  eexists. split; [reflexivity |].
  rewrite write_fd_std_err, write_fd_std_out, write_fd_attr, write_fd_tty_in.
  cbn [Z.eqb Pos.eqb]. cbn [write_fd tty_out std_in].
  repeat split; assumption || congruence.
Qed.

Lemma open_failure_exits_witness :
  let env := {| malloc_result := 4096; open_result := -1; ws_row := 24;
                uninit := fun _ => 7 |} in
  let w0 := world_ex fruit keys_a_down in
  exists w,
    main env w0 = Exit EXIT_FAILURE w /\
    std_err w = std_err w0 ++ chars "could not open /dev/tty" ++ [NL] /\
    std_out w = std_out w0 /\ std_in w = [] /\
    tty_out w = tty_out w0 /\ tty_attr w = tty_attr w0 /\ tty_in w = tty_in w0.
Proof.
  intros env w0. apply (open_failure_exits env w0).
  - discriminate.
  - reflexivity.
  - vm_compute. discriminate.
Defined.

Lemma take_min_length {A} (l : list A) (n : Z) :
  take (Z.to_nat (Z.min n (Z.of_nat (length l)))) l = take (Z.to_nat n) l.
Proof.
  destruct (Z_le_gt_dec n (Z.of_nat (length l))).
  - rewrite Z.min_l by lia. reflexivity.
  - rewrite Z.min_r by lia. rewrite Nat2Z.id. rewrite !take_ge by lia. reflexivity.
Qed.

(** The entries [main] works on are the runs of the input it read. *)
Lemma main_init_entries env w0 st w :
  main_init env w0 = Ret st w ->
  forall i,
    entries (l_entries st) !! i ≫= entry_str (l_input st) =
    runs (take (Z.to_nat (MEMORY_MAX - sizeof_Entries - 1)) (std_in w0)) !! i.
Proof.
  intros H.
  assert (Hm : malloc_result env <> 0).
  { intros Hm. unfold main_init, main_arena in H. rewrite Hm in H. discriminate. }
  unfold main_init in H.
  apply bind_ret_inv in H as ([[e inp] a1] & w1 & Hre & H).
  pose proof (read_entries_wf _ _ _ _ _ _ _ Hre) as Hwf.
  apply read_entries_ret in Hre. cbv zeta in Hre.
  destruct Hre as (_ & _ & _ & _ & _ & Hruns & _).
  rewrite take_min_length in Hruns.
  replace (end_ (main_arena env) - sizeof_Entries - beg (main_arena env) - 1)
    with (MEMORY_MAX - sizeof_Entries - 1) in Hruns.
  2:{ unfold main_arena. destruct (Z.eqb_spec (malloc_result env) 0); [contradiction |].
      cbn [beg end_]. lia. }
  apply bind_ret_inv in H as ([term a2] & w2 & _ & H).
  apply bind_ret_inv in H as (e' & w3 & Hd & H).
  apply draw_ret in Hd as (-> & _); [| exact Hwf].
  apply bind_ret_inv in H as (term' & w4 & _ & H).
  apply bind_ret_inv in H as ([p3 a3] & w5 & _ & H).
  unfold M_ret in H. injection H as <- <-.
  exact Hruns.
Qed.

(** ** The result on standard output *)






(** X24: what a run that returns has written to standard output, with the
    terminal not on descriptor 1: nothing, or a prefix of exactly one entry
    of the input, a non-empty run between delimiter bytes, with no line feed
    after it; the whole entry when every [write] on descriptor 1 takes at
    least one byte. *)
Theorem main_writes_one_entry env w0 status w :
  main env w0 = Ret status w ->
  open_result env <> 1 ->
  std_out w = std_out w0 \/
  exists r k,
    r ∈ runs (take (Z.to_nat (MEMORY_MAX - sizeof_Entries - 1)) (std_in w0)) /\
    std_out w = std_out w0 ++ take k r /\
    (Forall (fun c => 1 <= c) (out_dev w0) -> std_out w = std_out w0 ++ r).
Proof.
  intros H Hfd. unfold main in H.
  apply bind_ret_inv in H as (st0 & wi & Hinit & H).
  apply bind_ret_inv in H as (st' & w' & Hloop & Hend).
  destruct (main_init_inv env w0 st0 wi Hinit) as (Hinv0 & Hin0 & Htty0 & _).
  pose proof (main_init_entries env w0 st0 wi Hinit) as Hruns.
  pose proof (framed_main_init env w0) as Hqi. rewrite Hinit in Hqi.
  destruct Hqi as ((_ & _ & _ & Hdev0) & _).
  pose proof (main_loop_frame (open_result env) (S (length (tty_in w0))) st0 wi Htty0) as Hql.
  rewrite Hloop in Hql. destruct Hql as ((_ & _ & _ & Hdev1) & _).
  pose proof (main_loop_outcome w0 (S (length (tty_in w0))) st0 wi Hinv0
                ltac:(rewrite Hin0; lia)) as Ho.
  rewrite Hloop in Ho. destruct Ho as (st1 & Hend1 & Hst1 & Hw1 & Hfr).
  destruct (main_end_cases w0 st1 st' w' Hst1 Hend1)
    as (out & k & w'' & Heq & _ & _ & _ & Hso & Hall & _ & Hsel).
  rewrite Heq in Hend. injection Hend as _ <-.
  destruct Hfr as (_ & Hterm & Hinp & Hents & _).
  destruct Hw1 as (_ & Hout & _). rewrite Hterm, Htty0 in Hout. specialize (Hout Hfd).
  rewrite Hout in Hso. rewrite Hdev1, Hdev0 in Hall.
  destruct Hend1 as [-> | (i & p & str & _ & _ & _ & Hrange & Hp & Hs & ->)].
  - destruct Hst1 as (_ & _ & _ & _ & _ & Hnone & _). rewrite Hnone in Hsel.
    subst out. left. rewrite Hso, take_nil. apply app_nil_r.
  - cbn [l_selected_entry with_selected_entry] in Hsel.
    assert (out = str) by congruence. subst out.
    right. exists str, k. split; [| split; [exact Hso |]].
    + apply (list_elem_of_lookup_2 _ (Z.to_nat i)).
      rewrite <- Hruns, <- Hents, <- Hinp.
      unfold arr_get in Hp. destruct (Z.ltb_spec i 0); [lia |].
      rewrite Hp. exact Hs.
    + intros Hok. rewrite Hso, (Hall Hok). reflexivity.
Qed.

Lemma main_writes_one_entry_witness :
  let w0 := world_dev fruit (keys_a_down ++ [ReadChar 13]) [3; 2; 5] in
  let w := world_of (main env_ex w0) in
  main env_ex w0 = Ret EXIT_SUCCESS w /\
  (std_out w = std_out w0 \/
   exists r k,
     r ∈ runs (take (Z.to_nat (MEMORY_MAX - sizeof_Entries - 1)) (std_in w0)) /\
     std_out w = std_out w0 ++ take k r /\
     (Forall (fun c => 1 <= c) (out_dev w0) -> std_out w = std_out w0 ++ r)).
Proof.
  intros w0 w. split; [vm_compute; reflexivity |].
  apply (main_writes_one_entry env_ex w0 EXIT_SUCCESS w).
  - vm_compute. reflexivity.
  - discriminate.
Defined.

(** ** The arena of [main] *)

(** The arena [read_entries] returns: the bottom cursor moved up past the
    input and its line feed, the top one down past the struct and the
    tables, and they have not crossed. *)
Lemma read_entries_arena env arena w e inp arena' w' :
  sizeof_Entries < end_ arena - beg arena ->
  read_entries env arena w = Ret (e, inp, arena') w' ->
  beg arena < beg arena' /\ beg arena' <= end_ arena' /\
  end_ arena' <= end_ arena - sizeof_Entries.
Proof.
  unfold read_entries. intros Hroom H.
  apply bind_ret_inv in H as ([p1 a1] & w1 & Ha1 & H).
  apply alloc_ret_inv in Ha1 as (-> & _ & -> & _). cbn [beg end_] in H.
  apply bind_ret_inv in H as (data & w2 & Hrd & H).
  assert (Hc : beg arena + Z.of_nat (length data) < end_ arena - sizeof_Entries * 1).
  { unfold fullread in Hrd. injection Hrd as <- _. rewrite length_take.
    unfold sizeof_Entries in *. lia. }
  apply bind_ret_inv in H as ([p2 a2] & w3 & Ha2 & H).
  apply alloc_ret_inv in Ha2 as (-> & _ & -> & Hq2). cbn [beg end_] in H, Hq2.
  apply bind_ret_inv in H as ([p3 a3] & w4 & Ha3 & H).
  apply alloc_ret_inv in Ha3 as (-> & _ & -> & Hq3). cbn [beg end_] in H, Hq3.
  apply bind_ret_inv in H as ([buf' ents'] & w5 & Hch & H).
  unfold M_ret in H. injection H as <- <- <- <-. cbn [beg end_].
  set (n := count_lines (data ++ [NL]) 0 0) in *.
  assert (Hn : 0 <= n).
  { subst n. pose proof (count_lines_closed_runs (data ++ [NL]) 0 []) as Hcount.
    change (Z.of_nat (length (@nil Z))) with 0 in Hcount. rewrite Hcount. lia. }
  unfold sizeof_Entries, sizeof_ptr, sizeof_int in *.
  destruct (Z.eq_dec n 0) as [Hz | Hnz].
  - rewrite Hz. lia.
  - apply fits_quot in Hq2; [| lia | lia]. apply fits_quot in Hq3; [| lia | lia]. lia.
Qed.

(** X25: at the head of the loop, after any number of keys, the arena of
    [main] lies inside the block [malloc] returned and its cursors have not
    crossed: the free part never has a negative size, and the loop never
    moves the cursors (every redraw works on a copy of the arena). *)
Theorem main_arena_in_bounds env w0 n st w :
  run env n w0 = Ret (Continue st) w ->
  malloc_result env <> 0 /\
  malloc_result env < beg (l_arena st) /\
  beg (l_arena st) <= end_ (l_arena st) /\
  end_ (l_arena st) <=
    malloc_result env + MEMORY_MAX - sizeof_Entries - sizeof_Terminal - PATTERN_MAX.
Proof.
  intros Hrun. destruct (run_inv env w0 n st w Hrun) as (_ & _ & _ & st0 & wi & Hinit & _ & Hfr).
  destruct Hfr as (-> & _).
  assert (Hm : malloc_result env <> 0).
  { intros Hm. unfold main_init, main_arena in Hinit. rewrite Hm in Hinit. discriminate. }
  split; [exact Hm |].
  unfold main_init in Hinit.
  apply bind_ret_inv in Hinit as ([[e inp] a1] & w1 & Hre & H).
  assert (Harena : main_arena env =
            {| beg := malloc_result env; end_ := malloc_result env + MEMORY_MAX |}).
  { unfold main_arena. destruct (Z.eqb_spec (malloc_result env) 0); [contradiction | reflexivity]. }
  rewrite Harena in Hre.
  apply read_entries_arena in Hre as (Hb1 & Hbe1 & He1);
    [| cbn [beg end_]; rewrite MEMORY_MAX_eq; unfold sizeof_Entries; lia].
  cbn [beg end_] in Hb1, He1.
  apply bind_ret_inv in H as ([term a2] & w2 & Hgt & H).
  unfold get_terminal in Hgt.
  apply bind_ret_inv in Hgt as ([p a2'] & w2' & Ha & Hgt).
  apply alloc_ret_inv in Ha as (-> & _ & -> & Hq).
  destruct (open_result env =? -1); [discriminate |].
  unfold M_ret in Hgt. injection Hgt as <- <- <-.
  apply bind_ret_inv in H as (e' & w3 & _ & H).
  apply bind_ret_inv in H as (term' & w4 & _ & H).
  apply bind_ret_inv in H as ([p3 a3] & w5 & Ha & H).
  apply alloc_ret_inv in Ha as (-> & _ & -> & Hq3). cbn [beg end_] in Hq3.
  unfold M_ret in H. injection H as <- <-. cbn [l_arena beg end_].
  apply fits_quot in Hq; [| reflexivity | lia].
  apply fits_quot in Hq3; [| reflexivity | reflexivity].
  unfold sizeof_Entries, sizeof_Terminal, sizeof_char in *.
  rewrite PATTERN_MAX_eq in *. lia.
Qed.

Lemma main_arena_in_bounds_witness :
  let w0 := world_ex fruit keys_a_down in
  let st := state_of (run env_ex 2 w0) in
  malloc_result env_ex <> 0 /\
  malloc_result env_ex < beg (l_arena st) /\
  beg (l_arena st) <= end_ (l_arena st) /\
  end_ (l_arena st) <=
    malloc_result env_ex + MEMORY_MAX - sizeof_Entries - sizeof_Terminal - PATTERN_MAX.
Proof.
  intros w0 st.
  apply (main_arena_in_bounds env_ex w0 2 st (world_of (run env_ex 2 w0))).
  vm_compute. reflexivity.
Defined.

(** ** The terminal of [main] *)

Lemma main_init_height env w0 st w :
  main_init env w0 = Ret st w ->
  height (l_term st) = ws_row env mod 2 ^ 16.
Proof.
  unfold main_init. intros H.
  apply bind_ret_inv in H as ([[e inp] a1] & w1 & _ & H).
  apply bind_ret_inv in H as ([term a2] & w2 & Hgt & H).
  unfold get_terminal in Hgt.
  apply bind_ret_inv in Hgt as ([p a2'] & w2' & _ & Hgt).
  destruct (open_result env =? -1); [discriminate |].
  unfold M_ret in Hgt. injection Hgt as <- <- <-.
  apply bind_ret_inv in H as (e' & w3 & _ & H).
  cbn [M_bind set_terminal_mode] in H.
  apply bind_ret_inv in H as ([p3 a3] & w4 & _ & H).
  unfold M_ret in H. injection H as <- <-. reflexivity.
Qed.

(** X26: at the head of the loop, after any number of keys and redraws, the
    terminal is in raw mode and the attributes saved in [term->original] are
    the ones the terminal had when the program started: [set_terminal_mode]
    saves them again at every redraw, and every time just after
    [restore_terminal_mode] put them back.  The descriptor and the height
    are the ones [get_terminal] found. *)
Theorem saved_attributes_stay env w0 n st w :
  run env n w0 = Ret (Continue st) w ->
  original (l_term st) = tty_attr w0 /\
  tty_attr w = cfmakeraw (tty_attr w0) /\
  tty (l_term st) = open_result env /\
  height (l_term st) = ws_row env mod 2 ^ 16.
Proof.
  intros Hrun.
  destruct (run_inv env w0 n st w Hrun)
    as ((Hst & Hw & _) & Htty & _ & st0 & wi & Hinit & _ & Hfr).
  destruct Hst as (_ & _ & _ & _ & _ & _ & Horig).
  destruct Hw as (Hattr & _).
  destruct Hfr as (_ & Hterm & _).
  split; [exact Horig |]. split; [exact Hattr |]. split; [exact Htty |].
  rewrite Hterm. apply (main_init_height env w0 st0 wi Hinit).
Qed.

Lemma saved_attributes_stay_witness :
  let w0 := world_ex fruit keys_a_down in
  let st := state_of (run env_ex 2 w0) in
  let w := world_of (run env_ex 2 w0) in
  original (l_term st) = tty_attr w0 /\
  tty_attr w = cfmakeraw (tty_attr w0) /\
  tty (l_term st) = open_result env_ex /\
  height (l_term st) = ws_row env_ex mod 2 ^ 16.
Proof.
  intros w0 st w. apply (saved_attributes_stay env_ex w0 2 st w).
  vm_compute. reflexivity.
Defined.
